(** * Senator quiz: question generator, answer validator and session state

    A shallow embedding of [static/app.js]: the session object [GameState],
    the text utilities ([normalizeName], [lastNameOf], [levenshtein],
    [withinMisspellingThreshold]), the template fillers of [Generator] and
    [Validator.validateAnswer], followed by the properties proved of them.

    Conventions of the embedding.
    - A JavaScript string is the list of its UTF-16 code units ([jsstring]).
    - The host built-ins [String.prototype.toLowerCase],
      [String.prototype.normalize("NFKD")] and
      [Number.prototype.toString(36)] are not code of the program; they are
      the fields of the class [Host].  [AsciiHost] is the instance used to
      evaluate the program on strings whose code units are all below 128,
      where lower-casing is the shift of [A-Z] and NFKD is the identity.
    - [rnd] and [Math.random] are streams of rationals read through a
      cursor kept in the [World]; [Math.floor(rnd() * n)] is taken in exact
      arithmetic.
    - [new Date()] is an argument ([now]) of the operations that read the
      clock; a timestamp is a number of milliseconds.
    - [logValidation] only writes to the page and the console and is left
      out.
    - The score of [toResults] is computed in binary64, with the
      operations of [SpecFloat], as the program computes it.
    - The one exception of the embedding is the [TypeError] that
      [groupByState] raises when a state names a property that objects
      inherit: a call that ends so gives [ATypeError].  The other
      operations of the host that could raise one are excluded by the
      types (a difficulty is Easy or Hard, a portrait is a string) and by
      the contract of [rnd].

    The definitions come first, in the order of the program, followed by
    the notions the statements need; the properties follow, one module per
    component. *)

From Stdlib Require Import List NArith ZArith QArith Qround Arith Lia Bool.
From Stdlib Require Import String Ascii DecimalString Permutation Sorted.
From Stdlib Require Import SpecFloat.
Import ListNotations.

Close Scope Q_scope.
Close Scope Z_scope.
Open Scope nat_scope.
Open Scope list_scope.

Set Implicit Arguments.

(** ** Strings *)

(** A string is its UTF-16 code units; [length], indexing and [===] are
    those of the list. *)
Definition jsstring := list N.

(** A literal of the program, all of whose characters are ASCII. *)
Definition str (s : string) : jsstring :=
  map N_of_ascii (list_ascii_of_string s).

(** [a === b]. *)
Fixpoint streq (a b : jsstring) : bool :=
  match a, b with
  | [], [] => true
  | x :: a', y :: b' => N.eqb x y && streq a' b'
  | _, _ => false
  end.

(** [arr.includes(x)] on an array of strings. *)
Definition includes (arr : list jsstring) (x : jsstring) : bool :=
  existsb (streq x) arr.

(** A string is truthy when it is not empty. *)
Definition truthy (s : jsstring) : bool :=
  match s with [] => false | _ :: _ => true end.

(** [s.startsWith(p)]. *)
Fixpoint startsWith (s p : jsstring) : bool :=
  match p, s with
  | [], _ => true
  | y :: p', x :: s' => N.eqb x y && startsWith s' p'
  | _ :: _, [] => false
  end.

(** The class [\s] of a JavaScript regular expression, which is also the
    set of code units removed by [trim]. *)
Definition isSpace (c : N) : bool :=
  ((9 <=? c) && (c <=? 13) || (c =? 32) || (c =? 160) || (c =? 5760)
   || (8192 <=? c) && (c <=? 8202) || (c =? 8232) || (c =? 8233)
   || (c =? 8239) || (c =? 8287) || (c =? 12288) || (c =? 65279))%N.

(** The combining marks U+0300 to U+036F. *)
Definition isCombiningMark (c : N) : bool := ((768 <=? c) && (c <=? 879))%N.

(** [a-z0-9\s], the complement of the class removed as punctuation. *)
Definition isWordChar (c : N) : bool :=
  ((97 <=? c) && (c <=? 122) || (48 <=? c) && (c <=? 57))%N || isSpace c.

(** The code units a normalized name is made of: [a-z], [0-9] and the
    space U+0020. *)
Definition isPlain (c : N) : bool :=
  ((97 <=? c) && (c <=? 122) || (48 <=? c) && (c <=? 57) || (c =? 32))%N.

Definition space : N := 32%N.

(** [.replace(/\s+/g, " ")]: [inRun] tells that the previous code unit was
    white space, already replaced. *)
Fixpoint collapseSpaces (inRun : bool) (s : jsstring) : jsstring :=
  match s with
  | [] => []
  | c :: r =>
      if isSpace c
      then (if inRun then collapseSpaces true r
            else space :: collapseSpaces true r)
      else c :: collapseSpaces false r
  end.

Fixpoint dropWhile {A} (p : A -> bool) (l : list A) : list A :=
  match l with
  | [] => []
  | x :: r => if p x then dropWhile p r else l
  end.

(** What is left of [s] without its trailing white space. *)
Fixpoint trimEnd (s : jsstring) : jsstring :=
  match s with
  | [] => []
  | c :: r =>
      match trimEnd r with
      | [] => if isSpace c then [] else [c]
      | r' => c :: r'
      end
  end.

(** [.trim()]. *)
Definition trim (s : jsstring) : jsstring :=
  trimEnd (dropWhile isSpace s).

(** [s.split(" ")]: never empty; [""] splits into [[""]]. *)
Fixpoint split (sep : N) (s : jsstring) : list jsstring :=
  match s with
  | [] => [[]]
  | c :: r =>
      if N.eqb c sep then [] :: split sep r
      else match split sep r with
           | p :: ps => (c :: p) :: ps
           | [] => [[c]]
           end
  end.

(** [Math.min(x, y, z)]. *)
Definition min3 (x y z : nat) : nat := Nat.min (Nat.min x y) z.

(** ** Host built-ins *)

Class Host := {
  toLowerCase : jsstring -> jsstring;
  normalizeNFKD : jsstring -> jsstring;
  (** [x.toString(36)] for a number [x]. *)
  toString36 : Q -> jsstring
}.

(** What the validator relies on: lower-case letters, digits and spaces
    are left alone by both string built-ins. *)
Class HostLaws (H : Host) : Prop := {
  toLowerCase_plain :
    forall s, forallb isPlain s = true -> toLowerCase s = s;
  normalizeNFKD_plain :
    forall s, forallb isPlain s = true -> normalizeNFKD s = s
}.

Section Text.

Context {H : Host}.

(** ** UTILITIES *)

Definition normalizeName (s : jsstring) : jsstring :=
  trim
    (collapseSpaces false
       (filter isWordChar
          (filter (fun c => negb (isCombiningMark c))
             (normalizeNFKD (toLowerCase s))))).

Definition lastNameOf (full : jsstring) : jsstring :=
  let parts := split space (normalizeName full) in
  last parts [].

(** Row 0 of the table: [dp[0][j] = j]. *)
Definition firstRow (n : nat) : list nat := seq 0 (S n).

(** The inner loop of [levenshtein] for one [i]: [prev] is what is left of
    row [i-1] from column [j-1] on, [left] is [dp[i][j-1]], [b] is what is
    left of the second string from index [j-1] on. *)
Fixpoint fillRow (ai : N) (prev : list nat) (left : nat) (b : jsstring)
  : list nat :=
  match b, prev with
  | bj :: b', diag :: ((up :: _) as prev') =>
      let cost := if N.eqb ai bj then 0 else 1 in
      let v := min3 (up + 1) (left + 1) (diag + cost) in
      v :: fillRow ai prev' v b'
  | _, _ => []
  end.

(** Row [i] of the table, with [dp[i][0] = i]. *)
Definition nextRow (i : nat) (ai : N) (prev : list nat) (b : jsstring)
  : list nat :=
  i :: fillRow ai prev i b.

(** Rows [i], [i+1], ... of the table, one per code unit left in [a]. *)
Fixpoint dpRows (i : nat) (a : jsstring) (prev : list nat) (b : jsstring)
  : list (list nat) :=
  match a with
  | [] => []
  | ai :: a' =>
      let row := nextRow i ai prev b in
      row :: dpRows (S i) a' row b
  end.

Definition dpTable (a b : jsstring) : list (list nat) :=
  firstRow (List.length b) :: dpRows 1 a (firstRow (List.length b)) b.

Definition levenshtein (a b : jsstring) : nat :=
  let a := normalizeName a in
  let b := normalizeName b in
  let m := List.length a in
  let n := List.length b in
  if Nat.eqb m 0 then n
  else if Nat.eqb n 0 then m
  else nth n (nth m (dpTable a b) []) 0.

Definition withinMisspellingThreshold (input target : jsstring) : bool :=
  let t := normalizeName target in
  let i := normalizeName input in
  let dist := levenshtein i t in
  if 7 <=? List.length t then dist <=? 2 else dist <=? 1.

End Text.

(** ** The host on ASCII strings *)

(** [toLowerCase] on one code unit below 128. *)
Definition asciiLower (c : N) : N :=
  if ((65 <=? c) && (c <=? 90))%N then (c + 32)%N else c.

(** The digits of a rational of [0,1) in base 36, at most [n] of them,
    stopping when nothing is left. *)
Fixpoint digits36 (n : nat) (x : Q) : jsstring :=
  match n with
  | O => []
  | S n' =>
      if Qeq_bool x 0 then []
      else
        let y := (x * 36)%Q in
        let d := Qfloor y in
        let c := (if d <? 10 then 48 + d else 87 + d)%Z in
        Z.to_N c :: digits36 n' (y - inject_Z d)%Q
  end.

(** [x.toString(36)] for [x] in [0,1): "0" or "0." and the digits, of
    which [makeId] reads the first seven. *)
Definition asciiToString36 (x : Q) : jsstring :=
  if Qeq_bool x 0 then str "0" else str "0." ++ digits36 52 x.

#[export] Instance AsciiHost : Host := {|
  toLowerCase := map asciiLower;
  normalizeNFKD := fun s => s;
  toString36 := asciiToString36
|}.

(** ** Randomness *)

(** The two sources of random numbers a call can read: the [rnd] it is
    given and the global [Math.random].  Each is a stream with a cursor. *)
Record World := {
  rnd_stream : nat -> Q;
  rnd_pos : nat;
  math_stream : nat -> Q;
  math_pos : nat
}.

Definition M (A : Type) : Type := World -> A * World.

Definition ret {A} (x : A) : M A := fun w => (x, w).

Definition bind {A B} (m : M A) (k : A -> M B) : M B :=
  fun w => let (x, w') := m w in k x w'.

Notation "x <- m ;; k" := (bind m (fun x => k))
  (at level 61, m at next level, right associativity).

(** [rnd()]. *)
Definition rnd : M Q := fun w =>
  (rnd_stream w (rnd_pos w),
   {| rnd_stream := rnd_stream w; rnd_pos := S (rnd_pos w);
      math_stream := math_stream w; math_pos := math_pos w |}).

(** [Math.random()]. *)
Definition mathRandom : M Q := fun w =>
  (math_stream w (math_pos w),
   {| rnd_stream := rnd_stream w; rnd_pos := rnd_pos w;
      math_stream := math_stream w; math_pos := S (math_pos w) |}).

(** [Math.floor(r * n)]. *)
Definition floorTimes (r : Q) (n : nat) : Z :=
  Qfloor (r * inject_Z (Z.of_nat n))%Q.

(** [arr[i]] for an integer [i]: [undefined] outside the array. *)
Definition index {A} (arr : list A) (i : Z) : option A :=
  if (i <? 0)%Z then None else nth_error arr (Z.to_nat i).

(** [pickRandom(arr, rnd)]: [null] on an empty array, without a draw. *)
Definition pickRandom {A} (arr : list A) : M (option A) :=
  match arr with
  | [] => ret None
  | _ :: _ =>
      r <- rnd ;;
      ret (index arr (floorTimes r (List.length arr)))
  end.

(** [l[n] = x] for [n] inside [l]. *)
Fixpoint setNth {A} (n : nat) (x : A) (l : list A) : list A :=
  match l, n with
  | [], _ => []
  | _ :: r, O => x :: r
  | y :: r, S n' => y :: setNth n' x r
  end.

(** [[arr[i], arr[j]] = [arr[j], arr[i]]] for [i] and [j] inside the
    array, which is where [shuffleInPlace] puts them when [rnd] returns
    numbers of [0,1), as [Math.random] does; outside that contract the
    assignment would leave holes in the array, and the array is left as it
    is here. *)
Definition swap {A} (arr : list A) (i : nat) (j : Z) : list A :=
  match nth_error arr i, index arr j with
  | Some x, Some y => setNth (Z.to_nat j) x (setNth i y arr)
  | _, _ => arr
  end.

(** The loop of [shuffleInPlace], from index [i] down to index 1. *)
Fixpoint shuffleFrom {A} (i : nat) (arr : list A) : M (list A) :=
  match i with
  | O => ret arr
  | S i' =>
      r <- rnd ;;
      let j := floorTimes r (i + 1) in
      shuffleFrom i' (swap arr i j)
  end.

Definition shuffleInPlace {A} (arr : list A) : M (list A) :=
  shuffleFrom (List.length arr - 1) arr.

(** ** Data *)

Record Senator := {
  name : jsstring;
  state : jsstring;
  party : jsstring;
  seniority : jsstring;
  portrait : jsstring
}.

Inductive Difficulty := Easy | Hard.

Inductive AnswerMode := full_name | last_name | misspelling_correction.

Inductive ErrorType :=
  unknown_template | unsolvable_template | data_missing | ambiguous_answer.

(** An object literal with string values, [None] for [null] and
    [undefined]. *)
Definition object := list (string * option jsstring).

Record Question := {
  id : jsstring;
  template : jsstring;
  filled_variables : object;
  difficulty : Difficulty;
  correct_answers : list jsstring;
  allowed_answer_modes : list AnswerMode;
  type : string;
  portrait_image : option jsstring
}.

Record GenerationError := {
  error_type : ErrorType;
  message : string;
  details : option object
}.

(** How a call of a filler ends: it returns a question, it returns an
    object with an [error_type], or it throws the [TypeError] of
    [groupByState]. *)
Inductive Generated :=
| AQuestion (q : Question)
| AnError (e : GenerationError)
| ATypeError.

Definition errorObject (t : ErrorType) (msg : string) (d : option object)
  : Generated :=
  AnError {| error_type := t; message := msg; details := d |}.

(** [obj && obj.error_type], on what a call returns.  A call that
    throws returns nothing: [false] there lets the exception leave the
    loop of [generateQuestion], as it does. *)
Definition isError (g : Generated) : bool :=
  match g with
  | AnError _ => true
  | AQuestion _ => false
  | ATypeError => false
  end.

Definition officialName (sen : Senator) : jsstring := name sen.

Definition PORTRAIT_BASE : jsstring := str "assets/".

(** ** DATA HELPERS *)

(** The names of the properties that every object inherits from
    [Object.prototype]: read on [byState] they give a function, or the
    prototype itself for [__proto__], all truthy and without [push]. *)
Definition inheritedNames : list string :=
  ["constructor"; "__defineGetter__"; "__defineSetter__"; "hasOwnProperty";
   "__lookupGetter__"; "__lookupSetter__"; "isPrototypeOf";
   "propertyIsEnumerable"; "toString"; "valueOf"; "__proto__";
   "toLocaleString"]%string.

Definition inherited (k : jsstring) : bool := includes (map str inheritedNames) k.

(** [if (!byState[k]) byState[k] = []; byState[k].push(s)].  The object
    is the list of its own properties in the order they were created.
    An own property is an array and gets [s]; a key that is not an own
    property is created, unless [byState[k]] finds an inherited property:
    then nothing is created and [push] is not a function, a [TypeError],
    which is [None]. *)
Fixpoint pushTo (k : jsstring) (s : Senator)
  (byState : list (jsstring * list Senator))
  : option (list (jsstring * list Senator)) :=
  match byState with
  | [] => if inherited k then None else Some [(k, [s])]
  | (k', v) :: rest =>
      if streq k' k then Some ((k', v ++ [s]) :: rest)
      else match pushTo k s rest with
           | Some rest' => Some ((k', v) :: rest')
           | None => None
           end
  end.

(** [None] when the loop throws. *)
Definition groupByState (senators : list Senator)
  : option (list (jsstring * list Senator)) :=
  fold_left (fun byState s =>
               match byState with
               | Some m => pushTo (state s) s m
               | None => None
               end) senators (Some []).

(** [0-9]. *)
Definition isDigit (c : N) : bool := ((48 <=? c) && (c <=? 57))%N.

Definition decimalValue (k : jsstring) : N :=
  fold_left (fun acc c => acc * 10 + (c - 48))%N k 0%N.

(** A key that is an array index: the decimal writing, without a leading
    zero, of an integer from 0 to 2^32 - 2. *)
Definition arrayIndex (k : jsstring) : option N :=
  match k with
  | [] => None
  | c :: r =>
      if forallb isDigit k
         && (negb (N.eqb c 48) || match r with [] => true | _ :: _ => false end)
         && (decimalValue k <=? 4294967294)%N
      then Some (decimalValue k)
      else None
  end.

Fixpoint insertIndex (i : N) (k : jsstring) (sorted : list (N * jsstring))
  : list (N * jsstring) :=
  match sorted with
  | [] => [(i, k)]
  | (j, k') :: rest =>
      if (i <? j)%N then (i, k) :: sorted
      else (j, k') :: insertIndex i k rest
  end.

(** The keys that are array indices, in ascending order. *)
Definition indexKeys (keys : list jsstring) : list (N * jsstring) :=
  fold_left (fun sorted k =>
               match arrayIndex k with
               | Some i => insertIndex i k sorted
               | None => sorted
               end) keys [].

Definition isNamed (k : jsstring) : bool :=
  match arrayIndex k with
  | Some _ => false
  | None => true
  end.

(** [Object.keys(byState)]: the array indices in ascending order, then the
    other keys in the order they were created. *)
Definition objectKeys (byState : list (jsstring * list Senator))
  : list jsstring :=
  map snd (indexKeys (map fst byState)) ++ filter isNamed (map fst byState).

Fixpoint lookup (k : jsstring) (byState : list (jsstring * list Senator))
  : option (list Senator) :=
  match byState with
  | [] => None
  | (k', v) :: rest => if streq k' k then Some v else lookup k rest
  end.

(** A criterion of [getByStatePartySeniority] constrains only when it is
    truthy: present and not the empty string. *)
Definition rejects (criterion : option jsstring) (field : jsstring) : bool :=
  match criterion with
  | Some c => truthy c && negb (streq field c)
  | None => false
  end.

Definition getByStatePartySeniority (senators : list Senator)
  (st pa se : option jsstring) : list Senator :=
  filter (fun s =>
            if rejects st (state s) then false
            else if rejects pa (party s) then false
            else if rejects se (seniority s) then false
            else true) senators.

(** [[...new Set(xs)]]: the first occurrence of each string, in order. *)
Fixpoint addNew (seen xs : list jsstring) : list jsstring :=
  match xs with
  | [] => []
  | x :: r =>
      if includes seen x then addNew seen r
      else x :: addNew (seen ++ [x]) r
  end.

Definition uniqueStates (senators : list Senator) : list jsstring :=
  addNew [] (map state senators).

(** ** RULES: Templates *)

Record Template := { key : string; template_type : string }.

Definition Templates (d : Difficulty) : list Template :=
  match d with
  | Easy =>
      [ {| key := "state_any"; template_type := "text" |};
        {| key := "state_party_any"; template_type := "text" |};
        {| key := "state_seniority"; template_type := "text" |};
        {| key := "party_of_portrait"; template_type := "text" |};
        {| key := "state_of_portrait"; template_type := "text" |} ]
  | Hard =>
      [ {| key := "portrait_only"; template_type := "portrait" |};
        {| key := "state_seniority"; template_type := "text" |};
        {| key := "state_party_seniority"; template_type := "text" |};
        {| key := "party_of_random"; template_type := "text" |};
        {| key := "state_of_random"; template_type := "text" |} ]
  end%string.

(** ** GENERATOR: Template Fillers *)

Module Generator.
Section Fillers.

Context {H : Host}.

(** [s.slice(2, 9)]. *)
Definition slice_2_9 (s : jsstring) : jsstring := firstn 7 (skipn 2 s).

(** [makeId] reads [Math.random], not [rnd]. *)
Definition makeId : M jsstring :=
  r <- mathRandom ;;
  ret (str "q_" ++ slice_2_9 (toString36 r)).

(** [s.portrait.startsWith("http") ? s.portrait : PORTRAIT_BASE + s.portrait]. *)
Definition portraitUrl (s : Senator) : jsstring :=
  if startsWith (portrait s) (str "http") then portrait s
  else PORTRAIT_BASE ++ portrait s.

(** [difficulty === "Easy" ? ["last_name", "full_name"] : ["full_name"]]. *)
Definition modesFor (d : Difficulty) : list AnswerMode :=
  match d with
  | Easy => [last_name; full_name]
  | Hard => [full_name]
  end.

Definition parties : list jsstring :=
  [str "Democrat"; str "Republican"; str "Independent"].

Definition seniorities : list jsstring := [str "Senior"; str "Junior"].

Definition portraitOnly (d : Difficulty) (senators : list Senator)
  : M Generated :=
  s <- pickRandom senators ;;
  match s with
  | Some s' =>
      if truthy (portrait s') then
        i <- makeId ;;
        ret (AQuestion
               {| id := i;
                  template := str "Who is this senator?";
                  filled_variables :=
                    [("portrait_image"%string, Some (portraitUrl s'))];
                  difficulty := d;
                  correct_answers := [officialName s'];
                  allowed_answer_modes := modesFor d;
                  type := "portrait";
                  portrait_image := None |})
      else
        ret (errorObject data_missing "Portrait asset not found."
               (Some [("senator"%string,
                       Some (if truthy (name s') then name s'
                             else str "unknown"))]))
  | None =>
      ret (errorObject data_missing "Portrait asset not found."
             (Some [("senator"%string, Some (str "unknown"))]))
  end.

Definition stateAny (senators : list Senator) : M Generated :=
  match groupByState senators with
  | None => ret ATypeError
  | Some byState =>
      let states :=
        filter (fun st => match lookup st byState with
                          | Some v => 1 <=? List.length v
                          | None => false
                          end) (objectKeys byState) in
      st <- pickRandom states ;;
      let matches :=
        match st with
        | Some k => match lookup k byState with Some v => v | None => [] end
        | None => []
        end in
      if List.length matches <? 1 then
        ret (errorObject unsolvable_template
               "No senators found for selected state."
               (Some [("state"%string, st)]))
      else
        i <- makeId ;;
        ret (AQuestion
               {| id := i;
                  template := str "Name a senator from {state}.";
                  filled_variables := [("state"%string, st)];
                  difficulty := Easy;
                  correct_answers := map officialName matches;
                  allowed_answer_modes := [last_name; full_name];
                  type := "text";
                  portrait_image := None |})
  end.

(** The loop of [statePartyAny], with [attempts] iterations left. *)
Fixpoint statePartyAnyFrom (attempts : nat) (senators : list Senator)
  : M Generated :=
  match attempts with
  | O =>
      ret (errorObject unsolvable_template
             "Could not find a state+party with at least one match for Easy."
             None)
  | S attempts' =>
      st <- pickRandom (uniqueStates senators) ;;
      pa <- pickRandom parties ;;
      let matches := getByStatePartySeniority senators st pa None in
      if 1 <=? List.length matches then
        i <- makeId ;;
        ret (AQuestion
               {| id := i;
                  template := str "Name a {party} senator from {state}.";
                  filled_variables :=
                    [("party"%string, pa); ("state"%string, st)];
                  difficulty := Easy;
                  correct_answers := map officialName matches;
                  allowed_answer_modes := [last_name; full_name];
                  type := "text";
                  portrait_image := None |})
      else statePartyAnyFrom attempts' senators
  end.

Definition statePartyAny (senators : list Senator) : M Generated :=
  statePartyAnyFrom 30 senators.

(** The question [stateSeniority] builds from a unique match. *)
Definition stateSeniorityQuestion (i : jsstring) (d : Difficulty)
  (st se : option jsstring) (m : Senator) : Question :=
  {| id := i;
     template := str "Name the {seniority} Senator from {state}.";
     filled_variables := [("state"%string, st); ("seniority"%string, se)];
     difficulty := d;
     correct_answers := [officialName m];
     allowed_answer_modes := modesFor d;
     type := "text";
     portrait_image := None |}.

(** The loop of [stateSeniority], with [attempts] iterations left. *)
Fixpoint stateSeniorityFrom (attempts : nat) (d : Difficulty)
  (senators : list Senator) : M Generated :=
  match attempts with
  | O =>
      ret (errorObject ambiguous_answer
             "Could not enforce uniqueness for state+seniority." None)
  | S attempts' =>
      st <- pickRandom (uniqueStates senators) ;;
      se <- pickRandom seniorities ;;
      match getByStatePartySeniority senators st None se with
      | [m] =>
          i <- makeId ;;
          ret (AQuestion (stateSeniorityQuestion i d st se m))
      | _ => stateSeniorityFrom attempts' d senators
      end
  end.

Definition stateSeniority (d : Difficulty) (senators : list Senator)
  : M Generated :=
  stateSeniorityFrom 40 d senators.

(** The loop of [statePartySeniority], with [attempts] iterations left. *)
Fixpoint statePartySeniorityFrom (attempts : nat) (senators : list Senator)
  : M Generated :=
  match attempts with
  | O =>
      ret (errorObject ambiguous_answer
             "Could not enforce uniqueness for state+party+seniority in Hard."
             None)
  | S attempts' =>
      st <- pickRandom (uniqueStates senators) ;;
      pa <- pickRandom parties ;;
      se <- pickRandom seniorities ;;
      match getByStatePartySeniority senators st pa se with
      | [m] =>
          i <- makeId ;;
          ret (AQuestion
                 {| id := i;
                    template :=
                      str "Name the {party} {seniority} Senator from {state}.";
                    filled_variables :=
                      [("party"%string, pa); ("seniority"%string, se);
                       ("state"%string, st)];
                    difficulty := Hard;
                    correct_answers := [officialName m];
                    allowed_answer_modes := [full_name];
                    type := "text";
                    portrait_image := None |})
      | _ => statePartySeniorityFrom attempts' senators
      end
  end.

Definition statePartySeniority (senators : list Senator) : M Generated :=
  statePartySeniorityFrom 50 senators.

Definition noSenator : Generated :=
  errorObject data_missing "No senator found." None.

Definition partyOfPortrait (senators : list Senator) : M Generated :=
  s <- pickRandom senators ;;
  match s with
  | None => ret noSenator
  | Some s' =>
      i <- makeId ;;
      ret (AQuestion
             {| id := i;
                template := str "Which party does {name} belong to?";
                filled_variables := [("name"%string, Some (officialName s'))];
                difficulty := Easy;
                correct_answers := [party s'];
                allowed_answer_modes := [full_name];
                type := "party_portrait";
                portrait_image := Some (portraitUrl s') |})
  end.

Definition stateOfPortrait (senators : list Senator) : M Generated :=
  s <- pickRandom senators ;;
  match s with
  | None => ret noSenator
  | Some s' =>
      i <- makeId ;;
      ret (AQuestion
             {| id := i;
                template := str "Which state does {name} represent?";
                filled_variables := [("name"%string, Some (officialName s'))];
                difficulty := Easy;
                correct_answers := [state s'];
                allowed_answer_modes := [full_name];
                type := "state_portrait";
                portrait_image := Some (portraitUrl s') |})
  end.

(** [Math.random() < 0.5]. *)
Definition flipCoin : M bool :=
  r <- mathRandom ;;
  ret (negb (Qle_bool (1 # 2) r)).

Definition partyOfRandom (d : Difficulty) (senators : list Senator)
  : M Generated :=
  s <- pickRandom senators ;;
  match s with
  | None => ret noSenator
  | Some s' =>
      coin <- flipCoin ;;
      i <- makeId ;;
      ret (AQuestion
             {| id := i;
                template :=
                  if coin then str "Which party does this senator belong to?"
                  else str "Which party does {name} belong to?";
                filled_variables :=
                  if coin then []
                  else [("name"%string, Some (officialName s'))];
                difficulty := Hard;
                correct_answers := [party s'];
                allowed_answer_modes := [full_name];
                type :=
                  if coin then "party_portrait_hard" else "party_text_hard";
                portrait_image := Some (portraitUrl s') |})
  end.

Definition stateOfRandom (d : Difficulty) (senators : list Senator)
  : M Generated :=
  s <- pickRandom senators ;;
  match s with
  | None => ret noSenator
  | Some s' =>
      coin <- flipCoin ;;
      i <- makeId ;;
      ret (AQuestion
             {| id := i;
                template :=
                  if coin then str "Which state does this senator represent?"
                  else str "Which state does {name} represent?";
                filled_variables :=
                  if coin then []
                  else [("name"%string, Some (officialName s'))];
                difficulty := Hard;
                correct_answers := [state s'];
                allowed_answer_modes := [full_name];
                type :=
                  if coin then "state_portrait_hard" else "state_text_hard";
                portrait_image := Some (portraitUrl s') |})
  end.

Definition tryTemplate (k : string) (d : Difficulty)
  (senators : list Senator) : M Generated :=
  if String.eqb k "portrait_only" then portraitOnly d senators
  else if String.eqb k "state_any" then stateAny senators
  else if String.eqb k "state_party_any" then statePartyAny senators
  else if String.eqb k "state_seniority" then stateSeniority d senators
  else if String.eqb k "state_party_seniority"
       then statePartySeniority senators
  else if String.eqb k "party_of_portrait" then partyOfPortrait senators
  else if String.eqb k "state_of_portrait" then stateOfPortrait senators
  else if String.eqb k "party_of_random" then partyOfRandom d senators
  else if String.eqb k "state_of_random" then stateOfRandom d senators
  else ret (errorObject unknown_template "Unknown template key."
              (Some [("key"%string, Some (str k))])).

Definition unsolvable : Generated :=
  errorObject unsolvable_template
    "No suitable template could be generated for the current dataset." None.

(** The loop of [generateQuestion] over the shuffled templates.  There is
    no [try]: a template that throws ends the loop, and the call, with its
    exception. *)
Fixpoint tryEach (allowed : list Template) (d : Difficulty)
  (senators : list Senator) : M Generated :=
  match allowed with
  | [] => ret unsolvable
  | t :: rest =>
      q <- tryTemplate (key t) d senators ;;
      if isError q then tryEach rest d senators else ret q
  end.

Definition generateQuestion (d : Difficulty) (senators : list Senator)
  : M Generated :=
  allowed <- shuffleInPlace (Templates d) ;;
  tryEach allowed d senators.

End Fillers.
End Generator.

(** ** VALIDATION *)

Record UserAnswer := {
  question_id : jsstring;
  user_input : jsstring;
  is_correct : bool;
  accepted_as : AnswerMode;
  feedback : jsstring
}.

Module Validator.
Section Validation.

Context {H : Host}.

(** The inner function [ok(kind, feedback)]. *)
Definition ok (question : Question) (userInput : jsstring)
  (kind : AnswerMode) (fb : jsstring) : UserAnswer :=
  {| question_id := id question;
     user_input := userInput;
     is_correct := true;
     accepted_as := kind;
     feedback := fb |}.

Definition hardFeedback (question : Question) : jsstring :=
  str "Hard mode requires the full official name. Correct answer: '"
  ++ nth 0 (correct_answers question) (str "undefined")
  ++ str "'.".

Definition ambiguousFeedback : jsstring :=
  str "Ambiguous last name. Try the full name or include more detail.".

Definition notQuiteFeedback : jsstring :=
  str "Not quite. Easy accepts last names and mild misspellings.".

(** The statements of [validateAnswer] in the order of the text.  The
    closing brace that follows the two misspelling loops has no opening
    brace of its own; it is read as closing nothing, so the test for an
    ambiguous last name and the last rejection come after both loops. *)
Definition validateAnswer (question : Question) (userInput : jsstring)
  : UserAnswer :=
  let mode := difficulty question in
  let inputNorm := normalizeName userInput in
  let correctNorms := map normalizeName (correct_answers question) in
  match mode with
  | Hard =>
      let exact := includes correctNorms inputNorm in
      {| question_id := id question;
         user_input := userInput;
         is_correct := exact;
         accepted_as := full_name;
         feedback := if exact then str "Correct." else hardFeedback question |}
  | Easy =>
      if includes correctNorms inputNorm then
        ok question userInput full_name (str "Correct.")
      else
        let last := lastNameOf inputNorm in
        let matchesByLast :=
          filter (fun a => streq (lastNameOf a) last)
            (correct_answers question) in
        if Nat.eqb (List.length matchesByLast) 1 && truthy last then
          ok question userInput last_name (str "Correct.")
        else if existsb (fun ans => withinMisspellingThreshold inputNorm ans)
                  (correct_answers question) then
          ok question userInput misspelling_correction (str "Correct.")
        else if existsb
                  (fun ans =>
                     withinMisspellingThreshold last (lastNameOf ans)
                     && truthy last)
                  (correct_answers question) then
          ok question userInput misspelling_correction (str "Correct.")
        else if 1 <? List.length matchesByLast then
          {| question_id := id question;
             user_input := userInput;
             is_correct := false;
             accepted_as := full_name;
             feedback := ambiguousFeedback |}
        else
          {| question_id := id question;
             user_input := userInput;
             is_correct := false;
             accepted_as := full_name;
             feedback := notQuiteFeedback |}
  end.

End Validation.
End Validator.

(** ** STATE *)

(** The numbers of JavaScript are the binary64 floating-point numbers:
    a mantissa of 53 bits, and infinities from 2^1024 on. *)
Definition prec : Z := 53.
Definition emax : Z := 1024.

(** An array length as a number: the integer itself, which the format
    holds exactly for every length an array can have. *)
Definition ofLength (n : nat) : spec_float :=
  match n with
  | O => S754_zero false
  | S _ => S754_finite false (Pos.of_nat n) 0
  end.

(** [a / b] for two array lengths, rounded to the nearest number. *)
Definition divide (a b : nat) : spec_float :=
  SFdiv prec emax (ofLength a) (ofLength b).

(** [x * 100], rounded to the nearest number. *)
Definition times100 (x : spec_float) : spec_float :=
  SFmul prec emax x (ofLength 100).

(** The rational that a finite number is. *)
Definition rational (s : bool) (m : positive) (e : Z) : Q :=
  let v := match e with
           | Zneg p => (Zpos m # Pos.pow 2 p)%Q
           | _ => inject_Z (Zpos m * 2 ^ e)
           end in
  if s then (- v)%Q else v.

(** What [Math.round] returns, as far as [toResults] needs it: a
    rational, which is an integer, or [NaN], or an infinity. *)
Inductive JsNumber :=
| Num (q : Q)
| NaN
| Infinity.

(** [Math.round(x)]: the nearest integer, a half going up. *)
Definition mathRound (x : spec_float) : JsNumber :=
  match x with
  | S754_zero _ => Num (inject_Z 0)
  | S754_finite s m e => Num (inject_Z (Qfloor (rational s m e + (1 # 2))%Q))
  | S754_infinity _ => Infinity
  | S754_nan => NaN
  end.


(** [n.toString()] for a natural number. *)
Definition decimal (n : nat) : jsstring :=
  str (NilZero.string_of_uint (Nat.to_uint n)).

(** [s.padStart(2, "0")]. *)
Definition padStart2 (s : jsstring) : jsstring :=
  repeat 48%N (2 - List.length s) ++ s.

Definition formatDuration (ms : Z) : jsstring :=
  let totalSecs := Z.to_nat (Z.max 0 (ms / 1000)) in
  let m := padStart2 (decimal (totalSecs / 60)) in
  let s := padStart2 (decimal (totalSecs mod 60)) in
  m ++ str ":" ++ s.

Module GameState.

(** The live game state object. *)
Record State := {
  difficulty : Difficulty;
  questions : list Question;
  current_index : nat;
  answers : list UserAnswer;
  score : nat;
  start_time : Z;
  end_time : option Z;
  completed : bool
}.

Record Results := {
  total_questions : nat;
  correct_answers : nat;
  incorrect_answers : Z;
  results_score : JsNumber;
  time_taken : jsstring;
  answers_detail : list UserAnswer
}.

Definition create (d : Difficulty) (qs : list Question) (now : Z) : State :=
  {| difficulty := d;
     questions := qs;
     current_index := 0;
     answers := [];
     score := 0;
     start_time := now;
     end_time := None;
     completed := false |}.

Definition currentQuestion (st : State) : option Question :=
  nth_error (questions st) (current_index st).

Definition recordAnswer (st : State) (userAnswer : UserAnswer) (now : Z)
  : State :=
  let answers' := answers st ++ [userAnswer] in
  let score' := if is_correct userAnswer then score st + 1 else score st in
  let index' := current_index st + 1 in
  if List.length (questions st) <=? index' then
    {| difficulty := difficulty st;
       questions := questions st;
       current_index := index';
       answers := answers';
       score := score';
       start_time := start_time st;
       end_time := Some now;
       completed := true |}
  else
    {| difficulty := difficulty st;
       questions := questions st;
       current_index := index';
       answers := answers';
       score := score';
       start_time := start_time st;
       end_time := end_time st;
       completed := completed st |}.

Definition toResults (st : State) (now : Z) : Results :=
  let total := List.length (questions st) in
  let correct := List.length (filter is_correct (answers st)) in
  let incorrect := (Z.of_nat total - Z.of_nat correct)%Z in
  let sc := mathRound (times100 (divide correct total)) in
  let timeTakenMs :=
    ((match end_time st with Some t => t | None => now end)
     - start_time st)%Z in
  {| total_questions := total;
     correct_answers := correct;
     incorrect_answers := incorrect;
     results_score := sc;
     time_taken := formatDuration timeTakenMs;
     answers_detail := answers st |}.

(** The state after a run of [recordAnswer] calls, each with the answer
    recorded and the clock read by the call. *)
Definition recordAll (st : State) (calls : list (UserAnswer * Z)) : State :=
  fold_left (fun s c => recordAnswer s (fst c) (snd c)) calls st.

(** The clock read by the last call of a run. *)
Definition lastClock (calls : list (UserAnswer * Z)) : option Z :=
  match rev calls with
  | [] => None
  | c :: _ => Some (snd c)
  end.

(** The states a session can be in. *)
Inductive reachable (d : Difficulty) (qs : list Question) (t0 : Z)
  : State -> Prop :=
| reach_create : reachable d qs t0 (create d qs t0)
| reach_record st ua now :
    reachable d qs t0 st -> reachable d qs t0 (recordAnswer st ua now).

End GameState.

(** ** What the generator may assume of its inputs *)

(** [rnd] keeps the contract of [Math.random]: every number it returns is
    in the interval from 0, included, to 1, excluded. *)
Definition unitInterval (w : World) : Prop :=
  forall k, (0 <= rnd_stream w k)%Q /\ (rnd_stream w k < 1)%Q.

(** The roster is as [loadSenators] leaves it: no senator without a
    state. *)
Definition wellFormed (senators : list Senator) : bool :=
  forallb (fun s => truthy (state s)) senators.

(** No state of the roster names a property that objects inherit, so
    that [groupByState] does not throw. *)
Definition plainStates (senators : list Senator) : bool :=
  forallb (fun s => negb (inherited (state s))) senators.

(** Two worlds in which [rnd] is the same stream at the same cursor. *)
Definition sameRnd (w1 w2 : World) : Prop :=
  rnd_stream w1 = rnd_stream w2 /\ rnd_pos w1 = rnd_pos w2.

(** ** The attempts of [stateSeniority], one by one *)

(** A senator of state [st] and seniority [se]. *)
Definition matchesPair (st se : jsstring) (s : Senator) : bool :=
  streq (state s) st && streq (seniority s) se.

(** The two draws of one attempt. *)
Definition drawStateSeniority (senators : list Senator)
  : M (option jsstring * option jsstring) :=
  st <- pickRandom (uniqueStates senators) ;;
  se <- pickRandom Generator.seniorities ;;
  ret (st, se).

(** The world after [k] attempts without a unique match. *)
Fixpoint afterAttempts (senators : list Senator) (k : nat) (w : World)
  : World :=
  match k with
  | O => w
  | S k' => afterAttempts senators k' (snd (drawStateSeniority senators w))
  end.

(** The state and seniority drawn by attempt number [k], from 0. *)
Definition attempt (senators : list Senator) (k : nat) (w : World)
  : option jsstring * option jsstring :=
  fst (drawStateSeniority senators (afterAttempts senators k w)).

(** The senators the filter of attempt [k] keeps. *)
Definition attemptMatches (senators : list Senator) (k : nat) (w : World)
  : list Senator :=
  getByStatePartySeniority senators (fst (attempt senators k w)) None
    (snd (attempt senators k w)).

(** ** The attempts of [generateQuestion], one by one *)

(** The world after trying the templates [ts], in order, from [w]. *)
Definition afterTrying {H : Host} (d : Difficulty) (senators : list Senator)
  (ts : list Template) (w : World) : World :=
  fold_left (fun w' t => snd (Generator.tryTemplate (key t) d senators w'))
    ts w.

(** Every template of [ts] returns an error when its turn comes. *)
Definition allFail {H : Host} (d : Difficulty) (senators : list Senator)
  (ts : list Template) (w : World) : Prop :=
  forall pre t post,
    ts = pre ++ t :: post ->
    isError (fst (Generator.tryTemplate (key t) d senators
                    (afterTrying d senators pre w))) = true.

(** ** What of a result does not come from [Math.random] *)

(** The question types whose wording depends on the coin flipped by
    [partyOfRandom] and [stateOfRandom]. *)
Definition coinDriven (t : string) : bool :=
  (String.eqb t "party_portrait_hard" || String.eqb t "party_text_hard"
   || String.eqb t "state_portrait_hard" || String.eqb t "state_text_hard")%bool.

(** A question without its [id] and, when its type is coin-driven,
    without its template, filled variables and type. *)
Definition forgetQuestion (q : Question) : Question :=
  {| id := [];
     template := if coinDriven (type q) then [] else template q;
     filled_variables :=
       if coinDriven (type q) then [] else filled_variables q;
     difficulty := difficulty q;
     correct_answers := correct_answers q;
     allowed_answer_modes := allowed_answer_modes q;
     type := if coinDriven (type q) then ""%string else type q;
     portrait_image := portrait_image q |}.

Definition forget (g : Generated) : Generated :=
  match g with
  | AQuestion q => AQuestion (forgetQuestion q)
  | AnError e => AnError e
  | ATypeError => ATypeError
  end.

(** The relation that holds of any two values. *)
Definition any {A} (x y : A) : Prop := True.

(** Two results that differ at most in what [forget] removes. *)
Definition sameButMathRandom (g1 g2 : Generated) : Prop :=
  forget g1 = forget g2.

(** Run from two worlds with the same [rnd], [m1] and [m2] return
    results related by [R] and leave worlds with the same [rnd]. *)
Definition alike {A} (R : A -> A -> Prop) (m1 m2 : M A) : Prop :=
  forall w1 w2,
    sameRnd w1 w2 ->
    R (fst (m1 w1)) (fst (m2 w2)) /\ sameRnd (snd (m1 w1)) (snd (m2 w2)).

(** ** The shape of a normalized name *)

(** No white space next to white space; [afterSpace] tells that white
    space comes just before [s]. *)
Fixpoint spaced (afterSpace : bool) (s : jsstring) : bool :=
  match s with
  | [] => true
  | c :: r =>
      if isSpace c then negb afterSpace && spaced true r else spaced false r
  end.

Definition startsClean (s : jsstring) : bool :=
  match s with
  | [] => true
  | c :: _ => negb (isSpace c)
  end.

Fixpoint endsClean (s : jsstring) : bool :=
  match s with
  | [] => true
  | c :: r =>
      match r with
      | [] => negb (isSpace c)
      | _ :: _ => endsClean r
      end
  end.

(** Letters, digits and single spaces, with no space at either end. *)
Definition normalized (s : jsstring) : bool :=
  forallb isPlain s && spaced false s && startsClean s && endsClean s.

(** ** Edit distance, as the specification words it

    An alignment of [a] with [b] keeps a code unit, substitutes one for
    another, deletes one from [a] or inserts one of [b]; every operation
    other than keeping costs 1, and there is no transposition. *)

Inductive edit : jsstring -> jsstring -> nat -> Prop :=
| edit_nil : edit [] [] 0
| edit_keep x a b k : edit a b k -> edit (x :: a) (x :: b) k
| edit_substitute x y a b k : edit a b k -> edit (x :: a) (y :: b) (S k)
| edit_delete x a b k : edit a b k -> edit (x :: a) b (S k)
| edit_insert y a b k : edit a b k -> edit a (y :: b) (S k).

(** [d] is the Levenshtein distance of [a] and [b]: the cost of a
    cheapest alignment. *)
Definition editDistance (a b : jsstring) (d : nat) : Prop :=
  edit a b d /\ forall k, edit a b k -> d <= k.

(** The same distance by the usual recursion on the two strings. *)
Fixpoint lev (a b : jsstring) : nat :=
  match a with
  | [] => List.length b
  | x :: a' =>
      (fix lev_a (b : jsstring) : nat :=
         match b with
         | [] => List.length a
         | y :: b' =>
             min3 (lev a' b + 1) (lev_a b' + 1)
               (lev a' b' + (if N.eqb x y then 0 else 1))
         end) b
  end.

(** The distance of two prefixes, read from their last code units
    backwards, as the table of [levenshtein] is filled. *)
Definition prefixDistance (x y : jsstring) : nat := lev (rev x) (rev y).

(** What row [length x] of the table for [b] is to hold. *)
Definition rowOf (x b : jsstring) : list nat :=
  map (fun j => prefixDistance x (firstn j b)) (seq 0 (S (List.length b))).

(** The misspelling threshold of the specification: 2 for a target of
    normalized length 7 or more, 1 otherwise. *)
Definition threshold (normalizedTarget : jsstring) : nat :=
  if 7 <=? List.length normalizedTarget then 2 else 1.

(** ** What the generator makes *)

(** The keys of the table of templates, Easy then Hard. *)
Definition templateKeys : list string :=
  map key (Templates Easy ++ Templates Hard).

(** The invariants of a question generated for difficulty [d]. *)
Definition wellMade (d : Difficulty) (q : Question) : Prop :=
  difficulty q = d
  /\ correct_answers q <> []
  /\ In full_name (allowed_answer_modes q)
  /\ ~ In misspelling_correction (allowed_answer_modes q)
  /\ (d = Hard -> allowed_answer_modes q = [full_name])
  /\ firstn 2 (id q) = str "q_".

(** ** HELPERS: loading the roster *)

(** An object of senators.json as [loadSenators] reads it: a field that
    is missing or [null] is [None], and a field that is there is a
    string. *)
Record RawSenator := {
  raw_name : option jsstring;
  raw_state : option jsstring;
  raw_party : option jsstring;
  raw_seniority : option jsstring;
  raw_portrait : option jsstring;
  raw_portrait_image : option jsstring
}.

(** The truthiness of a field: there, and not the empty string. *)
Definition present (v : option jsstring) : bool :=
  match v with
  | Some s => truthy s
  | None => false
  end.

(** [a || b] on two fields. *)
Definition orField (a b : option jsstring) : option jsstring :=
  if present a then a else b.

(** [v || ""], and [v] itself where the filter has found it truthy. *)
Definition orEmpty (v : option jsstring) : jsstring :=
  match v with
  | Some s => s
  | None => []
  end.

(** [oneOf(val, arr)]. *)
Definition oneOf (val : jsstring) (arr : list jsstring) : bool :=
  includes arr val.

(** The filter and the map of [loadSenators] on one entry of the array;
    [None] is an entry that is [null] or not an object. *)
Definition cleanedEntry (entry : option RawSenator) : list Senator :=
  match entry with
  | None => []
  | Some s =>
      if present (raw_name s) && present (raw_state s)
         && present (raw_party s) && present (raw_seniority s)
      then
        [ {| name := orEmpty (raw_name s);
             state := orEmpty (raw_state s);
             party :=
               if oneOf (orEmpty (raw_party s))
                    [str "Democrat"; str "Republican"; str "Independent"]
               then orEmpty (raw_party s)
               else str "Independent";
             seniority :=
               if oneOf (orEmpty (raw_seniority s))
                    [str "Senior"; str "Junior"]
               then orEmpty (raw_seniority s)
               else str "Junior";
             portrait :=
               orEmpty (orField (raw_portrait s) (raw_portrait_image s)) |} ]
      else []
  end.

(** [loadSenators] as a function of what the request gives: [None] when
    the request or the parsing fails, which the [catch] turns into the
    empty roster, and the array of senators.json otherwise. *)
Definition loadSenators (response : option (list (option RawSenator)))
  : list Senator :=
  match response with
  | None => []
  | Some data => flat_map cleanedEntry data
  end.

(** ** HELPERS: escaping *)

(** [s.replace(/c/g, r)] for a pattern of one code unit [c] and a
    replacement [r] without [$]. *)
Definition replaceAll (c : N) (r : jsstring) (s : jsstring) : jsstring :=
  flat_map (fun x => if N.eqb x c then r else [x]) s.

Definition ampersand : N := 38%N.
Definition lessThan : N := 60%N.
Definition greaterThan : N := 62%N.

(** [escapeHtml] on a string. *)
Definition escapeHtml (s : jsstring) : jsstring :=
  replaceAll greaterThan (str "&gt;")
    (replaceAll lessThan (str "&lt;")
       (replaceAll ampersand (str "&amp;") s)).

(** What [escapeHtml] is to write for one code unit, to compare with the
    three replacements. *)
Definition escapeChar (c : N) : jsstring :=
  if N.eqb c ampersand then str "&amp;"
  else if N.eqb c lessThan then str "&lt;"
  else if N.eqb c greaterThan then str "&gt;"
  else [c].

(** ** Sample data *)

Definition sampleQuestion (d : Difficulty) (answers : list jsstring)
  : Question :=
  {| id := str "q_sample";
     template := str "Name a senator from {state}.";
     filled_variables := [("state"%string, Some (str "Ohio"))];
     difficulty := d;
     correct_answers := answers;
     allowed_answer_modes := Generator.modesFor d;
     type := "text";
     portrait_image := None |}.

Definition sampleAnswer (correct : bool) : UserAnswer :=
  {| question_id := str "q_sample";
     user_input := str "smith";
     is_correct := correct;
     accepted_as := full_name;
     feedback := str "Correct." |}.

Definition sampleQuestions : list Question :=
  [sampleQuestion Easy [str "John Smith"];
   sampleQuestion Easy [str "Jane Doe"]].

Definition sampleCalls : list (UserAnswer * Z) :=
  [(sampleAnswer true, 1000%Z); (sampleAnswer true, 2000%Z)].

(** A question with another list of allowed answer modes. *)
Definition withModes (q : Question) (modes : list AnswerMode) : Question :=
  {| id := id q;
     template := template q;
     filled_variables := filled_variables q;
     difficulty := difficulty q;
     correct_answers := correct_answers q;
     allowed_answer_modes := modes;
     type := type q;
     portrait_image := portrait_image q |}.

Definition senator (n s p se po : string) : Senator :=
  {| name := str n; state := str s; party := str p; seniority := str se;
     portrait := str po |}.

Definition sampleRoster : list Senator :=
  [senator "Bernie Sanders" "Vermont" "Independent" "Senior" "sanders.jpg";
   senator "Peter Welch" "Vermont" "Democrat" "Junior" "welch.jpg";
   senator "Sherrod Brown" "Ohio" "Democrat" "Senior" "http://example.org/b.png"].

(** A world whose [rnd] always returns 0 and whose [Math.random] always
    returns [x]. *)
Definition constantWorld (x : Q) : World :=
  {| rnd_stream := fun _ => 0%Q; rnd_pos := 0;
     math_stream := fun _ => x; math_pos := 0 |}.

(** The question [partyOfPortrait] makes of the first senator of the
    sample roster. *)
Definition partyQuestion : Question :=
  {| id := str "q_i";
     template := str "Which party does {name} belong to?";
     filled_variables := [("name"%string, Some (str "Bernie Sanders"))];
     difficulty := Easy;
     correct_answers := [str "Independent"];
     allowed_answer_modes := [full_name];
     type := "party_portrait";
     portrait_image := Some (str "assets/sanders.jpg") |}.



(** A world whose [rnd] always returns [r] and whose [Math.random] always
    returns a half. *)
Definition steadyWorld (r : Q) : World :=
  {| rnd_stream := fun _ => r; rnd_pos := 0;
     math_stream := fun _ => (1 # 2)%Q; math_pos := 0 |}.

(** A roster with a state that names an inherited property. *)
Definition oddRoster : list Senator :=
  [senator "Ann Lee" "constructor" "Democrat" "Senior" ""].

Definition rawSenator (n s p se : string) : RawSenator :=
  {| raw_name := Some (str n); raw_state := Some (str s);
     raw_party := Some (str p); raw_seniority := Some (str se);
     raw_portrait := None; raw_portrait_image := None |}.

(** * Properties *)

(** ** Strings *)

Lemma streq_spec (a b : jsstring) : streq a b = true <-> a = b.
Proof.
  revert b; induction a as [|x a IH]; intros [|y b]; simpl;
    try (split; [discriminate | discriminate]); [tauto|].
  rewrite andb_true_iff, N.eqb_eq, IH.
  split; [intros [-> ->]; reflexivity | intros E; inversion E; auto].
Qed.

Lemma streq_refl (a : jsstring) : streq a a = true.
Proof. apply streq_spec; reflexivity. Qed.

Lemma includes_spec (arr : list jsstring) (x : jsstring) :
  includes arr x = true <-> In x arr.
Proof.
  unfold includes. rewrite existsb_exists. split.
  - intros (y & Hy & E). apply streq_spec in E. subst; assumption.
  - intros Hx. exists x. split; [assumption | apply streq_refl].
Qed.

(** ** The session *)

(** ** Numbers *)

Module Binary64.
#[local] Open Scope Z_scope.

Lemma digits2_pos_bounds (p : positive) :
  2 ^ (Zpos (digits2_pos p) - 1) <= Zpos p < 2 ^ Zpos (digits2_pos p).
Proof.
  induction p as [p IH|p IH|]; cbn [digits2_pos].
  - rewrite Pos2Z.inj_succ.
    replace (Z.succ (Zpos (digits2_pos p)) - 1)
      with (Z.succ (Zpos (digits2_pos p) - 1)) by lia.
    rewrite !Z.pow_succ_r by lia. lia.
  - rewrite Pos2Z.inj_succ.
    replace (Z.succ (Zpos (digits2_pos p)) - 1)
      with (Z.succ (Zpos (digits2_pos p) - 1)) by lia.
    rewrite !Z.pow_succ_r by lia. lia.
  - simpl. lia.
Qed.

Lemma Zdigits2_le (m k : Z) : 0 <= m < 2 ^ k -> 0 <= k -> Zdigits2 m <= k.
Proof.
  intros [Hm Hlt] Hk. destruct m as [|p|p]; simpl; [lia| |lia].
  destruct (Z.le_gt_cases (Zpos (digits2_pos p)) k) as [L|L]; [exact L|].
  exfalso. pose proof (digits2_pos_bounds p) as [B _].
  assert (2 ^ k <= 2 ^ (Zpos (digits2_pos p) - 1))
    by (apply Z.pow_le_mono_r; lia).
  lia.
Qed.

Lemma shr_1_m (mrs : shr_record) :
  0 <= shr_m mrs -> shr_m (shr_1 mrs) = shr_m mrs / 2.
Proof.
  destruct mrs as [m r s]. cbn [shr_m]. intros Hm.
  destruct m as [|[p|p|]|p]; cbn [shr_1 shr_m]; try lia; try reflexivity.
  - rewrite (Pos2Z.inj_xI p). apply Z.div_unique with (r := 1); lia.
  - rewrite (Pos2Z.inj_xO p). apply Z.div_unique with (r := 0); lia.
Qed.

Lemma div_nonneg (a b : Z) : 0 <= a -> 0 < b -> 0 <= a / b.
Proof. intros. apply Z.div_pos; lia. Qed.

Lemma iter_pos_shr_m (n : positive) (mrs : shr_record) :
  0 <= shr_m mrs ->
  shr_m (iter_pos shr_1 n mrs) = shr_m mrs / 2 ^ Zpos n.
Proof.
  revert mrs; induction n as [n IH|n IH|]; intros mrs Hm; cbn [iter_pos].
  - assert (H1 : 0 <= shr_m (shr_1 mrs))
      by (rewrite shr_1_m by exact Hm; apply div_nonneg; lia).
    assert (H2 : 0 <= shr_m (iter_pos shr_1 n (shr_1 mrs)))
      by (rewrite IH by exact H1; apply div_nonneg; lia).
    rewrite IH, IH, shr_1_m by assumption.
    rewrite !Z.div_div by lia. f_equal.
    rewrite (Pos2Z.inj_xI n), Z.pow_add_r, Z.pow_1_r by lia.
    replace (2 * Zpos n) with (Zpos n + Zpos n) by lia.
    rewrite Z.pow_add_r by lia. lia.
  - assert (H2 : 0 <= shr_m (iter_pos shr_1 n mrs))
      by (rewrite IH by exact Hm; apply div_nonneg; lia).
    rewrite IH, IH by assumption.
    rewrite !Z.div_div by lia. f_equal.
    rewrite (Pos2Z.inj_xO n).
    replace (2 * Zpos n) with (Zpos n + Zpos n) by lia.
    rewrite Z.pow_add_r by lia. lia.
  - rewrite shr_1_m by exact Hm. reflexivity.
Qed.

Lemma shr_1_exact (k : Z) :
  0 <= k ->
  shr_1 (Build_shr_record (2 * k) false false) = Build_shr_record k false false.
Proof. intros Hk. destruct k as [|p|p]; [reflexivity | reflexivity | lia]. Qed.

Lemma iter_pos_shr_exact (n : positive) (k : Z) :
  0 <= k ->
  iter_pos shr_1 n (Build_shr_record (k * 2 ^ Zpos n) false false)
  = Build_shr_record k false false.
Proof.
  revert k; induction n as [n IH|n IH|]; intros k Hk; cbn [iter_pos].
  - replace (k * 2 ^ Zpos n~1) with (2 * ((k * 2 ^ Zpos n) * 2 ^ Zpos n)).
    + rewrite shr_1_exact by nia. rewrite IH by nia. apply IH, Hk.
    + rewrite (Pos2Z.inj_xI n), Z.pow_add_r, Z.pow_1_r by lia.
      replace (2 * Zpos n) with (Zpos n + Zpos n) by lia.
      rewrite Z.pow_add_r by lia. lia.
  - replace (k * 2 ^ Zpos n~0) with ((k * 2 ^ Zpos n) * 2 ^ Zpos n).
    + rewrite IH by nia. apply IH, Hk.
    + rewrite (Pos2Z.inj_xO n).
      replace (2 * Zpos n) with (Zpos n + Zpos n) by lia.
      rewrite Z.pow_add_r by lia. lia.
  - rewrite Z.pow_1_r, Z.mul_comm. apply shr_1_exact, Hk.
Qed.

Lemma round_nearest_even_bounds (mrs : shr_record) :
  let m1 := round_nearest_even (shr_m mrs) (loc_of_shr_record mrs) in
  shr_m mrs <= m1 <= shr_m mrs + 1.
Proof.
  destruct mrs as [m [|] [|]]; cbn [shr_m loc_of_shr_record round_nearest_even];
    try destruct (Z.even m); lia.
Qed.

Lemma loc_of_shr_record_of_loc (m : Z) (l : location) :
  loc_of_shr_record (shr_record_of_loc m l) = l
  /\ shr_m (shr_record_of_loc m l) = m.
Proof. destruct l as [|[| |]]; split; reflexivity. Qed.

(** What the shift of [shr_fexp] does to a mantissa that is not
    negative. *)
Lemma shr_fexp_spec (mx ex : Z) (lx : location) :
  0 <= mx ->
  exists n,
    0 <= n
    /\ snd (shr_fexp prec emax mx ex lx) = ex + n
    /\ (0 < n -> ex + n = fexp prec emax (Zdigits2 mx + ex))
    /\ (n = 0 -> ex <> fexp prec emax (Zdigits2 mx + ex) ->
        fexp prec emax (Zdigits2 mx + ex) < ex)
    /\ shr_m (fst (shr_fexp prec emax mx ex lx)) = mx / 2 ^ n
    /\ (n = 0 -> fst (shr_fexp prec emax mx ex lx) = shr_record_of_loc mx lx)
    /\ (lx = loc_Exact -> forall k, 0 <= k -> mx = k * 2 ^ n ->
        fst (shr_fexp prec emax mx ex lx) = Build_shr_record k false false).
Proof.
  intros Hm. unfold shr_fexp, shr.
  destruct (fexp prec emax (Zdigits2 mx + ex) - ex) as [|n|n] eqn:En.
  - exists 0. cbn [fst snd]. rewrite Z.pow_0_r, Z.div_1_r.
    destruct (loc_of_shr_record_of_loc mx lx) as [_ E].
    repeat split; try lia; try assumption.
    intros -> k Hk ->. rewrite Z.mul_1_r. reflexivity.
  - exists (Zpos n). cbn [fst snd].
    split; [lia|]. split; [reflexivity|]. split; [lia|]. split; [lia|].
    split; [|split; [lia|]].
    + rewrite iter_pos_shr_m;
        destruct (loc_of_shr_record_of_loc mx lx) as [_ E]; rewrite E;
        [reflexivity | exact Hm].
    + intros -> k Hk ->. cbn [shr_record_of_loc].
      apply iter_pos_shr_exact, Hk.
  - exists 0. cbn [fst snd]. rewrite Z.pow_0_r, Z.div_1_r.
    destruct (loc_of_shr_record_of_loc mx lx) as [_ E].
    repeat split; try lia; try assumption.
    intros -> k Hk ->. rewrite Z.mul_1_r. reflexivity.
Qed.

Lemma fexp_le_0 (x : Z) : x <= 53 -> fexp prec emax x <= 0.
Proof. unfold fexp, emin, prec, emax. lia. Qed.

(** Rounding a number that is at most the integer [N] gives a number
    that is at most [N]. *)
Lemma binary_round_aux_le (N mx ex : Z) (lx : location) :
  1 <= N <= 1024 -> 0 <= mx -> ex <= 0 ->
  mx < N * 2 ^ (- ex) \/ (mx = N * 2 ^ (- ex) /\ lx = loc_Exact) ->
  binary_round_aux prec emax false mx ex lx = S754_zero false
  \/ exists m e,
       binary_round_aux prec emax false mx ex lx = S754_finite false m e
       /\ e <= 0 /\ Zpos m <= N * 2 ^ (- e).
Proof.
  intros HN Hm Hex Hle. unfold binary_round_aux.
  destruct (shr_fexp_spec ex lx Hm)
    as (n & Hn & He1 & Hf1 & _ & Hm1 & Hz1 & Hx1).
  destruct (shr_fexp prec emax mx ex lx) as [mrs' e'] eqn:E1.
  cbn [fst snd] in *.
  assert (Hp1 : 0 < 2 ^ n) by (apply Z.pow_pos_nonneg; lia).
  assert (Hlt : mx < 2 ^ (11 - ex)).
  { assert (N * 2 ^ (- ex) < 2 ^ 11 * 2 ^ (- ex)).
    { apply Z.mul_lt_mono_pos_r; [apply Z.pow_pos_nonneg; lia|].
      change (2 ^ 11) with 2048. lia. }
    rewrite <- Z.pow_add_r in H by lia.
    replace (11 + - ex) with (11 - ex) in H by lia. lia. }
  assert (He' : e' <= 0).
  { destruct (Z.eq_dec n 0) as [->|Hn0]; [lia|].
    rewrite He1, Hf1 by lia. apply fexp_le_0.
    pose proof (@Zdigits2_le mx (11 - ex)). lia. }
  assert (Hpow : 2 ^ (- ex) = 2 ^ (- e') * 2 ^ n).
  { rewrite <- Z.pow_add_r by lia. f_equal. lia. }
  assert (Hp2 : 0 < 2 ^ (- e')) by (apply Z.pow_pos_nonneg; lia).
  set (m1 := round_nearest_even (shr_m mrs') (loc_of_shr_record mrs')).
  assert (Hm1' : 0 <= m1 <= N * 2 ^ (- e')).
  { pose proof (round_nearest_even_bounds mrs') as B. cbv zeta in B.
    fold m1 in B. rewrite Hm1 in B.
    assert (0 <= mx / 2 ^ n) by (apply div_nonneg; lia).
    split; [lia|].
    destruct Hle as [Hlt'|[Heq ->]].
    - assert (mx / 2 ^ n < N * 2 ^ (- e')); [|lia].
      apply Z.div_lt_upper_bound; [lia|]. rewrite Hpow in Hlt'. lia.
    - assert (Er : mrs' = Build_shr_record (N * 2 ^ (- e')) false false).
      { apply (Hx1 eq_refl); [nia | rewrite Heq, Hpow; lia]. }
      subst m1. rewrite Er. cbn [shr_m loc_of_shr_record round_nearest_even].
      lia. }
  clearbody m1.
  destruct Hm1' as [Hm1a Hm1b].
  destruct (shr_fexp_spec e' loc_Exact Hm1a)
    as (n2 & Hn2 & He2 & Hf2 & _ & Hm2 & _).
  destruct (shr_fexp prec emax m1 e' loc_Exact) as [mrs'' e''] eqn:E2.
  cbn [fst snd] in *.
  assert (Hlt1 : m1 < 2 ^ (11 - e')).
  { assert (N * 2 ^ (- e') < 2 ^ 11 * 2 ^ (- e')).
    { apply Z.mul_lt_mono_pos_r; [lia|]. change (2 ^ 11) with 2048. lia. }
    rewrite <- Z.pow_add_r in H by lia.
    replace (11 + - e') with (11 - e') in H by lia. lia. }
  assert (He'' : e'' <= 0).
  { destruct (Z.eq_dec n2 0) as [->|Hn0]; [lia|].
    rewrite He2, Hf2 by lia. apply fexp_le_0.
    pose proof (@Zdigits2_le m1 (11 - e')). lia. }
  assert (Hpow2 : 2 ^ (- e') = 2 ^ (- e'') * 2 ^ n2).
  { rewrite <- Z.pow_add_r by lia. f_equal. lia. }
  assert (Hp3 : 0 < 2 ^ n2) by (apply Z.pow_pos_nonneg; lia).
  assert (Hp4 : 0 < 2 ^ (- e'')) by (apply Z.pow_pos_nonneg; lia).
  assert (Hfin : 0 <= shr_m mrs'' <= N * 2 ^ (- e'')).
  { rewrite Hm2. split; [apply div_nonneg; lia|].
    apply Z.div_le_upper_bound; [lia|]. rewrite Hpow2 in Hm1b. lia. }
  destruct (shr_m mrs'') as [|m|m]; [left; reflexivity| |lia].
  right. exists m, e''.
  replace (e'' <=? emax - prec) with true
    by (symmetry; apply Z.leb_le; unfold emax, prec; lia).
  split; [reflexivity|]. split; [exact He''|]. lia.
Qed.

Lemma div_eucl_div_mod (a b : Z) : Z.div_eucl a b = (a / b, a mod b).
Proof. unfold Z.div, Z.modulo. destruct (Z.div_eucl a b). reflexivity. Qed.

Lemma new_location_0 (nb : Z) : new_location nb 0 = loc_Exact.
Proof. unfold new_location. destruct (Z.even nb); reflexivity. Qed.

Lemma ofLength_S (n : nat) :
  ofLength (S n) = S754_finite false (Pos.of_nat (S n)) 0
  /\ Zpos (Pos.of_nat (S n)) = Z.of_nat (S n).
Proof. split; [reflexivity | lia]. Qed.

(** The quotient of two lengths, the first not above the second, is at
    most 1. *)
Lemma divide_le (c t : nat) :
  (1 <= c <= t)%nat ->
  divide c t = S754_zero false
  \/ exists m e, divide c t = S754_finite false m e
                 /\ e <= 0 /\ Zpos m <= 1 * 2 ^ (- e).
Proof.
  intros [Hc Ht]. destruct c as [|c]; [lia|]. destruct t as [|t]; [lia|].
  unfold divide. destruct (ofLength_S c) as [-> Ec].
  destruct (ofLength_S t) as [-> Et].
  set (mc := Pos.of_nat (S c)) in *. set (mt := Pos.of_nat (S t)) in *.
  assert (Hle : Zpos mc <= Zpos mt) by lia. clearbody mc mt.
  cbn [SFdiv xorb]. unfold SFdiv_core_binary.
  set (e' := Z.min (fexp prec emax
                      (Zdigits2 (Zpos mc) + 0 - (Zdigits2 (Zpos mt) + 0)))
               (0 - 0)).
  assert (He' : e' <= 0) by (unfold e'; lia).
  replace (0 - 0 - e') with (- e') by lia.
  set (m' := match - e' with
             | 0 => Zpos mc
             | Zpos _ => Z.shiftl (Zpos mc) (- e')
             | Zneg _ => 0
             end).
  assert (Hm' : m' = Zpos mc * 2 ^ (- e')).
  { unfold m'. destruct (- e') as [|p|p] eqn:E; [lia| |lia].
    apply Z.shiftl_mul_pow2. lia. }
  clearbody m' e'.
  rewrite div_eucl_div_mod.
  assert (Hp : 0 < 2 ^ (- e')) by (apply Z.pow_pos_nonneg; lia).
  apply binary_round_aux_le; [lia| apply div_nonneg; nia | exact He' |].
  destruct (Z.eq_dec (Zpos mc) (Zpos mt)) as [E|E].
  - right. rewrite Hm', E, Z.mul_comm.
    rewrite Z.div_mul, Z.mod_mul by lia.
    split; [lia | apply new_location_0].
  - left. apply Z.div_lt_upper_bound; [lia|]. rewrite Hm'. nia.
Qed.


Lemma divide_zero (t : nat) : (1 <= t)%nat -> divide 0 t = S754_zero false.
Proof. destruct t; [lia | reflexivity]. Qed.

(** A number that is at most 1, times 100, is at most 100. *)
Lemma times100_le (x : spec_float) :
  (x = S754_zero false
   \/ exists m e, x = S754_finite false m e /\ e <= 0
                  /\ Zpos m <= 1 * 2 ^ (- e)) ->
  times100 x = S754_zero false
  \/ exists m e, times100 x = S754_finite false m e
                 /\ e <= 0 /\ Zpos m <= 100 * 2 ^ (- e).
Proof.
  intros [->|(m & e & -> & He & Hm)]; [left; reflexivity|].
  unfold times100. change (ofLength 100) with (S754_finite false 100 0).
  cbn [SFmul xorb]. rewrite Z.add_0_r.
  apply binary_round_aux_le; [lia | lia | exact He |].
  rewrite Pos2Z.inj_mul.
  destruct (Z.eq_dec (Zpos m) (2 ^ (- e))) as [E|E];
    [right; split; [lia | reflexivity] | left; lia].
Qed.

Lemma rational_le (m : positive) (e N : Z) :
  e <= 0 -> Zpos m <= N * 2 ^ (- e) ->
  (0 <= rational false m e)%Q /\ (rational false m e <= inject_Z N)%Q.
Proof.
  intros He Hm. unfold rational.
  destruct e as [|p|p]; [|lia|].
  - simpl in Hm. rewrite Z.pow_0_r, Z.mul_1_r in *.
    split; [|rewrite <- Zle_Qle; exact Hm].
    change 0%Q with (inject_Z 0). rewrite <- Zle_Qle. lia.
  - split; [unfold Qle; simpl; lia|].
    unfold Qle. cbn [Qnum Qden inject_Z]. rewrite Pos2Z.inj_pow.
    change (- Zneg p) with (Zpos p) in Hm. lia.
Qed.

(** The percentage of a number that is at most 100 is a whole number
    from 0 to 100. *)
Lemma mathRound_le (x : spec_float) :
  (x = S754_zero false
   \/ exists m e, x = S754_finite false m e /\ e <= 0
                  /\ Zpos m <= 100 * 2 ^ (- e)) ->
  exists n, mathRound x = Num (inject_Z n) /\ 0 <= n <= 100.
Proof.
  intros [->|(m & e & -> & He & Hm)]; [exists 0; split; [reflexivity | lia]|].
  cbn [mathRound]. eexists. split; [reflexivity|].
  destruct (rational_le _ He Hm) as [H0 H1].
  split.
  - change 0 with (Qfloor 0). apply Qfloor_resp_le.
    apply Qle_trans with (1 := H0).
    rewrite <- (Qplus_0_r (rational false m e)) at 1.
    apply Qplus_le_r. discriminate.
  - change 100 with (Qfloor (inject_Z 100 + (1 # 2))).
    apply Qfloor_resp_le. apply Qplus_le_l. exact H1.
Qed.

End Binary64.

Module GameStateFacts.
Import GameState.

Lemma recordAll_snoc st calls c :
  recordAll st (calls ++ [c]) = recordAnswer (recordAll st calls) (fst c) (snd c).
Proof. unfold recordAll. rewrite fold_left_app. reflexivity. Qed.

Lemma recordAnswer_answers st ua now :
  answers (recordAnswer st ua now) = answers st ++ [ua].
Proof.
  unfold recordAnswer.
  destruct (List.length (questions st) <=? current_index st + 1); reflexivity.
Qed.

Lemma recordAnswer_score st ua now :
  score (recordAnswer st ua now)
  = if is_correct ua then score st + 1 else score st.
Proof.
  unfold recordAnswer.
  destruct (List.length (questions st) <=? current_index st + 1); reflexivity.
Qed.

Lemma recordAnswer_questions st ua now :
  questions (recordAnswer st ua now) = questions st.
Proof.
  unfold recordAnswer.
  destruct (List.length (questions st) <=? current_index st + 1); reflexivity.
Qed.

Lemma recordAnswer_index st ua now :
  current_index (recordAnswer st ua now) = current_index st + 1.
Proof.
  unfold recordAnswer.
  destruct (List.length (questions st) <=? current_index st + 1); reflexivity.
Qed.

Lemma recordAll_shape d qs t0 calls :
  let st := recordAll (create d qs t0) calls in
  questions st = qs /\ current_index st = List.length calls
  /\ answers st = map fst calls.
Proof.
  induction calls as [|c calls IH] using rev_ind; simpl.
  - auto.
  - rewrite recordAll_snoc, recordAnswer_questions, recordAnswer_index,
      recordAnswer_answers.
    simpl in IH. destruct IH as (-> & -> & ->).
    rewrite length_app, map_app. auto.
Qed.

Lemma recordAll_running d qs t0 calls :
  List.length calls < List.length qs ->
  let st := recordAll (create d qs t0) calls in
  completed st = false /\ end_time st = None.
Proof.
  induction calls as [|c calls IH] using rev_ind; simpl; intros Hlen.
  - auto.
  - rewrite length_app in Hlen; simpl in Hlen.
    rewrite recordAll_snoc.
    destruct (recordAll_shape d qs t0 calls) as (Hq & Hi & _).
    simpl in IH. destruct IH as (Hc & He); [lia|].
    unfold recordAnswer. rewrite Hq, Hi.
    destruct (Nat.leb_spec (List.length qs) (List.length calls + 1));
      [lia | simpl; auto].
Qed.

Lemma recordAll_finished d qs t0 calls c :
  List.length (calls ++ [c]) = List.length qs ->
  let st := recordAll (create d qs t0) (calls ++ [c]) in
  completed st = true /\ end_time st = Some (snd c).
Proof.
  simpl; intros Hlen. rewrite length_app in Hlen; simpl in Hlen.
  rewrite recordAll_snoc.
  destruct (recordAll_shape d qs t0 calls) as (Hq & Hi & _).
  unfold recordAnswer. rewrite Hq, Hi.
  destruct (Nat.leb_spec (List.length qs) (List.length calls + 1));
    [simpl; auto | lia].
Qed.

(** C8.  In a session of N questions, after any run of at most N calls of
    [recordAnswer] the cursor is the number of calls; [completed] is true
    exactly when the run is not empty and has N calls, that is, once the
    Nth answer is recorded; [end_time] is then the clock read by the Nth
    call, and it is [null], with [completed] false, after every shorter
    run of calls. *)
Theorem completed_exactly_at_the_last_answer d qs t0
  (calls : list (UserAnswer * Z)) :
  List.length calls <= List.length qs ->
  let st := recordAll (create d qs t0) calls in
  current_index st = List.length calls
  /\ (completed st = true <->
      calls <> [] /\ List.length calls = List.length qs)
  /\ end_time st = (if completed st then lastClock calls else None)
  /\ (forall k, k < List.length calls ->
        let before := recordAll (create d qs t0) (firstn k calls) in
        completed before = false /\ end_time before = None).
Proof.
  simpl; intros Hlen.
  destruct (recordAll_shape d qs t0 calls) as (_ & Hi & _).
  split; [exact Hi|].
  assert (Hbefore : forall k, k < List.length calls ->
            completed (recordAll (create d qs t0) (firstn k calls)) = false
            /\ end_time (recordAll (create d qs t0) (firstn k calls)) = None).
  { intros k Hk. apply recordAll_running.
    rewrite length_firstn. lia. }
  split; [|split; [|exact Hbefore]].
  - destruct calls as [|c0 calls0] using rev_ind.
    + simpl. split; [discriminate | intros [E _]; congruence].
    + clear IHcalls0.
      destruct (Nat.eq_dec (List.length (calls0 ++ [c0])) (List.length qs))
        as [E|E].
      * destruct (recordAll_finished d qs t0 calls0 c0 E) as (Hc & _).
        rewrite Hc. split; [|reflexivity].
        intros _. split; [|exact E]. intros F.
        destruct calls0; discriminate.
      * destruct (recordAll_running d qs t0 (calls0 ++ [c0])) as (Hc & _);
          [lia|].
        rewrite Hc. split; [discriminate | intros [_ F]; contradiction].
  - destruct calls as [|c0 calls0] using rev_ind.
    + reflexivity.
    + clear IHcalls0.
      destruct (Nat.eq_dec (List.length (calls0 ++ [c0])) (List.length qs))
        as [E|E].
      * destruct (recordAll_finished d qs t0 calls0 c0 E) as (Hc & He).
        rewrite Hc, He. unfold lastClock. rewrite rev_unit. reflexivity.
      * destruct (recordAll_running d qs t0 (calls0 ++ [c0])) as (Hc & He);
          [lia|].
        rewrite Hc, He. reflexivity.
Qed.

Lemma completed_exactly_at_the_last_answer_witness :
  List.length sampleCalls <= List.length sampleQuestions
  /\ (let st := recordAll (create Easy sampleQuestions 0) sampleCalls in
      current_index st = 2
      /\ completed st = true
      /\ end_time st = Some 2000%Z
      /\ end_time (recordAll (create Easy sampleQuestions 0)
                     (firstn 1 sampleCalls)) = None).
Proof.
  assert (Hlen : List.length sampleCalls <= List.length sampleQuestions)
    by (simpl; lia).
  split; [exact Hlen|].
  destruct (completed_exactly_at_the_last_answer Easy sampleQuestions 0
              sampleCalls Hlen) as (Hi & Hc & He & Hb).
  cbv zeta. split; [exact Hi|].
  assert (Hdone : completed (recordAll (create Easy sampleQuestions 0)
                               sampleCalls) = true).
  { apply Hc. split; [discriminate | reflexivity]. }
  split; [exact Hdone|]. split.
  - rewrite He, Hdone. reflexivity.
  - apply (Hb 1). simpl; lia.
Defined.

Lemma filter_all {A} (p : A -> bool) (l : list A) :
  forallb p l = true -> filter p l = l.
Proof.
  induction l as [|x l IH]; simpl; [reflexivity|].
  intros E. apply andb_true_iff in E as [-> E]. rewrite (IH E). reflexivity.
Qed.







(** C10.  In every state reached from [create] by calls of
    [recordAnswer], [score] is the number of recorded answers that are
    correct; a further call appends its answer to [answers] and leaves the
    answers already there as they are; and the correct count of
    [toResults] is [score]. *)
Theorem score_counts_the_correct_answers d qs t0 (st : State) :
  reachable d qs t0 st ->
  score st = List.length (filter is_correct (answers st))
  /\ (forall ua now, answers (recordAnswer st ua now) = answers st ++ [ua])
  /\ (forall now, correct_answers (toResults st now) = score st).
Proof.
  intros Hr.
  assert (Hs : score st = List.length (filter is_correct (answers st))).
  { induction Hr as [|st ua now Hr IH]; [reflexivity|].
    rewrite recordAnswer_score, recordAnswer_answers, filter_app, length_app.
    simpl. destruct (is_correct ua); simpl; lia. }
  split; [exact Hs|]. split.
  - intros ua now. apply recordAnswer_answers.
  - intros now. simpl. symmetry. exact Hs.
Qed.

Lemma score_counts_the_correct_answers_witness :
  reachable Easy sampleQuestions 0
    (recordAnswer (create Easy sampleQuestions 0) (sampleAnswer true) 1000)
  /\ score (recordAnswer (create Easy sampleQuestions 0)
              (sampleAnswer true) 1000) = 1.
Proof.
  assert (Hr : reachable Easy sampleQuestions 0
                 (recordAnswer (create Easy sampleQuestions 0)
                    (sampleAnswer true) 1000))
    by (apply reach_record, reach_create).
  split; [exact Hr|].
  exact (proj1 (score_counts_the_correct_answers Hr)).
Defined.

End GameStateFacts.

(** ** Edit distance *)

Module Distance.

Lemma lev_nil_r (a : jsstring) : lev a [] = List.length a.
Proof. destruct a; reflexivity. Qed.

Lemma lev_cons (x y : N) (a b : jsstring) :
  lev (x :: a) (y :: b)
  = min3 (lev a (y :: b) + 1) (lev (x :: a) b + 1)
      (lev a b + (if N.eqb x y then 0 else 1)).
Proof. reflexivity. Qed.

Lemma edit_inserts (b : jsstring) : edit [] b (List.length b).
Proof. induction b; simpl; constructor; assumption. Qed.

Lemma edit_deletes (a : jsstring) : edit a [] (List.length a).
Proof. induction a; simpl; constructor; assumption. Qed.

Lemma edit_refl (a : jsstring) : edit a a 0.
Proof. induction a; constructor; assumption. Qed.

Lemma lev_is_an_alignment (a b : jsstring) : edit a b (lev a b).
Proof.
  revert b; induction a as [|x a IHa]; intros b.
  - apply edit_inserts.
  - induction b as [|y b IHb].
    + rewrite lev_nil_r. apply edit_deletes.
    + rewrite lev_cons. unfold min3.
      destruct (Nat.min_spec (lev a (y :: b) + 1) (lev (x :: a) b + 1))
        as [[_ ->]|[_ ->]];
      match goal with
      | |- edit _ _ (Nat.min ?u ?v) =>
          destruct (Nat.min_spec u v) as [[_ ->]|[_ ->]]
      end;
      try (rewrite Nat.add_1_r; (apply edit_delete, IHa) || (apply edit_insert, IHb));
      (destruct (N.eqb_spec x y) as [->|_];
       [rewrite Nat.add_0_r; apply edit_keep, IHa
       | rewrite Nat.add_1_r; apply edit_substitute, IHa]).
Qed.

Lemma lev_delete_le (x : N) (a b : jsstring) : lev (x :: a) b <= S (lev a b).
Proof.
  destruct b as [|y b].
  - rewrite !lev_nil_r. simpl. lia.
  - rewrite lev_cons. unfold min3. lia.
Qed.

Lemma lev_insert_le (y : N) (a b : jsstring) : lev a (y :: b) <= S (lev a b).
Proof.
  destruct a as [|x a].
  - simpl. lia.
  - rewrite lev_cons. unfold min3. lia.
Qed.

Lemma lev_is_cheapest (a b : jsstring) (k : nat) : edit a b k -> lev a b <= k.
Proof.
  induction 1 as [|x a b k _ IH|x y a b k _ IH|x a b k _ IH|y a b k _ IH].
  - simpl. lia.
  - rewrite lev_cons, N.eqb_refl. unfold min3. lia.
  - rewrite lev_cons. unfold min3. destruct (N.eqb x y); lia.
  - pose proof (lev_delete_le x a b). lia.
  - pose proof (lev_insert_le y a b). lia.
Qed.

(** [lev] computes the distance of the specification. *)
Lemma lev_editDistance (a b : jsstring) : editDistance a b (lev a b).
Proof. split; [apply lev_is_an_alignment | apply lev_is_cheapest]. Qed.

Lemma editDistance_unique (a b : jsstring) (d d' : nat) :
  editDistance a b d -> editDistance a b d' -> d = d'.
Proof.
  intros [H1 H2] [H1' H2']. apply Nat.le_antisymm; auto.
Qed.

Lemma lev_same (a : jsstring) : lev a a = 0.
Proof. pose proof (lev_is_cheapest (edit_refl a)). lia. Qed.

(** Alignments can be extended at the end as well as at the front. *)
Lemma edit_snoc (a b : jsstring) (k : nat) (x y : N) :
  edit a b k ->
  edit (a ++ [x]) (b ++ [x]) k
  /\ edit (a ++ [x]) (b ++ [y]) (S k)
  /\ edit (a ++ [x]) b (S k)
  /\ edit a (b ++ [y]) (S k).
Proof.
  induction 1 as [|z a b k _ IH|z z' a b k _ IH|z a b k _ IH|z a b k _ IH];
    simpl.
  - repeat split; repeat constructor.
  - destruct IH as (I1 & I2 & I3 & I4).
    repeat split; apply edit_keep; assumption.
  - destruct IH as (I1 & I2 & I3 & I4).
    repeat split; apply edit_substitute; assumption.
  - destruct IH as (I1 & I2 & I3 & I4).
    repeat split; apply edit_delete; assumption.
  - destruct IH as (I1 & I2 & I3 & I4).
    repeat split; apply edit_insert; assumption.
Qed.

Lemma edit_rev (a b : jsstring) (k : nat) :
  edit a b k -> edit (rev a) (rev b) k.
Proof.
  induction 1 as [|x a b k _ IH|x y a b k _ IH|x a b k _ IH|y a b k _ IH];
    simpl.
  - constructor.
  - apply (edit_snoc x x IH).
  - apply (edit_snoc x y IH).
  - apply (edit_snoc x x IH).
  - apply (edit_snoc y y IH).
Qed.

Lemma lev_rev (a b : jsstring) : lev (rev a) (rev b) = lev a b.
Proof.
  apply Nat.le_antisymm.
  - apply lev_is_cheapest, edit_rev, lev_is_an_alignment.
  - rewrite <- (rev_involutive a), <- (rev_involutive b) at 1.
    apply lev_is_cheapest, edit_rev, lev_is_an_alignment.
Qed.

(** *** The table of [levenshtein]

    Entry [j] of row [i] is the distance of the first [i] code units of
    [a] and the first [j] code units of [b]. *)

Lemma prefixDistance_nil_l (y : jsstring) :
  prefixDistance [] y = List.length y.
Proof. unfold prefixDistance. simpl. apply length_rev. Qed.

Lemma prefixDistance_nil_r (x : jsstring) :
  prefixDistance x [] = List.length x.
Proof. unfold prefixDistance. simpl. rewrite lev_nil_r. apply length_rev. Qed.

Lemma prefixDistance_snoc (x y : jsstring) (c d : N) :
  prefixDistance (x ++ [c]) (y ++ [d])
  = min3 (prefixDistance x (y ++ [d]) + 1) (prefixDistance (x ++ [c]) y + 1)
      (prefixDistance x y + (if N.eqb c d then 0 else 1)).
Proof.
  unfold prefixDistance. rewrite !rev_unit. apply lev_cons.
Qed.

Lemma firstRow_rowOf (b : jsstring) : firstRow (List.length b) = rowOf [] b.
Proof.
  unfold firstRow, rowOf.
  rewrite <- (map_id (seq 0 (S (List.length b)))) at 1.
  apply map_ext_in. intros j Hj. apply in_seq in Hj.
  rewrite prefixDistance_nil_l, length_firstn. lia.
Qed.

Lemma fillRow_spec (c : N) (x b2 b1 : jsstring) :
  fillRow c
    (map (fun k => prefixDistance x (b1 ++ firstn k b2))
       (seq 0 (S (List.length b2))))
    (prefixDistance (x ++ [c]) b1) b2
  = map (fun k => prefixDistance (x ++ [c]) (b1 ++ firstn k b2))
      (seq 1 (List.length b2)).
Proof.
  revert b1; induction b2 as [|d b2 IH]; intros b1; [reflexivity|].
  assert (shift : forall z,
    map (fun k => prefixDistance z (b1 ++ firstn k (d :: b2)))
      (seq 2 (List.length b2))
    = map (fun k => prefixDistance z ((b1 ++ [d]) ++ firstn k b2))
        (seq 1 (List.length b2))).
  { intros z. rewrite <- seq_shift, map_map. apply map_ext. intros k.
    cbn [firstn]. rewrite <- app_assoc. reflexivity. }
  cbn [List.length seq map fillRow].
  rewrite !shift.
  change (firstn 1 (d :: b2)) with [d].
  change (firstn 0 (d :: b2)) with (@nil N).
  rewrite app_nil_r, <- prefixDistance_snoc. f_equal.
  specialize (IH (b1 ++ [d])).
  cbn [seq map firstn] in IH. rewrite app_nil_r in IH. exact IH.
Qed.

Lemma nextRow_spec (c : N) (x b : jsstring) :
  nextRow (List.length x + 1) c (rowOf x b) b = rowOf (x ++ [c]) b.
Proof.
  pose proof (fillRow_spec c x b []) as E. cbn [app] in E.
  rewrite (prefixDistance_nil_r (x ++ [c])), length_app in E.
  cbn [List.length] in E.
  unfold nextRow.
  etransitivity; [apply (f_equal (cons _)); exact E|].
  unfold rowOf. cbn [seq map]. f_equal.
  change (firstn 0 b) with (@nil N).
  rewrite prefixDistance_nil_r, length_app. reflexivity.
Qed.

Lemma dpRows_spec (a2 x b : jsstring) :
  dpRows (List.length x + 1) a2 (rowOf x b) b
  = map (fun i => rowOf (x ++ firstn i a2) b) (seq 1 (List.length a2)).
Proof.
  revert x; induction a2 as [|c a2 IH]; intros x; [reflexivity|].
  cbn [dpRows List.length seq map firstn].
  rewrite nextRow_spec. f_equal.
  specialize (IH (x ++ [c])). rewrite length_app in IH. simpl in IH.
  replace (S (List.length x + 1)) with (List.length x + 1 + 1) by lia.
  rewrite IH, <- (seq_shift _ 1), map_map.
  apply map_ext. intros i. cbn [firstn]. rewrite <- app_assoc. reflexivity.
Qed.

Lemma dpTable_spec (a b : jsstring) :
  dpTable a b = map (fun i => rowOf (firstn i a) b) (seq 0 (S (List.length a))).
Proof.
  unfold dpTable. cbn [seq map firstn].
  rewrite firstRow_rowOf. f_equal.
  exact (dpRows_spec a [] b).
Qed.

Lemma dpTable_corner (a b : jsstring) :
  nth (List.length b) (nth (List.length a) (dpTable a b) []) 0 = lev a b.
Proof.
  rewrite dpTable_spec.
  rewrite (nth_indep _ [] (rowOf (firstn 0 a) b))
    by (rewrite length_map, length_seq; lia).
  rewrite (map_nth (fun i => rowOf (firstn i a) b)), seq_nth by lia.
  unfold rowOf.
  rewrite (nth_indep _ 0 (prefixDistance (firstn (0 + List.length a) a) (firstn 0 b)))
    by (rewrite length_map, length_seq; lia).
  rewrite (map_nth (fun j => prefixDistance (firstn (0 + List.length a) a)
                               (firstn j b))), seq_nth by lia.
  simpl. rewrite !firstn_all. apply lev_rev.
Qed.

Section HostDistance.

Context {H : Host}.

(** [levenshtein] is the distance of the two normalized strings. *)
Lemma levenshtein_lev (a b : jsstring) :
  levenshtein a b = lev (normalizeName a) (normalizeName b).
Proof.
  unfold levenshtein.
  destruct (Nat.eqb_spec (List.length (normalizeName a)) 0) as [E|_].
  - apply length_zero_iff_nil in E. rewrite E. reflexivity.
  - destruct (Nat.eqb_spec (List.length (normalizeName b)) 0) as [E|_].
    + apply length_zero_iff_nil in E. rewrite E, lev_nil_r. reflexivity.
    + apply dpTable_corner.
Qed.

End HostDistance.

End Distance.

(** ** Normalization *)

Module Normalization.

Lemma isPlain_cases (c : N) :
  isPlain c = true ->
  isWordChar c = true /\ isCombiningMark c = false
  /\ (isSpace c = true -> c = space).
Proof.
  unfold isPlain, isWordChar, isCombiningMark, isSpace, space.
  intros Hc.
  repeat rewrite orb_true_iff in Hc; repeat rewrite andb_true_iff in Hc.
  repeat rewrite N.leb_le in Hc. rewrite N.eqb_eq in Hc.
  split; [|split].
  - destruct Hc as [[Hc|Hc]|Hc].
    + destruct Hc as [H1 H2]. apply N.leb_le in H1, H2.
      rewrite H1, H2. reflexivity.
    + destruct Hc as [H1 H2]. apply N.leb_le in H1, H2.
      rewrite H1, H2. apply orb_true_iff. left. apply orb_true_r.
    + subst c. reflexivity.
  - apply andb_false_iff.
    destruct (N.leb_spec 768 c); [right; apply N.leb_gt; lia | left; reflexivity].
  - intros Hs.
    repeat rewrite orb_true_iff in Hs; repeat rewrite andb_true_iff in Hs.
    repeat rewrite N.leb_le in Hs. repeat rewrite N.eqb_eq in Hs. lia.
Qed.

Lemma wordChar_plain (c : N) :
  isWordChar c = true -> isSpace c = false -> isPlain c = true.
Proof.
  unfold isWordChar, isPlain. intros Hw Hs. rewrite Hs, orb_false_r in Hw.
  rewrite Hw. reflexivity.
Qed.

Lemma collapseSpaces_plain (b : bool) (v : jsstring) :
  forallb isWordChar v = true -> forallb isPlain (collapseSpaces b v) = true.
Proof.
  revert b; induction v as [|c v IH]; intros b Hv; [reflexivity|].
  simpl in Hv. apply andb_true_iff in Hv as [Hc Hv]. simpl.
  destruct (isSpace c) eqn:Hs.
  - destruct b; [exact (IH true Hv)|].
    change (isPlain space && forallb isPlain (collapseSpaces true v) = true).
    apply andb_true_iff. split; [reflexivity | exact (IH true Hv)].
  - change (isPlain c && forallb isPlain (collapseSpaces false v) = true).
    rewrite (wordChar_plain c Hc Hs). exact (IH false Hv).
Qed.

Lemma collapseSpaces_spaced (b : bool) (v : jsstring) :
  spaced b (collapseSpaces b v) = true.
Proof.
  revert b; induction v as [|c v IH]; intros b; [reflexivity|].
  simpl. destruct (isSpace c) eqn:Hs.
  - destruct b; [apply IH|]. simpl. apply IH.
  - simpl. rewrite Hs. apply IH.
Qed.

Lemma collapseSpaces_fixed (b : bool) (s : jsstring) :
  forallb isPlain s = true -> spaced b s = true -> collapseSpaces b s = s.
Proof.
  revert b; induction s as [|c s IH]; intros b Hp Hs; [reflexivity|].
  simpl in *. apply andb_true_iff in Hp as [Hc Hp].
  destruct (isSpace c) eqn:Ec.
  - apply andb_true_iff in Hs as [Hb Hs]. apply negb_true_iff in Hb. subst b.
    destruct (isPlain_cases c Hc) as (_ & _ & E). rewrite (E Ec).
    f_equal. apply IH; assumption.
  - f_equal. apply IH; assumption.
Qed.

Lemma dropWhile_forallb {A} (p q : A -> bool) (s : list A) :
  forallb q s = true -> forallb q (dropWhile p s) = true.
Proof.
  induction s as [|c s IH]; simpl; [auto|]. intros Hq.
  destruct (p c); [|exact Hq].
  apply andb_true_iff in Hq as [_ Hq]. auto.
Qed.

Lemma dropWhile_spaced (b b' : bool) (s : jsstring) :
  spaced b s = true -> spaced b' (dropWhile isSpace s) = true.
Proof.
  revert b; induction s as [|c s IH]; intros b Hs; [reflexivity|].
  simpl in *. destruct (isSpace c) eqn:Ec.
  - apply andb_true_iff in Hs as [_ Hs]. exact (IH _ Hs).
  - simpl. rewrite Ec. exact Hs.
Qed.

Lemma dropWhile_startsClean (s : jsstring) :
  startsClean (dropWhile isSpace s) = true.
Proof.
  induction s as [|c s IH]; [reflexivity|]. simpl.
  destruct (isSpace c) eqn:Ec; [exact IH|]. simpl. rewrite Ec. reflexivity.
Qed.

Lemma dropWhile_fixed (s : jsstring) :
  startsClean s = true -> dropWhile isSpace s = s.
Proof.
  destruct s as [|c s]; [reflexivity|]. simpl. intros Hc.
  apply negb_true_iff in Hc. rewrite Hc. reflexivity.
Qed.

Lemma trimEnd_cons (c : N) (r : jsstring) :
  trimEnd (c :: r) = [] \/ trimEnd (c :: r) = c :: trimEnd r.
Proof.
  simpl. destruct (trimEnd r); [|right; reflexivity].
  destruct (isSpace c); [left | right]; reflexivity.
Qed.

Lemma trimEnd_forallb (q : N -> bool) (s : jsstring) :
  forallb q s = true -> forallb q (trimEnd s) = true.
Proof.
  induction s as [|c s IH]; [auto|]. intros Hq.
  simpl in Hq. apply andb_true_iff in Hq as [Hc Hq].
  destruct (trimEnd_cons c s) as [->| ->]; [reflexivity|].
  simpl. rewrite Hc. auto.
Qed.

Lemma trimEnd_spaced (b : bool) (s : jsstring) :
  spaced b s = true -> spaced b (trimEnd s) = true.
Proof.
  revert b; induction s as [|c s IH]; intros b Hs; [reflexivity|].
  destruct (trimEnd_cons c s) as [->| ->]; [reflexivity|].
  simpl in *. destruct (isSpace c).
  - apply andb_true_iff in Hs as [-> Hs]. simpl. auto.
  - auto.
Qed.

Lemma trimEnd_startsClean (s : jsstring) :
  startsClean s = true -> startsClean (trimEnd s) = true.
Proof.
  destruct s as [|c s]; [auto|]. intros Hc.
  destruct (trimEnd_cons c s) as [->| ->]; [reflexivity | exact Hc].
Qed.

Lemma trimEnd_endsClean (s : jsstring) : endsClean (trimEnd s) = true.
Proof.
  induction s as [|c s IH]; [reflexivity|]. simpl.
  destruct (trimEnd s) as [|d t] eqn:E.
  - destruct (isSpace c) eqn:Ec; [reflexivity|]. simpl. rewrite Ec. reflexivity.
  - exact IH.
Qed.

Lemma trimEnd_fixed (s : jsstring) : endsClean s = true -> trimEnd s = s.
Proof.
  induction s as [|c s IH]; [reflexivity|]. intros Hs.
  destruct s as [|d s].
  - simpl in *. apply negb_true_iff in Hs. rewrite Hs. reflexivity.
  - change (endsClean (d :: s) = true) in Hs.
    change (trimEnd (c :: d :: s))
      with (match trimEnd (d :: s) with
            | [] => if isSpace c then [] else [c]
            | r' => c :: r'
            end).
    rewrite (IH Hs). reflexivity.
Qed.

Lemma normalized_parts (s : jsstring) :
  normalized s = true <->
  forallb isPlain s = true /\ spaced false s = true
  /\ startsClean s = true /\ endsClean s = true.
Proof. unfold normalized. rewrite !andb_true_iff. tauto. Qed.

Lemma filter_fixed {A} (p : A -> bool) (s : list A) :
  forallb p s = true -> filter p s = s.
Proof.
  induction s as [|c s IH]; simpl; [reflexivity|].
  intros E. apply andb_true_iff in E as [-> E]. rewrite (IH E). reflexivity.
Qed.

Lemma forallb_filter_same {A} (p : A -> bool) (s : list A) :
  forallb p (filter p s) = true.
Proof.
  induction s as [|c s IH]; simpl; [reflexivity|].
  destruct (p c) eqn:E; simpl; [rewrite E|]; exact IH.
Qed.

Section HostNormalization.

Context {H : Host}.

(** Whatever the input, [normalizeName] returns a normalized name. *)
Lemma normalizeName_normalized (s : jsstring) :
  normalized (normalizeName s) = true.
Proof.
  unfold normalizeName, trim.
  set (v := filter isWordChar _).
  assert (Hv : forallb isWordChar v = true) by apply forallb_filter_same.
  apply normalized_parts. repeat split.
  - apply trimEnd_forallb, dropWhile_forallb, collapseSpaces_plain, Hv.
  - apply trimEnd_spaced, (dropWhile_spaced false), collapseSpaces_spaced.
  - apply trimEnd_startsClean, dropWhile_startsClean.
  - apply trimEnd_endsClean.
Qed.

Context {HL : HostLaws H}.

(** A normalized name is left as it is. *)
Lemma normalizeName_fixed (s : jsstring) :
  normalized s = true -> normalizeName s = s.
Proof.
  intros Hn. apply normalized_parts in Hn as (Hp & Hs & Hb & He).
  unfold normalizeName, trim.
  rewrite (toLowerCase_plain s Hp), (normalizeNFKD_plain s Hp).
  rewrite (filter_fixed (fun c => negb (isCombiningMark c))).
  2:{ rewrite forallb_forall in *. intros c Hc.
      destruct (isPlain_cases c (Hp c Hc)) as (_ & -> & _). reflexivity. }
  rewrite (filter_fixed isWordChar).
  2:{ rewrite forallb_forall in *. intros c Hc.
      apply (isPlain_cases c (Hp c Hc)). }
  rewrite (collapseSpaces_fixed false s Hp Hs).
  rewrite (dropWhile_fixed s Hb). apply trimEnd_fixed, He.
Qed.

(** [normalize(normalize(x)) == normalize(x)]. *)
Lemma normalizeName_idempotent (s : jsstring) :
  normalizeName (normalizeName s) = normalizeName s.
Proof. apply normalizeName_fixed, normalizeName_normalized. Qed.

End HostNormalization.

End Normalization.

(** ** The ASCII host obeys the laws *)

Lemma asciiLower_plain (s : jsstring) :
  forallb isPlain s = true -> map asciiLower s = s.
Proof.
  induction s as [|c s IH]; simpl; intros Hs; [reflexivity|].
  apply andb_true_iff in Hs as [Hc Hs].
  rewrite (IH Hs). f_equal.
  unfold asciiLower, isPlain in *.
  destruct ((65 <=? c)%N && (c <=? 90)%N) eqn:E; [|reflexivity].
  apply andb_true_iff in E as [E1 E2].
  apply N.leb_le in E1, E2.
  repeat rewrite orb_true_iff in Hc; repeat rewrite andb_true_iff in Hc.
  repeat rewrite N.leb_le in Hc. rewrite N.eqb_eq in Hc. lia.
Qed.

Lemma AsciiHost_laws : HostLaws AsciiHost.
Proof.
  split.
  - exact asciiLower_plain.
  - intros s _. reflexivity.
Qed.

(** ** The misspelling threshold *)

Module Threshold.
Section HostThreshold.

Context {H : Host} {HL : HostLaws H}.

(** C7.  [withinMisspellingThreshold input target] compares with a
    threshold the Levenshtein distance of the normalized input and the
    normalized target, the cost of a cheapest alignment in which an
    insertion, a deletion and a substitution cost 1 each: the answer is
    true exactly when that distance is at most 2 if the normalized target
    has 7 code units or more, and at most 1 if it has fewer. *)
Theorem threshold_on_levenshtein_distance (input target : jsstring) :
  exists d : nat,
    editDistance (normalizeName input) (normalizeName target) d
    /\ levenshtein input target = d
    /\ (7 <= List.length (normalizeName target) ->
        (withinMisspellingThreshold input target = true <-> d <= 2))
    /\ (List.length (normalizeName target) < 7 ->
        (withinMisspellingThreshold input target = true <-> d <= 1)).
Proof.
  exists (lev (normalizeName input) (normalizeName target)).
  split; [apply Distance.lev_editDistance|].
  split; [apply Distance.levenshtein_lev|].
  unfold withinMisspellingThreshold.
  rewrite Distance.levenshtein_lev, !Normalization.normalizeName_idempotent.
  split; intros Hlen.
  - destruct (Nat.leb_spec 7 (List.length (normalizeName target))); [|lia].
    apply Nat.leb_le.
  - destruct (Nat.leb_spec 7 (List.length (normalizeName target))); [lia|].
    apply Nat.leb_le.
Qed.

End HostThreshold.

Lemma threshold_on_levenshtein_distance_witness :
  HostLaws AsciiHost
  /\ editDistance (normalizeName (str "Sandres")) (normalizeName (str "Sanders")) 2
  /\ withinMisspellingThreshold (str "Sandres") (str "Sanders") = true.
Proof.
  split; [exact AsciiHost_laws|].
  destruct (@threshold_on_levenshtein_distance AsciiHost AsciiHost_laws
              (str "Sandres") (str "Sanders")) as (d & Hd & Hl & H7 & _).
  assert (E : d = 2) by (rewrite <- Hl; reflexivity).
  rewrite E in Hd, H7.
  split; [exact Hd|].
  apply H7; [vm_compute; lia | lia].
Defined.

(** A swap of two neighbours costs 2: there is no transposition. *)
Example no_transposition : editDistance (str "ab") (str "ba") 2.
Proof. exact (Distance.lev_editDistance (str "ab") (str "ba")). Qed.

End Threshold.

(** ** The validator *)

Module ValidatorFacts.
Import Validator.

Section HostValidation.

Context {H : Host}.

Lemma hard_verdict (question : Question) (input : jsstring) :
  difficulty question = Hard ->
  is_correct (validateAnswer question input)
  = includes (map normalizeName (correct_answers question))
      (normalizeName input).
Proof. unfold validateAnswer. intros ->. reflexivity. Qed.

(** C4.  For a question of difficulty Hard, the verdict is correct
    exactly when the normalized input is one of the normalized correct
    answers.  Hence each listed correct answer, submitted as it is, is
    accepted; and an input that normalizes to the last name of a correct
    answer is accepted only if that last name is the whole normalized form
    of one of the correct answers. *)
Theorem hard_mode_is_exact_match_only (question : Question)
  (input : jsstring) :
  difficulty question = Hard ->
  (is_correct (validateAnswer question input) = true <->
   In (normalizeName input) (map normalizeName (correct_answers question)))
  /\ (forall a, In a (correct_answers question) ->
        is_correct (validateAnswer question a) = true)
  /\ (forall a, In a (correct_answers question) ->
        normalizeName input = lastNameOf a ->
        (is_correct (validateAnswer question input) = true <->
         exists a', In a' (correct_answers question)
                    /\ normalizeName a' = lastNameOf a)).
Proof.
  intros Hd. split; [|split].
  - rewrite (hard_verdict _ _ Hd). apply includes_spec.
  - intros a Ha. rewrite (hard_verdict _ _ Hd).
    apply includes_spec, in_map, Ha.
  - intros a Ha Hl. rewrite (hard_verdict _ _ Hd), includes_spec, Hl.
    rewrite in_map_iff.
    split; intros (a' & H1 & H2); exists a'; auto.
Qed.

Lemma exact_match_accepted (question : Question) (input : jsstring) :
  In (normalizeName input) (map normalizeName (correct_answers question)) ->
  is_correct (validateAnswer question input) = true
  /\ accepted_as (validateAnswer question input) = full_name.
Proof.
  intros Hin. apply includes_spec in Hin.
  unfold validateAnswer. destruct (difficulty question); rewrite Hin; auto.
Qed.

(** The questions of [partyOfPortrait] and [stateOfPortrait] have
    difficulty Easy and allow the answer mode [full_name] only. *)
Lemma portrait_fillers_allow_full_name_only (senators : list Senator)
  (w w' : World) (q : Question) :
  Generator.partyOfPortrait senators w = (AQuestion q, w')
  \/ Generator.stateOfPortrait senators w = (AQuestion q, w') ->
  difficulty q = Easy /\ allowed_answer_modes q = [full_name].
Proof.
  intros [Hgen|Hgen];
    unfold Generator.partyOfPortrait, Generator.stateOfPortrait, bind in Hgen;
    destruct (pickRandom senators w) as [[s|] w1];
    try discriminate;
    destruct (Generator.makeId w1) as [i w2];
    inversion Hgen; subst; auto.
Qed.

(** C2, as the code has it.  The verdict of [validateAnswer] depends on
    the difficulty of the question and not on its allowed answer modes.
    On a question that allows the mode [full_name] only, every input whose
    normalized form is one of the normalized correct answers is accepted,
    as a full name; under Hard nothing else is accepted; and the verdict
    is the one the same question gets with any other list of modes, so
    that under Easy, the difficulty of the questions of [partyOfPortrait]
    and [stateOfPortrait], the last-name and misspelling rules apply as
    well. *)
Theorem validation_ignores_allowed_answer_modes (q : Question)
  (input : jsstring) :
  allowed_answer_modes q = [full_name] ->
  (In (normalizeName input) (map normalizeName (correct_answers q)) ->
   is_correct (validateAnswer q input) = true
   /\ accepted_as (validateAnswer q input) = full_name)
  /\ (difficulty q = Hard ->
      (is_correct (validateAnswer q input) = true <->
       In (normalizeName input) (map normalizeName (correct_answers q))))
  /\ (forall modes,
        validateAnswer (withModes q modes) input = validateAnswer q input).
Proof.
  intros _. split; [|split].
  - apply exact_match_accepted.
  - intros Hd. rewrite (hard_verdict _ _ Hd). apply includes_spec.
  - reflexivity.
Qed.

(** Under Easy, an input whose last name is not empty and is the last
    name of a correct answer is always accepted: the misspelling loop on
    last names, which runs before the test for an ambiguous last name,
    finds that answer at distance 0. *)
Lemma shared_last_name_is_never_rejected (question : Question)
  (input a : jsstring) :
  difficulty question = Easy ->
  In a (correct_answers question) ->
  lastNameOf a = lastNameOf (normalizeName input) ->
  truthy (lastNameOf (normalizeName input)) = true ->
  is_correct (validateAnswer question input) = true.
Proof.
  intros Hd Ha Hl Ht. unfold validateAnswer. rewrite Hd.
  destruct (includes _ _); [reflexivity|].
  destruct (_ && _); [reflexivity|].
  destruct (existsb _ _); [reflexivity|].
  match goal with
  | |- is_correct (if existsb ?f ?l then _ else _) = true =>
      assert (E : existsb f l = true)
  end.
  { apply existsb_exists. exists a. split; [exact Ha|].
    rewrite Ht, andb_true_r, Hl.
    unfold withinMisspellingThreshold.
    rewrite Distance.levenshtein_lev, Distance.lev_same.
    destruct (7 <=? _); reflexivity. }
  rewrite E. reflexivity.
Qed.

End HostValidation.

Lemma hard_mode_is_exact_match_only_witness :
  difficulty (sampleQuestion Hard [str "John Smith"]) = Hard
  /\ is_correct (validateAnswer (sampleQuestion Hard [str "John Smith"])
                   (str "John Smith")) = true
  /\ is_correct (validateAnswer (sampleQuestion Hard [str "John Smith"])
                   (str "smith")) = false.
Proof.
  assert (Hd : difficulty (sampleQuestion Hard [str "John Smith"]) = Hard)
    by reflexivity.
  split; [exact Hd|].
  destruct (hard_mode_is_exact_match_only
              (sampleQuestion Hard [str "John Smith"]) (str "smith") Hd)
    as (Hiff & Hall & _).
  split.
  - apply Hall. left. reflexivity.
  - destruct (is_correct _) eqn:E; [|reflexivity].
    destruct Hiff as [Hin _]. specialize (Hin eq_refl).
    apply includes_spec in Hin. vm_compute in Hin. discriminate.
Defined.

Lemma validation_ignores_allowed_answer_modes_witness :
  allowed_answer_modes partyQuestion = [full_name]
  /\ validateAnswer (withModes partyQuestion [last_name; full_name])
       (str "Independnt")
     = validateAnswer partyQuestion (str "Independnt")
  /\ accepted_as (validateAnswer partyQuestion (str "independent"))
     = full_name.
Proof.
  assert (Hm : allowed_answer_modes partyQuestion = [full_name])
    by reflexivity.
  split; [exact Hm|].
  destruct (@validation_ignores_allowed_answer_modes AsciiHost partyQuestion
              (str "Independnt") Hm) as (_ & _ & Hsame).
  destruct (@validation_ignores_allowed_answer_modes AsciiHost partyQuestion
              (str "independent") Hm) as (Hexact & _ & _).
  split; [apply Hsame|].
  apply Hexact. left. reflexivity.
Defined.

(** C2, as stated, fails: the question above, generated with the single
    mode [full_name], accepts the input "Independnt", whose normalized
    form is not one of the normalized correct answers. *)
Lemma full_name_only_question_accepts_a_misspelling :
  fst (Generator.partyOfPortrait sampleRoster (constantWorld (1 # 2)))
  = AQuestion partyQuestion
  /\ allowed_answer_modes partyQuestion = [full_name]
  /\ ~ (is_correct (validateAnswer partyQuestion (str "Independnt")) = true
        <-> In (normalizeName (str "Independnt"))
              (map normalizeName (correct_answers partyQuestion))).
Proof.
  split; [reflexivity|]. split; [reflexivity|].
  intros [Hacc _].
  assert (Hin : In (normalizeName (str "Independnt"))
                  (map normalizeName (correct_answers partyQuestion)))
    by (apply Hacc; reflexivity).
  apply includes_spec in Hin. vm_compute in Hin. discriminate.
Qed.

(** The same question accepts an input by its last word alone. *)
Example full_name_only_question_accepts_a_last_name :
  let v := validateAnswer partyQuestion (str "probably independent") in
  is_correct v = true /\ accepted_as v = last_name.
Proof. split; reflexivity. Qed.

(** C1 at the input of the specification: with the correct answers
    "John Smith" and "Jane Smith", the input "smith" is not an exact match
    and shares its last name with both answers, and the verdict is
    correct, by the misspelling rule on last names; it is not the
    rejection for an ambiguous last name. *)
Theorem shared_last_name_is_accepted_as_a_misspelling :
  let q := sampleQuestion Easy [str "John Smith"; str "Jane Smith"] in
  let v := validateAnswer q (str "smith") in
  includes (map normalizeName (correct_answers q)) (normalizeName (str "smith"))
  = false
  /\ List.length
       (filter (fun a => streq (lastNameOf a)
                           (lastNameOf (normalizeName (str "smith"))))
          (correct_answers q)) = 2
  /\ is_correct v = true
  /\ accepted_as v = misspelling_correction
  /\ feedback v <> ambiguousFeedback.
Proof.
  cbv zeta. repeat split; try reflexivity.
  vm_compute. discriminate.
Qed.

End ValidatorFacts.

(** ** Grouping the roster by state *)

Module Grouping.

Lemma includes_false (arr : list jsstring) (x : jsstring) :
  includes arr x = false <-> ~ In x arr.
Proof.
  rewrite <- includes_spec. destruct (includes arr x); split; congruence.
Qed.

Lemma includes_app (l1 l2 : list jsstring) (x : jsstring) :
  includes (l1 ++ l2) x = includes l1 x || includes l2 x.
Proof. unfold includes. apply existsb_app. Qed.

Lemma addNew_spec (seen xs : list jsstring) :
  NoDup (addNew seen xs)
  /\ forall x, In x (addNew seen xs) <-> In x xs /\ ~ In x seen.
Proof.
  revert seen; induction xs as [|y xs IH]; intros seen.
  - simpl. split; [constructor | tauto].
  - simpl. destruct (includes seen y) eqn:E.
    + destruct (IH seen) as [Hnd Hin]. split; [exact Hnd|].
      intros x. rewrite Hin. apply includes_spec in E.
      split; [tauto|]. intros [[<-|Hx] Hs]; tauto.
    + destruct (IH (seen ++ [y])) as [Hnd Hin].
      apply includes_false in E. split.
      * constructor; [|exact Hnd]. rewrite Hin, in_app_iff. simpl. tauto.
      * intros x. simpl. rewrite Hin, in_app_iff. simpl.
        destruct (list_eq_dec N.eq_dec y x) as [->|Hne]; [tauto|].
        split; [tauto|]. intros [[F|Hx] Hs]; [congruence | tauto].
Qed.

Lemma addNew_snoc (seen xs : list jsstring) (x : jsstring) :
  addNew seen (xs ++ [x])
  = addNew seen xs ++ (if includes seen x || includes xs x then [] else [x]).
Proof.
  revert seen; induction xs as [|y xs IH]; intros seen.
  - simpl. rewrite orb_false_r. destruct (includes seen x); reflexivity.
  - cbn [app addNew]. destruct (includes seen y) eqn:E.
    + rewrite IH. f_equal.
      change (includes (y :: xs) x) with (streq x y || includes xs x).
      destruct (streq x y) eqn:Exy; [|reflexivity].
      apply streq_spec in Exy. subst y. rewrite E. reflexivity.
    + rewrite IH. cbn [app]. do 2 f_equal.
      rewrite includes_app.
      change (includes [y] x) with (streq x y || false).
      change (includes (y :: xs) x) with (streq x y || includes xs x).
      rewrite orb_false_r, <- orb_assoc. reflexivity.
Qed.

Lemma pushTo_None (k : jsstring) (s : Senator)
  (m : list (jsstring * list Senator)) :
  pushTo k s m = None
  <-> inherited k = true /\ includes (map fst m) k = false.
Proof.
  induction m as [|[k' v] m IH].
  - simpl. destruct (inherited k); split; try tauto; try discriminate.
    intros [F _]; discriminate.
  - cbn [pushTo map fst].
    change (includes (k' :: map fst m) k)
      with (streq k k' || includes (map fst m) k).
    destruct (streq k' k) eqn:E.
    + apply streq_spec in E. subst k'. rewrite streq_refl.
      split; [discriminate | intros [_ F]; discriminate].
    + assert (E' : streq k k' = false).
      { destruct (streq k k') eqn:F; [|reflexivity].
        apply streq_spec in F. subst. rewrite streq_refl in E. discriminate. }
      rewrite E'. cbn [orb]. rewrite <- IH.
      destruct (pushTo k s m); split; congruence.
Qed.

Lemma pushTo_keys (k : jsstring) (s : Senator)
  (m m' : list (jsstring * list Senator)) :
  pushTo k s m = Some m' ->
  map fst m' = map fst m ++ (if includes (map fst m) k then [] else [k]).
Proof.
  revert m'; induction m as [|[k' v] m IH]; intros m'.
  - simpl. destruct (inherited k); [discriminate|].
    intros E. inversion E. reflexivity.
  - cbn [pushTo map fst].
    change (includes (k' :: map fst m) k)
      with (streq k k' || includes (map fst m) k).
    destruct (streq k' k) eqn:E.
    + apply streq_spec in E. subst k'. rewrite streq_refl. simpl.
      intros E. inversion E. simpl. rewrite app_nil_r. reflexivity.
    + assert (E' : streq k k' = false).
      { destruct (streq k k') eqn:F; [|reflexivity].
        apply streq_spec in F. subst. rewrite streq_refl in E. discriminate. }
      rewrite E'. cbn [orb].
      destruct (pushTo k s m) as [rest|]; [|discriminate].
      intros F. inversion F. cbn [map fst app]. f_equal. apply IH. reflexivity.
Qed.

Lemma pushTo_lookup (k k0 : jsstring) (s : Senator)
  (m m' : list (jsstring * list Senator)) :
  pushTo k s m = Some m' ->
  lookup k0 m'
  = if streq k k0
    then Some (match lookup k0 m with Some v => v | None => [] end ++ [s])
    else lookup k0 m.
Proof.
  revert m'; induction m as [|[k' v] m IH]; intros m'.
  - simpl. destruct (inherited k); [discriminate|].
    intros E. inversion E. simpl. destruct (streq k k0); reflexivity.
  - cbn [pushTo lookup]. destruct (streq k' k) eqn:E.
    + apply streq_spec in E. subst k'. intros F. inversion F. cbn [lookup].
      destruct (streq k k0); reflexivity.
    + destruct (pushTo k s m) as [rest|]; [|discriminate].
      intros F. inversion F. cbn [lookup].
      destruct (streq k' k0) eqn:E0; [|apply IH; reflexivity].
      apply streq_spec in E0. subst k'.
      destruct (streq k k0) eqn:F0; [|reflexivity].
      apply streq_spec in F0. subst. rewrite streq_refl in E. discriminate.
Qed.

Lemma groupByState_snoc (l : list Senator) (s : Senator) :
  groupByState (l ++ [s])
  = match groupByState l with
    | Some m => pushTo (state s) s m
    | None => None
    end.
Proof. unfold groupByState. rewrite fold_left_app. reflexivity. Qed.

Lemma uniqueStates_snoc (l : list Senator) (s : Senator) :
  uniqueStates (l ++ [s])
  = uniqueStates l
    ++ (if includes (uniqueStates l) (state s) then [] else [state s]).
Proof.
  unfold uniqueStates. rewrite map_app. cbn [map].
  rewrite addNew_snoc. f_equal.
  (* a state is listed exactly when a senator before has it *)
  destruct (includes (map state l) (state s)) eqn:E.
  - apply includes_spec in E.
    assert (E' : In (state s) (addNew [] (map state l)))
      by (apply addNew_spec; split; [exact E | tauto]).
    apply includes_spec in E'. rewrite E'. reflexivity.
  - apply includes_false in E.
    assert (E' : ~ In (state s) (addNew [] (map state l)))
      by (intros F; apply addNew_spec in F; tauto).
    apply includes_false in E'. rewrite E'. reflexivity.
Qed.

Lemma uniqueStates_state (l : list Senator) (st : jsstring) :
  In st (uniqueStates l) <-> exists s, In s l /\ state s = st.
Proof.
  unfold uniqueStates.
  destruct (addNew_spec [] (map state l)) as [_ Hin].
  rewrite Hin, in_map_iff.
  split; [intros [(s & E & Hs) _]; eauto | intros (s & Hs & E); split; eauto].
Qed.

(** What the object holds when the loop has not thrown: one own property
    per state, created in the order of [uniqueStates], with the senators
    of the state in roster order; and no state names an inherited
    property. *)
Lemma groupByState_Some (senators : list Senator)
  (m : list (jsstring * list Senator)) :
  groupByState senators = Some m ->
  map fst m = uniqueStates senators
  /\ (forall st, lookup st m
                 = match filter (fun s => streq (state s) st) senators with
                   | [] => None
                   | v => Some v
                   end)
  /\ plainStates senators = true.
Proof.
  revert m; induction senators as [|s l IH] using rev_ind; intros m.
  - intros E. inversion E. repeat split.
  - rewrite groupByState_snoc.
    destruct (groupByState l) as [m0|]; [|discriminate].
    destruct (IH m0 eq_refl) as (Hk & Hl & Hp). intros E.
    split; [|split].
    + rewrite (pushTo_keys _ _ _ E), uniqueStates_snoc, Hk. reflexivity.
    + intros st. rewrite (pushTo_lookup _ st _ _ E), Hl, filter_app.
      cbn [filter]. destruct (streq (state s) st).
      * destruct (filter _ l); reflexivity.
      * rewrite app_nil_r. reflexivity.
    + unfold plainStates in *. rewrite forallb_app, Hp. cbn [forallb andb].
      rewrite andb_true_r. apply negb_true_iff.
      destruct (inherited (state s)) eqn:Ei; [|reflexivity]. exfalso.
      destruct (includes (map fst m0) (state s)) eqn:Ein.
      * rewrite Hk in Ein. apply includes_spec, uniqueStates_state in Ein
          as (s' & Hs' & Es').
        rewrite forallb_forall in Hp. specialize (Hp s' Hs').
        rewrite Es', Ei in Hp. discriminate.
      * assert (F : pushTo (state s) s m0 = None)
          by (apply pushTo_None; auto).
        congruence.
Qed.

Lemma groupByState_plain (senators : list Senator) :
  plainStates senators = true -> exists m, groupByState senators = Some m.
Proof.
  induction senators as [|s l IH] using rev_ind; intros Hp.
  - exists []. reflexivity.
  - unfold plainStates in Hp. rewrite forallb_app in Hp.
    apply andb_true_iff in Hp as [Hl Hs]. cbn [forallb] in Hs.
    rewrite andb_true_r in Hs. apply negb_true_iff in Hs.
    destruct (IH Hl) as [m0 E0]. rewrite groupByState_snoc, E0.
    destruct (pushTo (state s) s m0) as [m|] eqn:E; [eauto|].
    apply pushTo_None in E as [F _]. congruence.
Qed.

(** [groupByState] throws exactly when a state of the roster names an
    inherited property. *)
Lemma groupByState_None (senators : list Senator) :
  groupByState senators = None <-> plainStates senators = false.
Proof.
  split.
  - intros E. destruct (plainStates senators) eqn:Hp; [|reflexivity].
    destruct (groupByState_plain _ Hp) as [m F]. congruence.
  - intros Hp. destruct (groupByState senators) as [m|] eqn:E; [|reflexivity].
    apply groupByState_Some in E as (_ & _ & F). congruence.
Qed.

(** *** The order of [Object.keys] *)

Lemma insertIndex_In (i : N) (k : jsstring) (l : list (N * jsstring))
  (x : N * jsstring) :
  In x (insertIndex i k l) <-> x = (i, k) \/ In x l.
Proof.
  induction l as [|[j k'] l IH]; simpl.
  - intuition congruence.
  - destruct (i <? j)%N; simpl; [intuition congruence|].
    rewrite IH. intuition congruence.
Qed.

Lemma indexKeys_In (keys : list jsstring) (i : N) (k : jsstring) :
  In (i, k) (indexKeys keys) <-> In k keys /\ arrayIndex k = Some i.
Proof.
  unfold indexKeys.
  assert (G : forall acc,
            In (i, k)
              (fold_left (fun sorted k0 =>
                            match arrayIndex k0 with
                            | Some i0 => insertIndex i0 k0 sorted
                            | None => sorted
                            end) keys acc)
            <-> In (i, k) acc \/ (In k keys /\ arrayIndex k = Some i)).
  { induction keys as [|k0 keys IH]; intros acc; simpl; [tauto|].
    rewrite IH. destruct (arrayIndex k0) as [i0|] eqn:E.
    - rewrite insertIndex_In. split.
      + intros [[F|F]|[F1 F2]]; [|tauto|tauto].
        inversion F; subst. right. split; [left; reflexivity | exact E].
      + intros [F|[[F|F] F2]]; [tauto| |tauto].
        subst k0. left. left. congruence.
    - split; [tauto|]. intros [F|[[F|F] F2]]; [tauto| |tauto].
      subst k0. congruence. }
  rewrite G. simpl. tauto.
Qed.

Lemma objectKeys_In (m : list (jsstring * list Senator)) (k : jsstring) :
  In k (objectKeys m) <-> In k (map fst m).
Proof.
  unfold objectKeys. rewrite in_app_iff, filter_In, in_map_iff. split.
  - intros [([i k'] & E & Hin)|[Hin _]]; [|exact Hin].
    simpl in E. subst k'. apply indexKeys_In in Hin. tauto.
  - intros Hin. unfold isNamed. destruct (arrayIndex k) as [i|] eqn:E.
    + left. exists (i, k). split; [reflexivity|]. apply indexKeys_In. auto.
    + right. auto.
Qed.

Lemma insertIndex_sorted (i : N) (k : jsstring) (l : list (N * jsstring)) :
  StronglySorted (fun x y => (fst x <= fst y)%N) l ->
  StronglySorted (fun x y => (fst x <= fst y)%N) (insertIndex i k l).
Proof.
  induction 1 as [|[j k'] l Hs IH Hall]; simpl.
  - constructor; constructor.
  - destruct (N.ltb_spec i j) as [L|L].
    + constructor; [constructor; assumption|].
      constructor; [simpl; lia|].
      rewrite Forall_forall in *. intros y Hy. specialize (Hall y Hy).
      simpl in *. lia.
    + constructor; [exact IH|].
      rewrite Forall_forall in *. intros y Hy.
      apply insertIndex_In in Hy as [->|Hy]; [simpl; lia | auto].
Qed.

Lemma indexKeys_sorted (keys : list jsstring) :
  StronglySorted (fun x y => (fst x <= fst y)%N) (indexKeys keys).
Proof.
  unfold indexKeys.
  assert (G : forall acc,
            StronglySorted (fun x y => (fst x <= fst y)%N) acc ->
            StronglySorted (fun x y => (fst x <= fst y)%N)
              (fold_left (fun sorted k0 =>
                            match arrayIndex k0 with
                            | Some i0 => insertIndex i0 k0 sorted
                            | None => sorted
                            end) keys acc)).
  { induction keys as [|k0 keys IH]; intros acc Hs; simpl; [exact Hs|].
    apply IH. destruct (arrayIndex k0); [apply insertIndex_sorted|]; exact Hs. }
  apply G. constructor.
Qed.

Lemma indexKeys_none (keys : list jsstring) :
  (forall k, In k keys -> arrayIndex k = None) -> indexKeys keys = [].
Proof.
  intros Hn. destruct (indexKeys keys) as [|[i k] l] eqn:E; [reflexivity|].
  assert (Hin : In (i, k) (indexKeys keys)) by (rewrite E; left; reflexivity).
  apply indexKeys_In in Hin as [Hk Hi]. rewrite (Hn k Hk) in Hi. discriminate.
Qed.

Lemma objectKeys_named (m : list (jsstring * list Senator)) :
  (forall k, In k (map fst m) -> arrayIndex k = None) ->
  objectKeys m = map fst m.
Proof.
  intros Hn. unfold objectKeys. rewrite (indexKeys_none _ Hn). simpl.
  apply GameStateFacts.filter_all, forallb_forall.
  intros k Hk. unfold isNamed. rewrite (Hn k Hk). reflexivity.
Qed.

End Grouping.

(** ** Random picks *)

Module Picks.

Lemma floorTimes_range (r : Q) (n : nat) :
  (0 <= r)%Q -> (r < 1)%Q -> 0 < n ->
  (0 <= floorTimes r n < Z.of_nat n)%Z.
Proof.
  intros H0 H1 Hn. unfold floorTimes.
  set (q := inject_Z (Z.of_nat n)).
  assert (Hq : (0 < q)%Q).
  { unfold q. change 0%Q with (inject_Z 0). rewrite <- Zlt_Qlt. lia. }
  split.
  - rewrite <- (Qfloor_Z 0). apply Qfloor_resp_le.
    apply Qmult_le_0_compat; [exact H0 | apply Qlt_le_weak, Hq].
  - rewrite Zlt_Qlt.
    apply Qle_lt_trans with (r * q)%Q; [apply Qfloor_le|].
    fold q. rewrite <- (Qmult_1_l q) at 2.
    apply Qmult_lt_compat_r; assumption.
Qed.

Lemma index_In {A} (arr : list A) (i : Z) (x : A) :
  index arr i = Some x -> In x arr.
Proof.
  unfold index. destruct (i <? 0)%Z; [discriminate|]. apply nth_error_In.
Qed.

Lemma index_in_range {A} (arr : list A) (i : Z) :
  (0 <= i < Z.of_nat (List.length arr))%Z -> exists x, index arr i = Some x.
Proof.
  intros Hi. unfold index.
  destruct (Z.ltb_spec i 0); [lia|].
  destruct (nth_error arr (Z.to_nat i)) as [x|] eqn:E; [eauto|].
  apply nth_error_None in E. lia.
Qed.

(** What [pickRandom] returns is an element of the array. *)
Lemma pickRandom_In {A} (arr : list A) (w : World) (x : A) :
  fst (pickRandom arr w) = Some x -> In x arr.
Proof.
  destruct arr as [|a arr]; [discriminate|].
  unfold pickRandom, bind, rnd, ret. simpl fst. apply index_In.
Qed.

(** With a [rnd] of the unit interval, [pickRandom] finds an element in
    every array that is not empty. *)
Lemma pickRandom_Some {A} (arr : list A) (w : World) :
  unitInterval w -> arr <> [] -> exists x, fst (pickRandom arr w) = Some x.
Proof.
  intros Hu Harr. destruct arr as [|a arr]; [congruence|].
  unfold pickRandom, bind, rnd, ret. simpl fst.
  apply index_in_range. destruct (Hu (rnd_pos w)) as [H0 H1].
  apply floorTimes_range; simpl; try assumption; lia.
Qed.

Lemma pickRandom_streams {A} (arr : list A) (w : World) :
  rnd_stream (snd (pickRandom arr w)) = rnd_stream w
  /\ math_stream (snd (pickRandom arr w)) = math_stream w
  /\ math_pos (snd (pickRandom arr w)) = math_pos w.
Proof. destruct arr; auto. Qed.

Lemma pickRandom_unitInterval {A} (arr : list A) (w : World) :
  unitInterval w -> unitInterval (snd (pickRandom arr w)).
Proof.
  unfold unitInterval. destruct (pickRandom_streams arr w) as (-> & _).
  auto.
Qed.

End Picks.

(** ** The generator *)

Module GeneratorFacts.
Import Generator.

Lemma addNew_In (seen xs : list jsstring) (x : jsstring) :
  In x (addNew seen xs) -> In x xs.
Proof.
  revert seen; induction xs as [|y xs IH]; intros seen; simpl; [auto|].
  destruct (includes seen y); simpl; intros Hx.
  - right. exact (IH _ Hx).
  - destruct Hx as [->|Hx]; [left; reflexivity | right; exact (IH _ Hx)].
Qed.

Lemma uniqueStates_In (senators : list Senator) (st : jsstring) :
  In st (uniqueStates senators) -> exists s, In s senators /\ state s = st.
Proof.
  intros Hst. apply addNew_In, in_map_iff in Hst as (s & E & Hs). eauto.
Qed.

Lemma uniqueStates_not_empty (senators : list Senator) :
  senators <> [] -> uniqueStates senators <> [].
Proof. destruct senators; [congruence | discriminate]. Qed.

Lemma seniorities_truthy (se : jsstring) :
  In se seniorities -> truthy se = true.
Proof. intros [<-|[<-|[]]]; reflexivity. Qed.

(** With a state and a seniority that are not empty, the filter keeps the
    senators of that state and that seniority. *)
Lemma getByStatePartySeniority_pair (senators : list Senator)
  (st se : jsstring) :
  truthy st = true -> truthy se = true ->
  getByStatePartySeniority senators (Some st) None (Some se)
  = filter (matchesPair st se) senators.
Proof.
  intros Hst Hse. apply filter_ext. intros s.
  unfold rejects, matchesPair. rewrite Hst, Hse.
  destruct (streq (state s) st), (streq (seniority s) se); reflexivity.
Qed.

Section HostGenerator.

Context {H : Host}.

(** One turn of the loop of [stateSeniority]. *)
Lemma stateSeniorityFrom_step (n : nat) (d : Difficulty)
  (senators : list Senator) (w : World) :
  stateSeniorityFrom (S n) d senators w
  = match attemptMatches senators 0 w with
    | [m] =>
        let (i, w') := makeId (afterAttempts senators 1 w) in
        (AQuestion
           (stateSeniorityQuestion i d (fst (attempt senators 0 w))
              (snd (attempt senators 0 w)) m), w')
    | _ => stateSeniorityFrom n d senators (afterAttempts senators 1 w)
    end.
Proof.
  unfold attemptMatches, attempt. cbn [afterAttempts stateSeniorityFrom].
  unfold drawStateSeniority, bind, ret.
  destruct (pickRandom (uniqueStates senators) w) as [st w1].
  destruct (pickRandom seniorities w1) as [se w2].
  cbn [fst snd].
  destruct (getByStatePartySeniority senators st None se) as [|m [|m' l]];
    reflexivity.
Qed.

Lemma attemptMatches_shift (senators : list Senator) (k : nat) (w : World) :
  attemptMatches senators (S k) w
  = attemptMatches senators k (afterAttempts senators 1 w).
Proof. reflexivity. Qed.

Lemma attempt_shift (senators : list Senator) (k : nat) (w : World) :
  attempt senators (S k) w = attempt senators k (afterAttempts senators 1 w).
Proof. reflexivity. Qed.

(** When no attempt finds a unique match, the loop ends in the typed
    failure. *)
Lemma stateSeniorityFrom_failure (n : nat) (d : Difficulty)
  (senators : list Senator) (w : World) :
  (forall k, k < n -> List.length (attemptMatches senators k w) <> 1) ->
  stateSeniorityFrom n d senators w
  = (errorObject ambiguous_answer
       "Could not enforce uniqueness for state+seniority." None,
     afterAttempts senators n w).
Proof.
  revert w; induction n as [|n IH]; intros w Hall; [reflexivity|].
  rewrite stateSeniorityFrom_step.
  pose proof (Hall 0 ltac:(lia)) as H0.
  assert (Hrest : stateSeniorityFrom n d senators (afterAttempts senators 1 w)
                  = (errorObject ambiguous_answer
                       "Could not enforce uniqueness for state+seniority." None,
                     afterAttempts senators (S n) w)).
  { apply IH. intros k Hk. rewrite <- attemptMatches_shift. apply Hall. lia. }
  destruct (attemptMatches senators 0 w) as [|m [|m' l]];
    [exact Hrest | simpl in H0; congruence | exact Hrest].
Qed.

(** A question comes from the first attempt with a unique match. *)
Lemma stateSeniorityFrom_success (n : nat) (d : Difficulty)
  (senators : list Senator) (w : World) (q : Question) :
  fst (stateSeniorityFrom n d senators w) = AQuestion q ->
  exists k m i,
    k < n
    /\ (forall j, j < k -> List.length (attemptMatches senators j w) <> 1)
    /\ attemptMatches senators k w = [m]
    /\ q = stateSeniorityQuestion i d (fst (attempt senators k w))
             (snd (attempt senators k w)) m.
Proof.
  revert w; induction n as [|n IH]; intros w Hq; [discriminate|].
  rewrite stateSeniorityFrom_step in Hq.
  assert (Hrest :
    fst (stateSeniorityFrom n d senators (afterAttempts senators 1 w))
    = AQuestion q ->
    List.length (attemptMatches senators 0 w) <> 1 ->
    exists k m i,
      k < S n
      /\ (forall j, j < k -> List.length (attemptMatches senators j w) <> 1)
      /\ attemptMatches senators k w = [m]
      /\ q = stateSeniorityQuestion i d (fst (attempt senators k w))
               (snd (attempt senators k w)) m).
  { intros Hq' H0. destruct (IH _ Hq') as (k & m & i & Hk & Hbefore & Hm & E).
    exists (S k), m, i. split; [lia|]. split; [|split].
    - intros [|j] Hj; [exact H0|].
      rewrite attemptMatches_shift. apply Hbefore. lia.
    - rewrite attemptMatches_shift. exact Hm.
    - rewrite attempt_shift. exact E. }
  destruct (attemptMatches senators 0 w) as [|m [|m' l]] eqn:E0.
  - apply Hrest; [exact Hq | simpl; lia].
  - destruct (makeId (afterAttempts senators 1 w)) as [i w'].
    simpl in Hq. inversion Hq; subst q.
    exists 0, m, i. split; [lia|]. split; [intros j Hj; lia|].
    split; [exact E0 | reflexivity].
  - apply Hrest; [exact Hq | simpl; lia].
Qed.

Lemma drawStateSeniority_unitInterval (senators : list Senator) (w : World) :
  unitInterval w -> unitInterval (snd (drawStateSeniority senators w)).
Proof.
  intros Hu. unfold drawStateSeniority, bind, ret.
  pose proof (Picks.pickRandom_unitInterval (uniqueStates senators) Hu) as H1.
  destruct (pickRandom (uniqueStates senators) w) as [st w1].
  cbn [snd] in H1.
  pose proof (Picks.pickRandom_unitInterval seniorities H1) as H2.
  destruct (pickRandom seniorities w1) as [se w2]. exact H2.
Qed.

Lemma afterAttempts_unitInterval (senators : list Senator) (k : nat)
  (w : World) :
  unitInterval w -> unitInterval (afterAttempts senators k w).
Proof.
  revert w; induction k as [|k IH]; intros w Hu; [exact Hu|].
  simpl. apply IH, drawStateSeniority_unitInterval, Hu.
Qed.

(** In a roster that is not empty, an attempt draws a state of the roster
    and one of the two seniorities. *)
Lemma attempt_draws (senators : list Senator) (k : nat) (w : World) :
  unitInterval w -> wellFormed senators = true -> senators <> [] ->
  exists st se,
    attempt senators k w = (Some st, Some se)
    /\ truthy st = true /\ truthy se = true.
Proof.
  intros Hu Hwf Hne. unfold attempt.
  pose proof (afterAttempts_unitInterval senators k Hu) as Hk.
  set (wk := afterAttempts senators k w) in *.
  unfold drawStateSeniority, bind, ret.
  destruct (Picks.pickRandom_Some Hk (uniqueStates_not_empty Hne))
    as (st & Hst).
  pose proof (Picks.pickRandom_In _ _ Hst) as Hin.
  pose proof (Picks.pickRandom_unitInterval (uniqueStates senators) Hk) as H1.
  destruct (pickRandom (uniqueStates senators) wk) as [st' w1].
  cbn [fst snd] in Hst, H1. subst st'.
  destruct (Picks.pickRandom_Some H1 (arr := seniorities) ltac:(discriminate))
    as (se & Hse).
  pose proof (Picks.pickRandom_In _ _ Hse) as Hin2.
  destruct (pickRandom seniorities w1) as [se' w2].
  cbn [fst] in Hse. subst se'.
  exists st, se. split; [reflexivity|]. split.
  - apply uniqueStates_In in Hin as (s & Hs & <-).
    unfold wellFormed in Hwf. rewrite forallb_forall in Hwf. auto.
  - apply seniorities_truthy, Hin2.
Qed.

(** C3.  With a [rnd] of the unit interval and a roster in which every
    senator has a state: a question returned by [stateSeniority] is
    filled with a state and a seniority that exactly one senator of the
    roster has, and its correct answers are that senator's official name
    alone; when none of the 40 attempts draws a pair with exactly one
    match, the filler returns the failure [ambiguous_answer], and it
    returns a question only if one of the 40 attempts does. *)
Theorem state_seniority_question_has_one_match (d : Difficulty)
  (senators : list Senator) (w : World) :
  unitInterval w ->
  wellFormed senators = true ->
  (forall q, fst (stateSeniority d senators w) = AQuestion q ->
     exists st se m,
       filled_variables q
       = [("state"%string, Some st); ("seniority"%string, Some se)]
       /\ filter (matchesPair st se) senators = [m]
       /\ correct_answers q = [officialName m])
  /\ ((forall k, k < 40 ->
         List.length (attemptMatches senators k w) <> 1) ->
      fst (stateSeniority d senators w)
      = errorObject ambiguous_answer
          "Could not enforce uniqueness for state+seniority." None)
  /\ (forall q, fst (stateSeniority d senators w) = AQuestion q ->
        exists k, k < 40 /\ List.length (attemptMatches senators k w) = 1).
Proof.
  intros Hu Hwf. unfold stateSeniority. split; [|split].
  - intros q Hq.
    destruct (stateSeniorityFrom_success _ _ _ _ Hq)
      as (k & m & i & Hk & _ & Hm & ->).
    assert (Hne : senators <> []).
    { intros ->. unfold attemptMatches, getByStatePartySeniority in Hm.
      discriminate. }
    destruct (attempt_draws k Hu Hwf Hne) as (st & se & Ha & Hst & Hse).
    unfold attemptMatches in Hm. rewrite Ha in *. simpl in Hm.
    rewrite (@getByStatePartySeniority_pair senators st se Hst Hse) in Hm.
    exists st, se, m. auto.
  - intros Hall. rewrite (stateSeniorityFrom_failure _ _ _ Hall). reflexivity.
  - intros q Hq.
    destruct (stateSeniorityFrom_success _ _ _ _ Hq)
      as (k & m & i & Hk & _ & Hm & _).
    exists k. rewrite Hm. auto.
Qed.

(** *** The shuffle *)

Lemma setNth_split {A} (i : nat) (x y : A) (l : list A) :
  nth_error l i = Some x ->
  exists l1 l2, l = l1 ++ x :: l2 /\ setNth i y l = l1 ++ y :: l2.
Proof.
  revert i; induction l as [|a l IH]; intros [|i] Hi; try discriminate.
  - inversion Hi; subst. exists [], l. auto.
  - destruct (IH i Hi) as (l1 & l2 & -> & E).
    exists (a :: l1), l2. simpl. rewrite E. auto.
Qed.

Lemma nth_error_setNth {A} (i j : nat) (y : A) (l : list A) :
  i < List.length l ->
  nth_error (setNth i y l) j = if Nat.eqb j i then Some y else nth_error l j.
Proof.
  revert i j; induction l as [|a l IH]; intros i j Hi; simpl in Hi; [lia|].
  destruct i as [|i], j as [|j]; simpl; try reflexivity.
  apply IH. lia.
Qed.

Lemma swap_Permutation {A} (arr : list A) (i : nat) (j : Z) :
  Permutation (swap arr i j) arr.
Proof.
  unfold swap.
  destruct (nth_error arr i) as [x|] eqn:Ei; [|reflexivity].
  destruct (index arr j) as [y|] eqn:Ej; [|reflexivity].
  unfold index in Ej. destruct (j <? 0)%Z; [discriminate|].
  assert (Hi : i < List.length arr) by (apply nth_error_Some; congruence).
  destruct (@setNth_split _ i x y arr Ei) as (l1 & l2 & Harr & E1).
  assert (Ej' : nth_error (setNth i y arr) (Z.to_nat j) = Some y).
  { rewrite (@nth_error_setNth _ i (Z.to_nat j) y arr Hi).
    destruct (Nat.eqb _ _); auto. }
  destruct (@setNth_split _ (Z.to_nat j) y x _ Ej') as (m1 & m2 & E2 & E3).
  rewrite E3, Harr.
  rewrite E1 in E2.
  assert (P : Permutation (l1 ++ l2) (m1 ++ m2)).
  { apply Permutation_app_inv with (a := y). rewrite E2. reflexivity. }
  rewrite <- !Permutation_middle. constructor. symmetry. exact P.
Qed.

Lemma shuffleFrom_Permutation {A} (i : nat) (arr : list A) (w : World) :
  Permutation (fst (shuffleFrom i arr w)) arr.
Proof.
  revert arr w; induction i as [|i IH]; intros arr w; [reflexivity|].
  cbn [shuffleFrom]. unfold bind, rnd.
  etransitivity; [apply IH | apply swap_Permutation].
Qed.

(** With a [rnd] of the unit interval, the index drawn by the shuffle
    for position [i] is one of 0, ..., [i]. *)
Lemma shuffle_index_in_range (w : World) (i : nat) :
  unitInterval w ->
  (0 <= floorTimes (fst (rnd w)) (i + 1) <= Z.of_nat i)%Z.
Proof.
  intros Hu. destruct (Hu (rnd_pos w)) as [H0 H1].
  pose proof (@Picks.floorTimes_range (fst (rnd w)) (i + 1) H0 H1
                ltac:(lia)).
  lia.
Qed.

(** *** The loop over the templates *)

Lemma afterTrying_cons (d : Difficulty) (senators : list Senator)
  (t : Template) (ts : list Template) (w : World) :
  afterTrying d senators (t :: ts) w
  = afterTrying d senators ts (snd (tryTemplate (key t) d senators w)).
Proof. reflexivity. Qed.

Lemma allFail_cons (d : Difficulty) (senators : list Senator)
  (t : Template) (ts : list Template) (w : World) :
  allFail d senators (t :: ts) w <->
  isError (fst (tryTemplate (key t) d senators w)) = true
  /\ allFail d senators ts (snd (tryTemplate (key t) d senators w)).
Proof.
  unfold allFail. split.
  - intros Hall. split.
    + apply (Hall [] t ts). reflexivity.
    + intros pre u post ->. apply (Hall (t :: pre) u post). reflexivity.
  - intros [Ht Hall] [|t' pre] u post E; inversion E; subst.
    + exact Ht.
    + rewrite afterTrying_cons. eapply Hall. reflexivity.
Qed.

Lemma tryEach_cons (t : Template) (rest : list Template) (d : Difficulty)
  (senators : list Senator) (w : World) :
  tryEach (t :: rest) d senators w
  = if isError (fst (tryTemplate (key t) d senators w))
    then tryEach rest d senators (snd (tryTemplate (key t) d senators w))
    else tryTemplate (key t) d senators w.
Proof.
  cbn [tryEach]. unfold bind, ret.
  destruct (tryTemplate (key t) d senators w) as [r w1]. cbn [fst snd].
  destruct (isError r); reflexivity.
Qed.

Lemma tryEach_unsolvable (allowed : list Template) (d : Difficulty)
  (senators : list Senator) (w : World) :
  allFail d senators allowed w ->
  tryEach allowed d senators w = (unsolvable, afterTrying d senators allowed w).
Proof.
  revert w; induction allowed as [|t rest IH]; intros w Hall; [reflexivity|].
  apply allFail_cons in Hall as [Ht Hall].
  rewrite tryEach_cons, Ht, afterTrying_cons. apply IH, Hall.
Qed.

Lemma tryEach_question (allowed : list Template) (d : Difficulty)
  (senators : list Senator) (w : World) (q : Question) :
  fst (tryEach allowed d senators w) = AQuestion q ->
  exists before t rest,
    allowed = before ++ t :: rest
    /\ allFail d senators before w
    /\ fst (tryTemplate (key t) d senators (afterTrying d senators before w))
       = AQuestion q.
Proof.
  revert w; induction allowed as [|t rest IH]; intros w Hq; [discriminate|].
  rewrite tryEach_cons in Hq.
  destruct (isError (fst (tryTemplate (key t) d senators w))) eqn:Ht.
  - destruct (IH _ Hq) as (before & u & rest' & -> & Hall & Hu).
    exists (t :: before), u, rest'. split; [reflexivity|]. split.
    + apply allFail_cons. auto.
    + exact Hu.
  - exists [], t, rest. split; [reflexivity|]. split; [|exact Hq].
    intros [|? ?] ? ? E; discriminate.
Qed.

Lemma tryEach_result (allowed : list Template) (d : Difficulty)
  (senators : list Senator) (w : World) :
  (exists q, fst (tryEach allowed d senators w) = AQuestion q)
  \/ (fst (tryEach allowed d senators w) = unsolvable
      /\ allFail d senators allowed w)
  \/ (fst (tryEach allowed d senators w) = ATypeError
      /\ exists before t rest,
           allowed = before ++ t :: rest
           /\ fst (tryTemplate (key t) d senators
                     (afterTrying d senators before w)) = ATypeError).
Proof.
  revert w; induction allowed as [|t rest IH]; intros w.
  - right. left. split; [reflexivity|]. intros [|? ?] ? ? E; discriminate.
  - rewrite tryEach_cons.
    destruct (isError (fst (tryTemplate (key t) d senators w))) eqn:Ht.
    + destruct (IH (snd (tryTemplate (key t) d senators w)))
        as [Hq|[[Hu Hall]|[Hx (before & u & rest' & -> & Hb)]]];
        [left; exact Hq| |].
      * right. left. split; [exact Hu|]. apply allFail_cons. auto.
      * right. right. split; [exact Hx|].
        exists (t :: before), u, rest'. split; [reflexivity | exact Hb].
    + destruct (fst (tryTemplate (key t) d senators w)) as [q|e|] eqn:Er;
        [eauto | discriminate |].
      right. right. split; [reflexivity|].
      exists [], t, rest. split; [reflexivity | exact Er].
Qed.

(** *** The fillers that do not throw *)

Lemma statePartyAnyFrom_returns (n : nat) (senators : list Senator)
  (w : World) :
  fst (statePartyAnyFrom n senators w) <> ATypeError.
Proof.
  revert w; induction n as [|n IH]; intros w; [discriminate|].
  cbn [statePartyAnyFrom]. unfold bind, ret.
  destruct (pickRandom (uniqueStates senators) w) as [o1 w1].
  destruct (pickRandom parties w1) as [o2 w2].
  destruct (1 <=? _); [|apply IH].
  destruct (makeId w2). discriminate.
Qed.

Lemma stateSeniorityFrom_returns (n : nat) (d : Difficulty)
  (senators : list Senator) (w : World) :
  fst (stateSeniorityFrom n d senators w) <> ATypeError.
Proof.
  revert w; induction n as [|n IH]; intros w; [discriminate|].
  cbn [stateSeniorityFrom]. unfold bind, ret.
  destruct (pickRandom (uniqueStates senators) w) as [o1 w1].
  destruct (pickRandom seniorities w1) as [o2 w2].
  destruct (getByStatePartySeniority _ _ _ _) as [|m [|m' r]];
    try apply IH.
  destruct (makeId w2). discriminate.
Qed.

Lemma statePartySeniorityFrom_returns (n : nat) (senators : list Senator)
  (w : World) :
  fst (statePartySeniorityFrom n senators w) <> ATypeError.
Proof.
  revert w; induction n as [|n IH]; intros w; [discriminate|].
  cbn [statePartySeniorityFrom]. unfold bind, ret.
  destruct (pickRandom (uniqueStates senators) w) as [o1 w1].
  destruct (pickRandom parties w1) as [o2 w2].
  destruct (pickRandom seniorities w2) as [o3 w3].
  destruct (getByStatePartySeniority _ _ _ _) as [|m [|m' r]];
    try apply IH.
  destruct (makeId w3). discriminate.
Qed.

Lemma stateAny_returns (senators : list Senator) (w : World) :
  plainStates senators = true -> fst (stateAny senators w) <> ATypeError.
Proof.
  intros Hp. destruct (Grouping.groupByState_plain _ Hp) as [m E].
  unfold stateAny. rewrite E. cbv zeta. unfold bind, ret.
  destruct (pickRandom _ w) as [o w1].
  destruct (_ <? 1); [discriminate|].
  destruct (makeId w1). discriminate.
Qed.

(** With a state that names an inherited property, [stateAny] throws
    before it reads any random number. *)
Lemma stateAny_throws (senators : list Senator) (w : World) :
  plainStates senators = false -> stateAny senators w = (ATypeError, w).
Proof.
  intros Hp. apply Grouping.groupByState_None in Hp.
  unfold stateAny. rewrite Hp. reflexivity.
Qed.

Lemma single_returns (d : Difficulty) (senators : list Senator) (w : World) :
  fst (partyOfPortrait senators w) <> ATypeError
  /\ fst (stateOfPortrait senators w) <> ATypeError
  /\ fst (partyOfRandom d senators w) <> ATypeError
  /\ fst (stateOfRandom d senators w) <> ATypeError
  /\ fst (portraitOnly d senators w) <> ATypeError.
Proof.
  unfold partyOfPortrait, stateOfPortrait, partyOfRandom, stateOfRandom,
    portraitOnly, flipCoin, bind, ret.
  destruct (pickRandom senators w) as [[s|] w1];
    [|repeat split; discriminate].
  split; [|split; [|split; [|split]]];
    try destruct (truthy (portrait s));
    repeat match goal with
           | |- context [mathRandom ?x] => destruct (mathRandom x)
           | |- context [makeId ?x] => destruct (makeId x)
           end;
    discriminate.
Qed.

(** Only [state_any] can throw, and only on a roster with a state that
    names an inherited property. *)
Lemma tryTemplate_returns (k : string) (d : Difficulty)
  (senators : list Senator) (w : World) :
  k <> "state_any"%string \/ plainStates senators = true ->
  fst (tryTemplate k d senators w) <> ATypeError.
Proof.
  intros Hk.
  destruct (single_returns d senators w) as (S1 & S2 & S3 & S4 & S5).
  unfold tryTemplate.
  repeat match goal with
         | |- context [if String.eqb k ?s then _ else _] =>
             destruct (String.eqb_spec k s)
         end;
    try assumption; try discriminate;
    try apply statePartyAnyFrom_returns;
    try apply stateSeniorityFrom_returns;
    try apply statePartySeniorityFrom_returns.
  destruct Hk as [Hk|Hp]; [congruence | apply stateAny_returns, Hp].
Qed.

Lemma hard_templates (t : Template) :
  In t (Templates Hard) -> key t <> "state_any"%string.
Proof.
  simpl. intros [<-|[<-|[<-|[<-|[<-|[]]]]]]; discriminate.
Qed.

(** *** The empty roster *)

Lemma statePartyAnyFrom_empty (n : nat) (w : World) :
  isError (fst (statePartyAnyFrom n [] w)) = true.
Proof.
  revert w; induction n as [|n IH]; intros w; [reflexivity|].
  cbn [statePartyAnyFrom]. unfold bind, ret.
  destruct (pickRandom (uniqueStates []) w) as [st w1].
  destruct (pickRandom parties w1) as [pa w2]. apply IH.
Qed.

Lemma stateSeniorityFrom_empty (n : nat) (d : Difficulty) (w : World) :
  isError (fst (stateSeniorityFrom n d [] w)) = true.
Proof.
  revert w; induction n as [|n IH]; intros w; [reflexivity|].
  cbn [stateSeniorityFrom]. unfold bind, ret.
  destruct (pickRandom (uniqueStates []) w) as [st w1].
  destruct (pickRandom seniorities w1) as [se w2]. apply IH.
Qed.

Lemma statePartySeniorityFrom_empty (n : nat) (w : World) :
  isError (fst (statePartySeniorityFrom n [] w)) = true.
Proof.
  revert w; induction n as [|n IH]; intros w; [reflexivity|].
  cbn [statePartySeniorityFrom]. unfold bind, ret.
  destruct (pickRandom (uniqueStates []) w) as [st w1].
  destruct (pickRandom parties w1) as [pa w2].
  destruct (pickRandom seniorities w2) as [se w3]. apply IH.
Qed.

Lemma tryTemplate_empty (k : string) (d : Difficulty) (w : World) :
  isError (fst (tryTemplate k d [] w)) = true.
Proof.
  unfold tryTemplate.
  repeat match goal with
         | |- context [if String.eqb k ?s then _ else _] =>
             destruct (String.eqb k s)
         end;
    first [ reflexivity
          | apply statePartyAnyFrom_empty
          | apply stateSeniorityFrom_empty
          | apply statePartySeniorityFrom_empty ].
Qed.

(** C5.  With a [rnd] of the unit interval, under Hard for any roster,
    and under Easy for a roster none of whose states names a property that
    objects inherit: [generateQuestion] tries the templates of the tier in
    a shuffled order, a permutation of the tier's list.  It returns a
    question or the failure [unsolvable_template], nothing else, and it
    does not throw.  A question it returns is the one returned by a
    template before which every template of the shuffled list returned an
    error; the failure is returned exactly when every template of the
    shuffled list returns an error; and that is what happens on the empty
    roster. *)
Theorem generateQuestion_returns_question_or_unsolvable (d : Difficulty)
  (senators : list Senator) (w : World) :
  unitInterval w ->
  d = Hard \/ plainStates senators = true ->
  let allowed := fst (shuffleInPlace (Templates d) w) in
  let w1 := snd (shuffleInPlace (Templates d) w) in
  let res := fst (generateQuestion d senators w) in
  Permutation allowed (Templates d)
  /\ ((exists q, res = AQuestion q) \/ res = unsolvable)
  /\ res <> ATypeError
  /\ (forall q, res = AQuestion q ->
        exists before t rest,
          allowed = before ++ t :: rest
          /\ allFail d senators before w1
          /\ fst (tryTemplate (key t) d senators
                    (afterTrying d senators before w1)) = AQuestion q)
  /\ (res = unsolvable <-> allFail d senators allowed w1)
  /\ (senators = [] -> res = unsolvable).
Proof.
  intros _ Hd. cbv zeta.
  assert (E : generateQuestion d senators w
              = tryEach (fst (shuffleInPlace (Templates d) w)) d senators
                  (snd (shuffleInPlace (Templates d) w))).
  { unfold generateQuestion, bind.
    destruct (shuffleInPlace (Templates d) w); reflexivity. }
  rewrite E.
  set (allowed := fst (shuffleInPlace (Templates d) w)).
  set (w1 := snd (shuffleInPlace (Templates d) w)).
  assert (HP : Permutation allowed (Templates d))
    by apply shuffleFrom_Permutation.
  assert (Hno : forall t w', In t allowed ->
            fst (tryTemplate (key t) d senators w') <> ATypeError).
  { intros t w' Ht. apply tryTemplate_returns.
    destruct Hd as [->|Hp]; [left | right; exact Hp].
    apply hard_templates, (Permutation_in t HP Ht). }
  assert (Hres : (exists q, fst (tryEach allowed d senators w1) = AQuestion q)
                 \/ (fst (tryEach allowed d senators w1) = unsolvable
                     /\ allFail d senators allowed w1)).
  { destruct (tryEach_result allowed d senators w1)
      as [Hq|[Hu|[_ (before & t & rest & Ha & Hx)]]]; [auto | auto |].
    exfalso. apply (Hno t (afterTrying d senators before w1)); [|exact Hx].
    rewrite Ha. apply in_elt. }
  split; [exact HP|].
  split; [destruct Hres as [Hq|[Hu _]]; auto|].
  split; [destruct Hres as [[q Hq]|[Hu _]]; rewrite ?Hq, ?Hu; discriminate|].
  split; [intros q; apply tryEach_question|].
  split.
  - split.
    + intros Hu. destruct Hres as [[q Hq]|[_ Hall]]; [|exact Hall].
      rewrite Hq in Hu. discriminate.
    + intros Hall. rewrite (tryEach_unsolvable Hall). reflexivity.
  - intros ->. rewrite tryEach_unsolvable; [reflexivity|].
    intros pre t post _. apply tryTemplate_empty.
Qed.

(** *** What depends on [rnd] alone *)

Lemma alike_ret {A} (R : A -> A -> Prop) (x y : A) :
  R x y -> alike R (ret x) (ret y).
Proof. intros HR w1 w2 Hs. split; assumption. Qed.

Lemma alike_bind {A B} (R1 : A -> A -> Prop) (R2 : B -> B -> Prop)
  (m1 m2 : M A) (k1 k2 : A -> M B) :
  alike R1 m1 m2 ->
  (forall x y, R1 x y -> alike R2 (k1 x) (k2 y)) ->
  alike R2 (bind m1 k1) (bind m2 k2).
Proof.
  intros Hm Hk w1 w2 Hs. unfold bind.
  destruct (Hm w1 w2 Hs) as [HR Hs'].
  destruct (m1 w1) as [x w1'], (m2 w2) as [y w2'].
  exact (Hk x y HR w1' w2' Hs').
Qed.

Lemma alike_rnd : alike eq rnd rnd.
Proof.
  intros w1 w2 [Es Ep]. unfold rnd, sameRnd. simpl.
  rewrite Es, Ep. auto.
Qed.

Lemma alike_mathRandom : alike any mathRandom mathRandom.
Proof. intros w1 w2 [Es Ep]. unfold mathRandom, sameRnd, any. simpl. auto. Qed.

Lemma alike_pickRandom {A} (arr : list A) :
  alike eq (pickRandom arr) (pickRandom arr).
Proof.
  destruct arr as [|a arr]; [apply alike_ret; reflexivity|].
  unfold pickRandom. eapply alike_bind; [apply alike_rnd|].
  intros r ? <-. apply alike_ret. reflexivity.
Qed.

Lemma alike_makeId : alike any makeId makeId.
Proof.
  unfold makeId. eapply alike_bind; [apply alike_mathRandom|].
  intros x y _. apply alike_ret. exact I.
Qed.

Lemma alike_flipCoin : alike any flipCoin flipCoin.
Proof.
  unfold flipCoin. eapply alike_bind; [apply alike_mathRandom|].
  intros x y _. apply alike_ret. exact I.
Qed.

Lemma alike_shuffleFrom {A} (i : nat) (arr : list A) :
  alike eq (shuffleFrom i arr) (shuffleFrom i arr).
Proof.
  revert arr; induction i as [|i IH]; intros arr;
    [apply alike_ret; reflexivity|].
  cbn [shuffleFrom]. eapply alike_bind; [apply alike_rnd|].
  intros r ? <-. apply IH.
Qed.

(** One step of a proof that a filler is [alike] itself: a draw from
    [rnd] gives the same value on both sides, a draw from [Math.random]
    gives two unrelated values. *)
Ltac alike_step :=
  first
    [ apply alike_ret; reflexivity
    | eapply alike_bind;
      [ apply alike_pickRandom | intros ? ? <- ]
    | eapply alike_bind;
      [ apply alike_makeId | intros ? ? _ ]
    | eapply alike_bind;
      [ apply alike_flipCoin | intros [|] [|] _ ] ].

Lemma alike_portraitOnly (d : Difficulty) (senators : list Senator) :
  alike sameButMathRandom (portraitOnly d senators) (portraitOnly d senators).
Proof.
  unfold portraitOnly, sameButMathRandom. alike_step.
  destruct x as [s|]; [|alike_step].
  destruct (truthy (portrait s)); repeat alike_step.
Qed.

Lemma alike_stateAny (senators : list Senator) :
  alike sameButMathRandom (stateAny senators) (stateAny senators).
Proof.
  unfold stateAny, sameButMathRandom.
  destruct (groupByState senators) as [byState|]; [|alike_step].
  cbv zeta. alike_step.
  match goal with |- context [if ?c then _ else _] => destruct c end;
    repeat alike_step.
Qed.

Lemma alike_statePartyAnyFrom (n : nat) (senators : list Senator) :
  alike sameButMathRandom (statePartyAnyFrom n senators)
    (statePartyAnyFrom n senators).
Proof.
  induction n as [|n IH]; cbn [statePartyAnyFrom]; unfold sameButMathRandom;
    [alike_step|].
  do 2 alike_step. cbv zeta.
  match goal with |- context [if ?c then _ else _] => destruct c end;
    [repeat alike_step | exact IH].
Qed.

Lemma alike_stateSeniorityFrom (n : nat) (d : Difficulty)
  (senators : list Senator) :
  alike sameButMathRandom (stateSeniorityFrom n d senators)
    (stateSeniorityFrom n d senators).
Proof.
  induction n as [|n IH]; cbn [stateSeniorityFrom]; unfold sameButMathRandom;
    [alike_step|].
  do 2 alike_step.
  destruct (getByStatePartySeniority _ _ _ _) as [|m [|m' l]];
    [exact IH | repeat alike_step | exact IH].
Qed.

Lemma alike_statePartySeniorityFrom (n : nat) (senators : list Senator) :
  alike sameButMathRandom (statePartySeniorityFrom n senators)
    (statePartySeniorityFrom n senators).
Proof.
  induction n as [|n IH]; cbn [statePartySeniorityFrom];
    unfold sameButMathRandom; [alike_step|].
  do 3 alike_step.
  destruct (getByStatePartySeniority _ _ _ _) as [|m [|m' l]];
    [exact IH | repeat alike_step | exact IH].
Qed.

Lemma alike_named (f : list Senator -> M Generated)
  (senators : list Senator) :
  f = partyOfPortrait \/ f = stateOfPortrait
  \/ (exists d, f = partyOfRandom d) \/ (exists d, f = stateOfRandom d) ->
  alike sameButMathRandom (f senators) (f senators).
Proof.
  intros [->|[->|[[d ->]|[d ->]]]];
    unfold partyOfPortrait, stateOfPortrait, partyOfRandom, stateOfRandom,
      sameButMathRandom;
    alike_step; (destruct x as [s|]; [|alike_step]); repeat alike_step.
Qed.

Lemma alike_tryTemplate (k : string) (d : Difficulty)
  (senators : list Senator) :
  alike sameButMathRandom (tryTemplate k d senators) (tryTemplate k d senators).
Proof.
  unfold tryTemplate.
  repeat match goal with
         | |- context [if String.eqb k ?s then _ else _] =>
             destruct (String.eqb k s)
         end;
    first [ apply alike_portraitOnly
          | apply alike_stateAny
          | apply alike_statePartyAnyFrom
          | apply alike_stateSeniorityFrom
          | apply alike_statePartySeniorityFrom
          | apply alike_named; eauto 6
          | apply alike_ret; reflexivity ].
Qed.

Lemma alike_tryEach (allowed : list Template) (d : Difficulty)
  (senators : list Senator) :
  alike sameButMathRandom (tryEach allowed d senators)
    (tryEach allowed d senators).
Proof.
  induction allowed as [|t rest IH]; cbn [tryEach];
    [apply alike_ret; reflexivity|].
  eapply alike_bind; [apply alike_tryTemplate|].
  intros q1 q2 Hq. unfold sameButMathRandom in Hq.
  destruct q1 as [q1|e1|], q2 as [q2|e2|]; try discriminate; simpl.
  - apply alike_ret. exact Hq.
  - exact IH.
  - apply alike_ret. reflexivity.
Qed.

(** C6, as the code has it.  Two calls of [generateQuestion] with the
    same [rnd], whatever [Math.random] returns to each, read [rnd] the
    same number of times and try the templates in the same shuffled
    order; they return the same failure or two questions with the same
    difficulty, correct answers, allowed answer modes and portrait and,
    for the types that are not coin-driven, the same template, filled
    variables and type.  When [Math.random] is the same stream at the same
    cursor as well, the two results are equal. *)
Theorem generateQuestion_is_determined_by_rnd_and_Math_random
  (d : Difficulty) (senators : list Senator) (w1 w2 : World) :
  sameRnd w1 w2 ->
  fst (shuffleInPlace (Templates d) w1) = fst (shuffleInPlace (Templates d) w2)
  /\ forget (fst (generateQuestion d senators w1))
     = forget (fst (generateQuestion d senators w2))
  /\ sameRnd (snd (generateQuestion d senators w1))
       (snd (generateQuestion d senators w2))
  /\ (math_stream w1 = math_stream w2 -> math_pos w1 = math_pos w2 ->
      generateQuestion d senators w1 = generateQuestion d senators w2).
Proof.
  intros Hs. split; [|split; [|split]].
  - apply (alike_shuffleFrom _ (Templates d) Hs).
  - assert (Hg : alike sameButMathRandom (generateQuestion d senators)
                   (generateQuestion d senators)).
    { unfold generateQuestion. eapply alike_bind; [apply alike_shuffleFrom|].
      intros a ? <-. apply alike_tryEach. }
    apply (Hg w1 w2 Hs).
  - assert (Hg : alike sameButMathRandom (generateQuestion d senators)
                   (generateQuestion d senators)).
    { unfold generateQuestion. eapply alike_bind; [apply alike_shuffleFrom|].
      intros a ? <-. apply alike_tryEach. }
    apply (Hg w1 w2 Hs).
  - intros Em Ep. destruct Hs as [Es Er].
    destruct w1, w2; simpl in *; subst. reflexivity.
Qed.

End HostGenerator.

Lemma state_seniority_question_has_one_match_witness :
  unitInterval (constantWorld (1 # 2))
  /\ wellFormed sampleRoster = true
  /\ exists st se m, filter (matchesPair st se) sampleRoster = [m].
Proof.
  assert (Hu : unitInterval (constantWorld (1 # 2)))
    by (intros k; split; [discriminate | reflexivity]).
  assert (Hwf : wellFormed sampleRoster = true) by reflexivity.
  split; [exact Hu|]. split; [exact Hwf|].
  destruct (@state_seniority_question_has_one_match AsciiHost Easy
              sampleRoster (constantWorld (1 # 2)) Hu Hwf) as (Hq & _ & _).
  destruct (Hq (stateSeniorityQuestion (str "q_i") Easy
                  (Some (str "Vermont")) (Some (str "Senior"))
                  (senator "Bernie Sanders" "Vermont" "Independent" "Senior"
                     "sanders.jpg")) eq_refl)
    as (st & se & m & _ & Hm & _).
  exists st, se, m. exact Hm.
Defined.

Lemma generateQuestion_returns_question_or_unsolvable_witness :
  unitInterval (constantWorld (1 # 2))
  /\ fst (@generateQuestion AsciiHost Easy [] (constantWorld (1 # 2)))
     = unsolvable.
Proof.
  assert (Hu : unitInterval (constantWorld (1 # 2)))
    by (intros k; split; [discriminate | reflexivity]).
  split; [exact Hu|].
  apply (@generateQuestion_returns_question_or_unsolvable AsciiHost Easy []
           (constantWorld (1 # 2)) Hu (or_intror eq_refl)).
  reflexivity.
Defined.

(** C5, as stated, fails: a roster that [loadSenators] returns can hold a
    state that names a property objects inherit, and on Easy, when the
    turn of [state_any] comes, [groupByState] throws a [TypeError] that
    [generateQuestion] does not catch. *)
Lemma generateQuestion_throws_on_an_inherited_state :
  unitInterval (steadyWorld (99 # 100))
  /\ loadSenators
       (Some [Some (rawSenator "Ann Lee" "constructor" "Democrat" "Senior")])
     = oddRoster
  /\ fst (@generateQuestion AsciiHost Easy oddRoster (steadyWorld (99 # 100)))
     = ATypeError.
Proof.
  split; [intros k; split; [discriminate | reflexivity]|].
  split; reflexivity.
Qed.

Lemma generateQuestion_is_determined_by_rnd_and_Math_random_witness :
  sameRnd (constantWorld (1 # 2)) (constantWorld (1 # 4))
  /\ forget (fst (@generateQuestion AsciiHost Hard sampleRoster
                    (constantWorld (1 # 2))))
     = forget (fst (@generateQuestion AsciiHost Hard sampleRoster
                      (constantWorld (1 # 4)))).
Proof.
  assert (Hs : sameRnd (constantWorld (1 # 2)) (constantWorld (1 # 4)))
    by (split; reflexivity).
  split; [exact Hs|].
  apply (@generateQuestion_is_determined_by_rnd_and_Math_random AsciiHost
           Hard sampleRoster _ _ Hs).
Defined.

(** C6, as stated, fails: two calls with the same [rnd] return questions
    with different identifiers when [Math.random] differs. *)
Lemma same_rnd_gives_different_questions :
  sameRnd (constantWorld (1 # 2)) (constantWorld (1 # 4))
  /\ fst (@generateQuestion AsciiHost Hard sampleRoster
            (constantWorld (1 # 2)))
     <> fst (@generateQuestion AsciiHost Hard sampleRoster
               (constantWorld (1 # 4))).
Proof.
  split; [split; reflexivity|].
  intros E.
  apply (f_equal (fun g => match g with
                           | AQuestion q => id q
                           | _ => []
                           end)) in E.
  vm_compute in E. discriminate.
Qed.

(** The coin of [partyOfRandom] comes from [Math.random] too: with the same
    [rnd], the name is shown or not. *)
Example same_rnd_gives_different_wordings :
  let q1 := fst (@partyOfRandom AsciiHost Hard sampleRoster
                   (constantWorld (1 # 2))) in
  let q2 := fst (@partyOfRandom AsciiHost Hard sampleRoster
                   (constantWorld (1 # 4))) in
  (exists q, q1 = AQuestion q /\ type q = "party_text_hard"%string)
  /\ (exists q, q2 = AQuestion q /\ type q = "party_portrait_hard"%string).
Proof. split; eexists; split; reflexivity. Qed.

End GeneratorFacts.

(** ** The embedding at work *)

Module Runs.

Example normalizeName_run :
  normalizeName (str "  John   O'Neil-Smith, Jr. ") = str "john oneilsmith jr".
Proof. reflexivity. Qed.

Example lastNameOf_run : lastNameOf (str "John Smith") = str "smith".
Proof. reflexivity. Qed.

Example lastNameOf_empty : lastNameOf (str "") = str "".
Proof. reflexivity. Qed.

Example levenshtein_run : levenshtein (str "kitten") (str "Sitting") = 3.
Proof. reflexivity. Qed.

Example dpTable_run :
  dpTable (str "ab") (str "ba") = [[0; 1; 2]; [1; 1; 1]; [2; 1; 2]].
Proof. reflexivity. Qed.

Example unique_last_name_accepted :
  let v := Validator.validateAnswer (sampleQuestion Easy [str "John Smith"])
             (str "smith") in
  is_correct v = true /\ accepted_as v = last_name.
Proof. split; reflexivity. Qed.

Example misspelling_accepted :
  withinMisspellingThreshold (str "Sandres") (str "Sanders") = true
  /\ withinMisspellingThreshold (str "Sndrs") (str "Sanders") = true
  /\ withinMisspellingThreshold (str "Sdrs") (str "Sanders") = false.
Proof. repeat split; reflexivity. Qed.

Example shuffle_run :
  map key (fst (shuffleInPlace (Templates Hard) (constantWorld 0)))
  = ["state_seniority"; "state_party_seniority"; "party_of_random";
     "state_of_random"; "portrait_only"]%string.
Proof. reflexivity. Qed.

Example formatDuration_run : formatDuration 754321 = str "12:34".
Proof. reflexivity. Qed.

Example objectKeys_run :
  option_map objectKeys
    (groupByState [senator "A" "b" "Democrat" "Senior" "";
                   senator "B" "10" "Democrat" "Junior" "";
                   senator "C" "2" "Republican" "Senior" "";
                   senator "D" "b" "Republican" "Junior" "";
                   senator "E" "007" "Independent" "Junior" ""])
  = Some [str "2"; str "10"; str "b"; str "007"].
Proof. reflexivity. Qed.

Example groupByState_throws :
  groupByState [senator "A" "Ohio" "Democrat" "Senior" "";
                senator "B" "__proto__" "Democrat" "Junior" ""] = None
  /\ groupByState [senator "A" "toString" "Democrat" "Senior" ""] = None.
Proof. split; reflexivity. Qed.

Example score_of_23_of_40 :
  mathRound (times100 (divide 23 40)) = Num (inject_Z 57)
  /\ mathRound (times100 (divide 1 3)) = Num (inject_Z 33)
  /\ mathRound (times100 (divide 1 200)) = Num (inject_Z 1)
  /\ mathRound (times100 (divide 3 0)) = Infinity.
Proof. repeat split; vm_compute; reflexivity. Qed.

Example empty_session_score :
  GameState.results_score
    (GameState.toResults (GameState.create Easy [] 0) 10) = NaN.
Proof. reflexivity. Qed.

End Runs.

(** * Further properties *)

(** ** Normalized names and last names *)

Module TextFacts.

Lemma spaced_no_double (b : bool) (pre post : jsstring) :
  spaced b (pre ++ space :: space :: post) = false.
Proof.
  revert b; induction pre as [|c pre IH]; intros b.
  - simpl. change (isSpace space) with true. cbv iota.
    apply andb_false_r.
  - simpl. destruct (isSpace c); rewrite IH; [apply andb_false_r | reflexivity].
Qed.

Lemma endsClean_snoc_space (pre : jsstring) : endsClean (pre ++ [space]) = false.
Proof.
  induction pre as [|c pre IH]; [reflexivity|].
  simpl. destruct (pre ++ [space]) eqn:E; [destruct pre; discriminate|].
  exact IH.
Qed.

Lemma split_not_empty (sep : N) (s : jsstring) : split sep s <> [].
Proof.
  induction s as [|c s IH]; simpl; [discriminate|].
  destruct (N.eqb c sep); [discriminate|].
  destruct (split sep s); discriminate.
Qed.

(** The parts and the separators between them make up the string. *)
Lemma split_lengths (sep : N) (s : jsstring) :
  List.length (List.concat (split sep s)) + List.length (split sep s)
  = S (List.length s).
Proof.
  induction s as [|d s IH]; [reflexivity|]. simpl.
  destruct (N.eqb d sep); [simpl; lia|].
  pose proof (split_not_empty sep s).
  destruct (split sep s); [congruence|]. simpl in *. lia.
Qed.

Lemma last_length_concat (p : jsstring) (ps : list jsstring) :
  List.length (last (p :: ps) []) <= List.length (List.concat (p :: ps)).
Proof.
  revert p; induction ps as [|q ps IH]; intros p.
  - simpl. rewrite app_nil_r. lia.
  - change (last (p :: q :: ps) []) with (last (q :: ps) []).
    specialize (IH q). simpl in *. rewrite length_app. lia.
Qed.

(** The last part of a split has no separator, and the string is that
    part alone or ends with a separator followed by that part. *)
Lemma split_last (sep : N) (s : jsstring) :
  ~ In sep (last (split sep s) [])
  /\ (s = last (split sep s) []
      \/ exists pre, s = pre ++ sep :: last (split sep s) []).
Proof.
  induction s as [|c s IH]; [simpl; split; [tauto | left; reflexivity]|].
  destruct IH as [Hno Hsuf].
  pose proof (split_not_empty sep s) as Hne.
  pose proof (split_lengths sep s) as Hlen.
  simpl. destruct (N.eqb_spec c sep) as [->|Hc].
  - destruct (split sep s) as [|p ps] eqn:E; [congruence|].
    change (last ([] :: p :: ps) []) with (last (p :: ps) []).
    split; [exact Hno|]. right.
    destruct Hsuf as [Hs|[pre Hs]].
    + exists []. simpl. f_equal. exact Hs.
    + exists (sep :: pre). simpl. f_equal. exact Hs.
  - destruct (split sep s) as [|p ps] eqn:E; [congruence|].
    destruct ps as [|p' ps].
    + simpl in Hno, Hsuf, Hlen. rewrite app_nil_r in Hlen.
      cbn [last]. split; [intros [F|F]; [congruence | exact (Hno F)]|].
      destruct Hsuf as [Hs|[pre Hs]].
      * left. f_equal. exact Hs.
      * exfalso. apply (f_equal (@List.length N)) in Hs.
        rewrite length_app in Hs. simpl in Hs. lia.
    + change (last ((c :: p) :: p' :: ps) []) with (last (p' :: ps) []).
      change (last (p :: p' :: ps) []) with (last (p' :: ps) []) in Hno, Hsuf.
      split; [exact Hno|]. right.
      destruct Hsuf as [Hs|[pre Hs]].
      * exfalso. apply (f_equal (@List.length N)) in Hs.
        pose proof (last_length_concat p' ps) as Hlast.
        cbn [List.concat List.length] in Hlen. rewrite length_app in Hlen.
        cbn [List.concat] in Hlast. lia.
      * exists (c :: pre). simpl. f_equal. exact Hs.
Qed.

Lemma forallb_suffix {A} (p : A -> bool) (pre l : list A) :
  forallb p (pre ++ l) = true -> forallb p l = true.
Proof. rewrite forallb_app. intros E. apply andb_true_iff in E. tauto. Qed.

Section HostText.

Context {H : Host}.

(** X1.  Whatever the input, [normalizeName] returns lower-case letters,
    digits and spaces only, with no two spaces in a row and no space at
    either end. *)
Theorem normalizeName_shape (s : jsstring) :
  (forall c, In c (normalizeName s) -> isPlain c = true)
  /\ (forall pre post, normalizeName s <> pre ++ space :: space :: post)
  /\ (forall post, normalizeName s <> space :: post)
  /\ (forall pre, normalizeName s <> pre ++ [space]).
Proof.
  pose proof (Normalization.normalizeName_normalized s) as Hn.
  apply Normalization.normalized_parts in Hn as (Hp & Hs & Hb & He).
  split; [|split; [|split]].
  - rewrite forallb_forall in Hp. exact Hp.
  - intros pre post E. rewrite E, spaced_no_double in Hs. discriminate.
  - intros post E. rewrite E in Hb. discriminate.
  - intros pre E. rewrite E, endsClean_snoc_space in He. discriminate.
Qed.

Lemma lastNameOf_no_space (full : jsstring) : ~ In space (lastNameOf full).
Proof. unfold lastNameOf. apply (split_last space (normalizeName full)). Qed.

Lemma lastNameOf_suffix (full : jsstring) :
  normalizeName full = lastNameOf full
  \/ exists pre, normalizeName full = pre ++ space :: lastNameOf full.
Proof. unfold lastNameOf. apply (split_last space (normalizeName full)). Qed.

Lemma lastNameOf_empty_iff (full : jsstring) :
  lastNameOf full = [] <-> normalizeName full = [].
Proof.
  split.
  - intros E. destruct (lastNameOf_suffix full) as [Hs|[pre Hs]];
      rewrite E in Hs; [exact Hs|].
    pose proof (Normalization.normalizeName_normalized full) as Hn.
    apply Normalization.normalized_parts in Hn as (_ & _ & _ & He).
    rewrite Hs, endsClean_snoc_space in He. discriminate.
  - intros E. unfold lastNameOf. rewrite E. reflexivity.
Qed.

(** X3.  [lastNameOf full] has no space; the normalized name is that last
    name alone or ends with a space followed by it; and the last name is
    empty exactly when the normalized name is. *)
Theorem lastNameOf_is_the_last_word (full : jsstring) :
  ~ In space (lastNameOf full)
  /\ (normalizeName full = lastNameOf full
      \/ exists pre, normalizeName full = pre ++ space :: lastNameOf full)
  /\ (lastNameOf full = [] <-> normalizeName full = []).
Proof.
  split; [apply lastNameOf_no_space|].
  split; [apply lastNameOf_suffix | apply lastNameOf_empty_iff].
Qed.

Lemma lastNameOf_plain (full : jsstring) :
  forallb isPlain (lastNameOf full) = true.
Proof.
  pose proof (Normalization.normalizeName_normalized full) as Hn.
  apply Normalization.normalized_parts in Hn as (Hp & _).
  unfold lastNameOf. cbv zeta.
  destruct (split_last space (normalizeName full)) as [_ [Hs|[pre Hs]]].
  - rewrite <- Hs. exact Hp.
  - rewrite Hs in Hp. apply forallb_suffix in Hp.
    cbn [forallb] in Hp. apply andb_true_iff in Hp. tauto.
Qed.

Lemma word_normalized (l : jsstring) :
  forallb isPlain l = true -> ~ In space l -> normalized l = true.
Proof.
  intros Hp Hno.
  assert (Hsp : forall c, In c l -> isSpace c = false).
  { intros c Hc. rewrite forallb_forall in Hp.
    destruct (Normalization.isPlain_cases c (Hp c Hc)) as (_ & _ & E).
    destruct (isSpace c); [|reflexivity].
    exfalso. apply Hno. rewrite <- (E eq_refl). exact Hc. }
  apply Normalization.normalized_parts. split; [exact Hp|].
  clear Hp Hno. split; [|split].
  - generalize false. induction l as [|c l IH]; intros b; [reflexivity|].
    simpl. rewrite (Hsp c (or_introl eq_refl)). apply IH.
    intros d Hd. apply Hsp. right. exact Hd.
  - destruct l as [|c l]; [reflexivity|]. simpl.
    rewrite (Hsp c (or_introl eq_refl)). reflexivity.
  - induction l as [|c l IH]; [reflexivity|]. simpl.
    destruct l as [|d l]; [rewrite (Hsp c (or_introl eq_refl)); reflexivity|].
    apply IH. intros e He. apply Hsp. right. exact He.
Qed.

Lemma split_no_sep (sep : N) (l : jsstring) :
  ~ In sep l -> split sep l = [l].
Proof.
  induction l as [|c l IH]; [reflexivity|]. intros Hno. simpl.
  destruct (N.eqb_spec c sep) as [->|_]; [exfalso; apply Hno; left; reflexivity|].
  rewrite IH; [reflexivity|]. intros F. apply Hno. right. exact F.
Qed.

Context {HL : HostLaws H}.

Lemma lastNameOf_fixed (s : jsstring) :
  normalizeName (lastNameOf s) = lastNameOf s.
Proof.
  apply Normalization.normalizeName_fixed, word_normalized.
  - apply lastNameOf_plain.
  - apply lastNameOf_no_space.
Qed.

Lemma lastNameOf_normalizeName (s : jsstring) :
  lastNameOf (normalizeName s) = lastNameOf s.
Proof.
  unfold lastNameOf. rewrite Normalization.normalizeName_idempotent.
  reflexivity.
Qed.

(** X2.  When the host leaves lower-case letters, digits and spaces
    alone, normalizing twice is normalizing once, a last name is its own
    normalized form and its own last name, and the last name of a
    normalized name is the last name of the name. *)
Theorem normalizeName_is_idempotent (s : jsstring) :
  normalizeName (normalizeName s) = normalizeName s
  /\ normalizeName (lastNameOf s) = lastNameOf s
  /\ lastNameOf (lastNameOf s) = lastNameOf s
  /\ lastNameOf (normalizeName s) = lastNameOf s.
Proof.
  split; [apply Normalization.normalizeName_idempotent|].
  split; [apply lastNameOf_fixed|]. split.
  - unfold lastNameOf at 1. cbv zeta. rewrite lastNameOf_fixed.
    rewrite split_no_sep; [reflexivity | apply lastNameOf_no_space].
  - apply lastNameOf_normalizeName.
Qed.

End HostText.

Lemma normalizeName_is_idempotent_witness :
  HostLaws AsciiHost
  /\ normalizeName (normalizeName (str " Mary-Jo  O'Neil "))
     = normalizeName (str " Mary-Jo  O'Neil ")
  /\ lastNameOf (normalizeName (str " Mary-Jo  O'Neil ")) = str "oneil".
Proof.
  split; [exact AsciiHost_laws|].
  destruct (@normalizeName_is_idempotent AsciiHost AsciiHost_laws
              (str " Mary-Jo  O'Neil ")) as (H1 & _ & _ & H4).
  split; [exact H1|]. rewrite H4. reflexivity.
Defined.

End TextFacts.

(** ** The distance computed by [levenshtein] *)

Module DistanceFacts.

Lemma edit_sym (a b : jsstring) (k : nat) : edit a b k -> edit b a k.
Proof.
  induction 1; [constructor | apply edit_keep | apply edit_substitute
               | apply edit_insert | apply edit_delete]; assumption.
Qed.

Lemma lev_sym (a b : jsstring) : lev a b = lev b a.
Proof.
  apply Nat.le_antisymm;
    apply Distance.lev_is_cheapest, edit_sym, Distance.lev_is_an_alignment.
Qed.

Lemma edit_zero (a b : jsstring) (k : nat) : edit a b k -> k = 0 -> a = b.
Proof.
  induction 1; intros E; try discriminate; [reflexivity|].
  f_equal. auto.
Qed.

Lemma lev_zero (a b : jsstring) : lev a b = 0 <-> a = b.
Proof.
  split.
  - intros E. apply (edit_zero (Distance.lev_is_an_alignment a b) E).
  - intros ->. apply Distance.lev_same.
Qed.

(** An alignment changes the length by at most its cost. *)
Lemma edit_lengths (a b : jsstring) (k : nat) :
  edit a b k ->
  List.length a <= List.length b + k /\ List.length b <= List.length a + k.
Proof. induction 1; simpl; lia. Qed.

(** Substituting as far as the shorter string goes, then inserting or
    deleting the rest. *)
Lemma edit_max (a b : jsstring) :
  exists k, k <= Nat.max (List.length a) (List.length b) /\ edit a b k.
Proof.
  revert b; induction a as [|x a IH]; intros b.
  - exists (List.length b). split; [lia | apply Distance.edit_inserts].
  - destruct b as [|y b].
    + exists (List.length (x :: a)). split; [lia | apply Distance.edit_deletes].
    + destruct (IH b) as (k & Hk & He).
      exists (S k). split; [simpl; lia | apply edit_substitute, He].
Qed.

(** Alignments compose, the costs adding up. *)
Lemma edit_trans (a b : jsstring) (k : nat) :
  edit a b k ->
  forall c l, edit b c l -> exists m, m <= k + l /\ edit a c m.
Proof.
  induction 1 as [|x a b k _ IH|x y a b k _ IH|x a b k _ IH|y a b k _ IH].
  - intros c l Hc. exists l. split; [lia | exact Hc].
  - intros c l Hc. remember (x :: b) as b0 eqn:Eb.
    induction Hc as [|z b1 c l Hc _|z z' b1 c l Hc _|z b1 c l Hc _|z b1 c l Hc IHc];
      try discriminate.
    + inversion Eb; subst. destruct (IH _ _ Hc) as (m & Hm & He).
      exists m. split; [lia | apply edit_keep, He].
    + inversion Eb; subst. destruct (IH _ _ Hc) as (m & Hm & He).
      exists (S m). split; [lia | apply edit_substitute, He].
    + inversion Eb; subst. destruct (IH _ _ Hc) as (m & Hm & He).
      exists (S m). split; [lia | apply edit_delete, He].
    + destruct (IHc Eb) as (m & Hm & He).
      exists (S m). split; [lia | apply edit_insert, He].
  - intros c l Hc. remember (y :: b) as b0 eqn:Eb.
    induction Hc as [|z b1 c l Hc _|z z' b1 c l Hc _|z b1 c l Hc _|z b1 c l Hc IHc];
      try discriminate.
    + inversion Eb; subst. destruct (IH _ _ Hc) as (m & Hm & He).
      exists (S m). split; [lia | apply edit_substitute, He].
    + inversion Eb; subst. destruct (IH _ _ Hc) as (m & Hm & He).
      exists (S m). split; [lia | apply edit_substitute, He].
    + inversion Eb; subst. destruct (IH _ _ Hc) as (m & Hm & He).
      exists (S m). split; [lia | apply edit_delete, He].
    + destruct (IHc Eb) as (m & Hm & He).
      exists (S m). split; [lia | apply edit_insert, He].
  - intros c l Hc. destruct (IH _ _ Hc) as (m & Hm & He).
    exists (S m). split; [lia | apply edit_delete, He].
  - intros c l Hc. remember (y :: b) as b0 eqn:Eb.
    induction Hc as [|z b1 c l Hc _|z z' b1 c l Hc _|z b1 c l Hc _|z b1 c l Hc IHc];
      try discriminate.
    + inversion Eb; subst. destruct (IH _ _ Hc) as (m & Hm & He).
      exists (S m). split; [lia | apply edit_insert, He].
    + inversion Eb; subst. destruct (IH _ _ Hc) as (m & Hm & He).
      exists (S m). split; [lia | apply edit_insert, He].
    + inversion Eb; subst. destruct (IH _ _ Hc) as (m & Hm & He).
      exists m. split; [lia | exact He].
    + destruct (IHc Eb) as (m & Hm & He).
      exists (S m). split; [lia | apply edit_insert, He].
Qed.

Lemma lev_triangle (a b c : jsstring) : lev a c <= lev a b + lev b c.
Proof.
  destruct (edit_trans (Distance.lev_is_an_alignment a b)
              (Distance.lev_is_an_alignment b c)) as (m & Hm & He).
  pose proof (Distance.lev_is_cheapest He). lia.
Qed.

Section HostDistanceFacts.

Context {H : Host}.

(** X4.  [levenshtein] is symmetric, and it is 0 exactly when the two
    strings have the same normalized form. *)
Theorem levenshtein_symmetric_and_zero_on_equals (a b : jsstring) :
  levenshtein a b = levenshtein b a
  /\ (levenshtein a b = 0 <-> normalizeName a = normalizeName b).
Proof.
  rewrite !Distance.levenshtein_lev. split; [apply lev_sym | apply lev_zero].
Qed.

(** X5.  [levenshtein] obeys the triangle inequality. *)
Theorem levenshtein_triangle (a b c : jsstring) :
  levenshtein a c <= levenshtein a b + levenshtein b c.
Proof. rewrite !Distance.levenshtein_lev. apply lev_triangle. Qed.

(** X6.  [levenshtein] is at least the difference of the two normalized
    lengths and at most the larger of them. *)
Theorem levenshtein_bounds (a b : jsstring) :
  List.length (normalizeName a) <= List.length (normalizeName b) + levenshtein a b
  /\ List.length (normalizeName b) <= List.length (normalizeName a) + levenshtein a b
  /\ levenshtein a b
     <= Nat.max (List.length (normalizeName a)) (List.length (normalizeName b)).
Proof.
  rewrite Distance.levenshtein_lev.
  destruct (edit_lengths (Distance.lev_is_an_alignment (normalizeName a)
                            (normalizeName b))) as [H1 H2].
  destruct (edit_max (normalizeName a) (normalizeName b)) as (k & Hk & He).
  pose proof (Distance.lev_is_cheapest He). lia.
Qed.

End HostDistanceFacts.

End DistanceFacts.

(** ** More on the validator *)

Module ValidatorMore.
Import Validator.

Lemma correct_is_not_a_rejection (q : Question) :
  str "Correct." <> hardFeedback q
  /\ str "Correct." <> ambiguousFeedback
  /\ str "Correct." <> notQuiteFeedback
  /\ hardFeedback q <> ambiguousFeedback
  /\ notQuiteFeedback <> ambiguousFeedback.
Proof.
  unfold hardFeedback. repeat split; intros E; cbn in E; discriminate.
Qed.

Section HostValidatorMore.

Context {H : Host}.

(** The verdict of the Easy branch, as one boolean. *)
Lemma easy_verdict (q : Question) (input : jsstring) :
  difficulty q = Easy ->
  let inputNorm := normalizeName input in
  let last := lastNameOf inputNorm in
  is_correct (validateAnswer q input)
  = (includes (map normalizeName (correct_answers q)) inputNorm
     || (Nat.eqb (List.length
                    (filter (fun a => streq (lastNameOf a) last)
                       (correct_answers q))) 1 && truthy last)
     || existsb (fun ans => withinMisspellingThreshold inputNorm ans)
          (correct_answers q)
     || existsb (fun ans => withinMisspellingThreshold last (lastNameOf ans)
                            && truthy last) (correct_answers q))%bool.
Proof.
  intros Hd. cbv zeta. unfold validateAnswer. rewrite Hd.
  destruct (includes _ _); [reflexivity|].
  destruct (_ && _); [reflexivity|].
  destruct (existsb _ _); [reflexivity|].
  destruct (existsb _ _); [reflexivity|].
  destruct (1 <? _); reflexivity.
Qed.

(** X9.  Every verdict carries the identifier of the question and the
    input as it was typed; its feedback is "Correct." exactly when it is
    correct; and a rejection is always labelled [full_name]. *)
Theorem verdict_fields (q : Question) (input : jsstring) :
  let v := validateAnswer q input in
  question_id v = id q
  /\ user_input v = input
  /\ (is_correct v = true <-> feedback v = str "Correct.")
  /\ (is_correct v = false -> accepted_as v = full_name).
Proof.
  destruct (correct_is_not_a_rejection q) as (N1 & N2 & N3 & _).
  cbv zeta. unfold validateAnswer.
  destruct (difficulty q).
  - destruct (includes _ _); [|destruct (_ && _); [|destruct (existsb _ _);
      [|destruct (existsb _ _); [|destruct (1 <? _)]]]];
      cbn [question_id user_input is_correct accepted_as feedback ok];
      repeat split; intros; try reflexivity; try discriminate; congruence.
  - destruct (includes _ _);
      cbn [question_id user_input is_correct accepted_as feedback];
      repeat split; intros; try reflexivity; try discriminate; congruence.
Qed.

(** X11.  Easy is at least as lenient as Hard: an input accepted for a
    Hard question is accepted, as a full name, for an Easy question with
    the same correct answers. *)
Theorem easy_accepts_what_hard_accepts (qHard qEasy : Question)
  (input : jsstring) :
  difficulty qHard = Hard ->
  difficulty qEasy = Easy ->
  correct_answers qEasy = correct_answers qHard ->
  is_correct (validateAnswer qHard input) = true ->
  is_correct (validateAnswer qEasy input) = true
  /\ accepted_as (validateAnswer qEasy input) = full_name.
Proof.
  intros Hh He Ha Hc.
  rewrite (ValidatorFacts.hard_verdict _ _ Hh) in Hc.
  unfold validateAnswer. rewrite He, Ha, Hc. auto.
Qed.

Context {HL : HostLaws H}.

Lemma within_lev (x y : jsstring) :
  withinMisspellingThreshold x y
  = (lev (normalizeName x) (normalizeName y) <=? threshold (normalizeName y)).
Proof.
  unfold withinMisspellingThreshold, threshold.
  rewrite Distance.levenshtein_lev, !Normalization.normalizeName_idempotent.
  destruct (7 <=? _); reflexivity.
Qed.

(** X7.  A string is always within the misspelling threshold of itself,
    and two strings within the threshold have normalized lengths that
    differ by at most 2. *)
Theorem misspelling_threshold_needs_similar_lengths (input target : jsstring) :
  withinMisspellingThreshold input input = true
  /\ (withinMisspellingThreshold input target = true ->
      List.length (normalizeName input) <= List.length (normalizeName target) + 2
      /\ List.length (normalizeName target) <= List.length (normalizeName input) + 2).
Proof.
  rewrite !within_lev. split.
  - rewrite Distance.lev_same. reflexivity.
  - intros E. apply Nat.leb_le in E.
    destruct (DistanceFacts.edit_lengths
                (Distance.lev_is_an_alignment (normalizeName input)
                   (normalizeName target))) as [H1 H2].
    assert (threshold (normalizeName target) <= 2)
      by (unfold threshold; destruct (7 <=? _); lia).
    lia.
Qed.

(** X8.  Under Easy an input is accepted exactly when, for some correct
    answer, the Levenshtein distance of the normalized input and the
    normalized answer is within the threshold of the answer (2 from length
    7 on, 1 below), or the last name of the input is not empty and its
    distance to the last name of the answer is within the threshold of
    that last name. *)
Theorem easy_acceptance_characterized (q : Question) (input : jsstring) :
  difficulty q = Easy ->
  (is_correct (validateAnswer q input) = true <->
   exists a d,
     In a (correct_answers q)
     /\ ((editDistance (normalizeName input) (normalizeName a) d
          /\ d <= threshold (normalizeName a))
         \/ (lastNameOf input <> []
             /\ editDistance (lastNameOf input) (lastNameOf a) d
             /\ d <= threshold (lastNameOf a)))).
Proof.
  intros Hd. rewrite (easy_verdict _ _ Hd). cbv zeta.
  rewrite TextFacts.lastNameOf_normalizeName.
  assert (Hfull : forall a,
    withinMisspellingThreshold (normalizeName input) a
    = (lev (normalizeName input) (normalizeName a)
       <=? threshold (normalizeName a))).
  { intros a. rewrite within_lev, Normalization.normalizeName_idempotent.
    reflexivity. }
  assert (Hlast : forall a,
    withinMisspellingThreshold (lastNameOf input) (lastNameOf a)
    = (lev (lastNameOf input) (lastNameOf a) <=? threshold (lastNameOf a))).
  { intros a. rewrite within_lev, !TextFacts.lastNameOf_fixed. reflexivity. }
  assert (Htruthy : truthy (lastNameOf input) = true <-> lastNameOf input <> []).
  { destruct (lastNameOf input); simpl; split; congruence. }
  split.
  - intros E. repeat rewrite orb_true_iff in E.
    destruct E as [[[E|E]|E]|E].
    + apply includes_spec, in_map_iff in E as (a & Ea & Ha).
      exists a, 0. split; [exact Ha|]. left. split.
      * rewrite Ea. split; [apply Distance.edit_refl | lia].
      * lia.
    + apply andb_true_iff in E as [E Et]. apply Nat.eqb_eq in E.
      destruct (filter _ _) as [|a l] eqn:Ef; [discriminate|].
      assert (Hin : In a (filter (fun a => streq (lastNameOf a)
                                             (lastNameOf input))
                            (correct_answers q)))
        by (rewrite Ef; left; reflexivity).
      apply filter_In in Hin as [Ha Es]. apply streq_spec in Es.
      exists a, 0. split; [exact Ha|]. right.
      split; [apply Htruthy, Et|]. split; [|lia].
      rewrite Es. split; [apply Distance.edit_refl | lia].
    + apply existsb_exists in E as (a & Ha & E).
      rewrite Hfull in E. apply Nat.leb_le in E.
      exists a, (lev (normalizeName input) (normalizeName a)).
      split; [exact Ha|]. left.
      split; [apply Distance.lev_editDistance | exact E].
    + apply existsb_exists in E as (a & Ha & E).
      apply andb_true_iff in E as [E Et].
      rewrite Hlast in E. apply Nat.leb_le in E.
      exists a, (lev (lastNameOf input) (lastNameOf a)).
      split; [exact Ha|]. right. split; [apply Htruthy, Et|].
      split; [apply Distance.lev_editDistance | exact E].
  - intros (a & d & Ha & [[Hed Hle]|[Hne [Hed Hle]]]).
    + assert (E : existsb (fun ans =>
                    withinMisspellingThreshold (normalizeName input) ans)
                    (correct_answers q) = true).
      { apply existsb_exists. exists a. split; [exact Ha|].
        rewrite Hfull. apply Nat.leb_le.
        rewrite (Distance.editDistance_unique
                   (Distance.lev_editDistance _ _) Hed). exact Hle. }
      rewrite E. rewrite orb_true_r. reflexivity.
    + assert (E : existsb (fun ans =>
                    withinMisspellingThreshold (lastNameOf input)
                      (lastNameOf ans) && truthy (lastNameOf input))
                    (correct_answers q) = true).
      { apply existsb_exists. exists a. split; [exact Ha|].
        apply andb_true_iff. split; [|apply Htruthy, Hne].
        rewrite Hlast. apply Nat.leb_le.
        rewrite (Distance.editDistance_unique
                   (Distance.lev_editDistance _ _) Hed). exact Hle. }
      rewrite E. apply orb_true_r.
Qed.

(** X10.  No verdict is the rejection for an ambiguous last name: when
    several correct answers share the last name of the input, the input is
    accepted. *)
Theorem ambiguity_is_never_reported (q : Question) (input : jsstring) :
  feedback (validateAnswer q input) <> ambiguousFeedback.
Proof.
  destruct (correct_is_not_a_rejection q) as (N1 & N2 & N3 & N4 & N5).
  unfold validateAnswer. destruct (difficulty q).
  2:{ destruct (includes _ _); cbn [feedback]; congruence. }
  destruct (includes _ _) eqn:Ei; [cbn [feedback ok]; congruence|].
  destruct (_ && _); [cbn [feedback ok]; congruence|].
  destruct (existsb _ _); [cbn [feedback ok]; congruence|].
  destruct (existsb _ _) eqn:E2; [cbn [feedback ok]; congruence|].
  destruct (1 <? _) eqn:El; [|cbn [feedback]; congruence].
  exfalso. apply Nat.ltb_lt in El.
  destruct (filter _ _) as [|a l] eqn:Ef; [simpl in El; lia|].
  assert (Hin : In a (filter (fun a => streq (lastNameOf a)
                                         (lastNameOf (normalizeName input)))
                        (correct_answers q)))
    by (rewrite Ef; left; reflexivity).
  apply filter_In in Hin as [Ha Es]. apply streq_spec in Es.
  destruct (truthy (lastNameOf (normalizeName input))) eqn:Et.
  - assert (E : existsb (fun ans =>
                  withinMisspellingThreshold (lastNameOf (normalizeName input))
                    (lastNameOf ans)
                  && truthy (lastNameOf (normalizeName input)))
                  (correct_answers q) = true).
    { apply existsb_exists. exists a. split; [exact Ha|].
      rewrite Et, andb_true_r, Es, within_lev, Distance.lev_same.
      reflexivity. }
    rewrite Et in E. congruence.
  - assert (E0 : lastNameOf (normalizeName input) = [])
      by (destruct (lastNameOf _); [reflexivity | discriminate]).
    rewrite E0 in Es.
    apply TextFacts.lastNameOf_empty_iff in E0, Es.
    rewrite Normalization.normalizeName_idempotent in E0.
    assert (E : includes (map normalizeName (correct_answers q))
                  (normalizeName input) = true).
    { apply includes_spec. rewrite E0, <- Es. apply in_map, Ha. }
    congruence.
Qed.

End HostValidatorMore.

Lemma easy_accepts_what_hard_accepts_witness :
  difficulty (sampleQuestion Hard [str "John Smith"]) = Hard
  /\ difficulty (sampleQuestion Easy [str "John Smith"]) = Easy
  /\ is_correct (validateAnswer (sampleQuestion Hard [str "John Smith"])
                   (str "JOHN  SMITH")) = true
  /\ is_correct (validateAnswer (sampleQuestion Easy [str "John Smith"])
                   (str "JOHN  SMITH")) = true.
Proof.
  assert (Hc : is_correct (validateAnswer (sampleQuestion Hard [str "John Smith"])
                             (str "JOHN  SMITH")) = true) by reflexivity.
  split; [reflexivity|]. split; [reflexivity|]. split; [exact Hc|].
  apply (@easy_accepts_what_hard_accepts AsciiHost
           (sampleQuestion Hard [str "John Smith"])
           (sampleQuestion Easy [str "John Smith"]) (str "JOHN  SMITH")
           eq_refl eq_refl eq_refl Hc).
Defined.

Lemma misspelling_threshold_needs_similar_lengths_witness :
  HostLaws AsciiHost
  /\ withinMisspellingThreshold (str "Warren") (str "Warren") = true.
Proof.
  split; [exact AsciiHost_laws|].
  apply (@misspelling_threshold_needs_similar_lengths AsciiHost AsciiHost_laws
           (str "Warren") (str "Warren")).
Defined.

Lemma easy_acceptance_characterized_witness :
  HostLaws AsciiHost
  /\ difficulty (sampleQuestion Easy [str "Bernie Sanders"]) = Easy
  /\ is_correct (validateAnswer (sampleQuestion Easy [str "Bernie Sanders"])
                   (str "Sandres")) = true.
Proof.
  split; [exact AsciiHost_laws|]. split; [reflexivity|].
  apply (@easy_acceptance_characterized AsciiHost AsciiHost_laws
           (sampleQuestion Easy [str "Bernie Sanders"]) (str "Sandres")
           eq_refl).
  exists (str "Bernie Sanders"), 2. split; [left; reflexivity|].
  right. split; [discriminate|]. split; [|vm_compute; lia].
  exact (Distance.lev_editDistance (str "sandres") (str "sanders")).
Defined.

Lemma ambiguity_is_never_reported_witness :
  HostLaws AsciiHost
  /\ feedback (validateAnswer
                 (sampleQuestion Easy [str "John Smith"; str "Jane Smith"])
                 (str "smith")) <> ambiguousFeedback.
Proof.
  split; [exact AsciiHost_laws|].
  apply (@ambiguity_is_never_reported AsciiHost AsciiHost_laws).
Defined.

End ValidatorMore.

(** ** The data helpers *)

Module DataFacts.

(** X12.  [uniqueStates] lists every state of the roster, each once. *)
Theorem uniqueStates_lists_each_state_once (senators : list Senator) :
  NoDup (uniqueStates senators)
  /\ (forall st, In st (uniqueStates senators) <->
                 exists s, In s senators /\ state s = st).
Proof.
  unfold uniqueStates.
  destruct (Grouping.addNew_spec [] (map state senators)) as [Hnd Hin].
  split; [exact Hnd|]. intros st. rewrite Hin, in_map_iff.
  split; [intros [(s & E & Hs) _]; eauto | intros (s & Hs & E); split; eauto].
Qed.

Lemma plainStates_false (senators : list Senator) :
  plainStates senators = false
  <-> exists s, In s senators /\ inherited (state s) = true.
Proof.
  unfold plainStates. induction senators as [|s l IH]; simpl.
  - split; [discriminate | intros (s & [] & _)].
  - destruct (inherited (state s)) eqn:E; simpl.
    + split; [eauto | reflexivity].
    + rewrite IH. split.
      * intros (s' & Hs & E'). eauto.
      * intros (s' & [<-|Hs] & E'); [congruence | eauto].
Qed.

(** X13.  [groupByState] throws a [TypeError] exactly when a state of the
    roster names a property that objects inherit.  Otherwise the object it
    returns has one key per state of the roster; [Object.keys] lists the
    states that are array indices first, in ascending order, then the
    others in the order of [uniqueStates], which is all of them in that
    order when no state is an array index; under a key are the senators
    of that state, in roster order, never an empty list; and a state no
    senator has is not a key. *)
Theorem groupByState_groups_by_state (senators : list Senator) :
  (groupByState senators = None
   <-> exists s, In s senators /\ inherited (state s) = true)
  /\ (forall byState, groupByState senators = Some byState ->
        (forall st, In st (objectKeys byState)
                    <-> exists s, In s senators /\ state s = st)
        /\ (exists indices,
              objectKeys byState
              = map snd indices ++ filter isNamed (uniqueStates senators)
              /\ StronglySorted (fun x y => (fst x <= fst y)%N) indices
              /\ forall i k, In (i, k) indices
                             <-> In k (uniqueStates senators)
                                 /\ arrayIndex k = Some i)
        /\ ((forall s, In s senators -> arrayIndex (state s) = None) ->
            objectKeys byState = uniqueStates senators)
        /\ (forall st v, lookup st byState = Some v ->
              v = filter (fun s => streq (state s) st) senators /\ v <> [])
        /\ (forall st, lookup st byState = None <->
                       forall s, In s senators -> state s <> st)).
Proof.
  split.
  - rewrite Grouping.groupByState_None. apply plainStates_false.
  - intros byState E.
    destruct (Grouping.groupByState_Some _ E) as (Hk & Hl & _).
    split; [|split; [|split; [|split]]].
    + intros st. rewrite Grouping.objectKeys_In, Hk.
      apply Grouping.uniqueStates_state.
    + exists (indexKeys (uniqueStates senators)). unfold objectKeys.
      rewrite Hk. split; [reflexivity|].
      split; [apply Grouping.indexKeys_sorted|].
      intros i k. apply Grouping.indexKeys_In.
    + intros Hn. rewrite <- Hk. apply Grouping.objectKeys_named.
      rewrite Hk. intros k Hin.
      apply Grouping.uniqueStates_state in Hin as (s & Hs & <-). auto.
    + intros st v. rewrite Hl.
      destruct (filter _ senators); [discriminate|].
      intros F. inversion F. split; [reflexivity | discriminate].
    + intros st. rewrite Hl.
      destruct (filter _ senators) as [|s0 l] eqn:F.
      * split; [|reflexivity]. intros _ s Hs Est.
        assert (Hin : In s (filter (fun s => streq (state s) st) senators)).
        { apply filter_In. split; [exact Hs | apply streq_spec, Est]. }
        rewrite F in Hin. exact Hin.
      * split; [discriminate|]. intros Hall. exfalso.
        assert (Hin : In s0 (filter (fun s => streq (state s) st) senators))
          by (rewrite F; left; reflexivity).
        apply filter_In in Hin as [Hs Est]. apply streq_spec in Est.
        exact (Hall s0 Hs Est).
Qed.

(** X14.  [getByStatePartySeniority] returns the senators that agree with
    every criterion given, a criterion that is missing or the empty string
    not counting; with no criterion it returns the roster. *)
Theorem getByStatePartySeniority_keeps_the_matches (senators : list Senator)
  (st pa se : option jsstring) :
  (forall s, In s (getByStatePartySeniority senators st pa se) <->
     In s senators
     /\ (forall c, st = Some c -> c <> [] -> state s = c)
     /\ (forall c, pa = Some c -> c <> [] -> party s = c)
     /\ (forall c, se = Some c -> c <> [] -> seniority s = c))
  /\ getByStatePartySeniority senators (Some []) pa se
     = getByStatePartySeniority senators None pa se
  /\ getByStatePartySeniority senators None None None = senators.
Proof.
  assert (Hrej : forall c f,
    rejects c f = false <-> (forall x, c = Some x -> x <> [] -> f = x)).
  { intros [x|] f; simpl.
    - destruct x as [|n x]; simpl.
      + split; [intros _ y E; inversion E; congruence | reflexivity].
      + rewrite negb_false_iff, streq_spec.
        split; [intros -> y E _; inversion E; reflexivity|].
        intros Hx. apply Hx; [reflexivity | discriminate].
    - split; [intros _ x E; discriminate | reflexivity]. }
  split; [|split].
  - intros s. unfold getByStatePartySeniority. rewrite filter_In.
    rewrite <- !Hrej.
    destruct (rejects st (state s)), (rejects pa (party s)),
      (rejects se (seniority s)); intuition congruence.
  - reflexivity.
  - unfold getByStatePartySeniority. simpl.
    induction senators as [|s l IH]; [reflexivity|]. simpl. f_equal. exact IH.
Qed.

End DataFacts.

(** ** More on the generator *)

Module GeneratorMore.
Import Generator.

(** What a pick does to the world and what it can return. *)
Lemma pick_cases {A} (arr : list A) (w w' : World) (o : option A) :
  unitInterval w ->
  pickRandom arr w = (o, w') ->
  unitInterval w'
  /\ ((arr = [] /\ o = None) \/ (exists x, o = Some x /\ In x arr)).
Proof.
  intros Hu E.
  pose proof (Picks.pickRandom_unitInterval arr Hu) as Hu'.
  rewrite E in Hu'. split; [exact Hu'|].
  destruct arr as [|a arr].
  - left. inversion E. auto.
  - right. destruct (@Picks.pickRandom_Some _ (a :: arr) w Hu ltac:(discriminate))
      as (x & Hx).
    pose proof (Picks.pickRandom_In _ _ Hx) as Hin.
    rewrite E in Hx. simpl in Hx. eauto.
Qed.

Lemma shuffleFrom_cursors {A} (i : nat) (arr : list A) (w : World) :
  let w' := snd (shuffleFrom i arr w) in
  rnd_pos w' = rnd_pos w + i /\ math_pos w' = math_pos w
  /\ rnd_stream w' = rnd_stream w /\ math_stream w' = math_stream w.
Proof.
  revert arr w; induction i as [|i IH]; intros arr w; cbv zeta.
  - simpl. repeat split. lia.
  - cbn [shuffleFrom]. unfold bind, rnd.
    destruct (IH (swap arr (S i)
                    (floorTimes (rnd_stream w (rnd_pos w)) (S i + 1)))
                {| rnd_stream := rnd_stream w; rnd_pos := S (rnd_pos w);
                   math_stream := math_stream w; math_pos := math_pos w |})
      as (H1 & H2 & H3 & H4).
    cbn [rnd_pos math_pos rnd_stream math_stream] in *.
    repeat split; try assumption. lia.
Qed.

(** X21.  [pickRandom] returns [null] without reading [rnd] on an empty
    array; on an array that is not empty it reads [rnd] once and, [rnd]
    being of the unit interval, returns one of the elements.  It never
    reads [Math.random]. *)
Theorem pickRandom_picks_an_element {A} (arr : list A) (w : World) :
  unitInterval w ->
  let o := fst (pickRandom arr w) in
  let w' := snd (pickRandom arr w) in
  (arr = [] -> o = None /\ w' = w)
  /\ (arr <> [] -> (exists x, o = Some x /\ In x arr)
                   /\ rnd_pos w' = S (rnd_pos w))
  /\ math_pos w' = math_pos w.
Proof.
  intros Hu. cbv zeta. split; [|split].
  - intros ->. auto.
  - intros Hne. split.
    + destruct (Picks.pickRandom_Some Hu Hne) as (x & Hx).
      exists x. split; [exact Hx | exact (Picks.pickRandom_In _ _ Hx)].
    + destruct arr; [congruence | reflexivity].
  - apply Picks.pickRandom_streams.
Qed.

(** X22.  With a [rnd] of the unit interval, [shuffleInPlace] returns a
    permutation of the array, of the same length, after reading [rnd] once
    per element but the first, and without reading [Math.random]. *)
Theorem shuffleInPlace_permutes {A} (arr : list A) (w : World) :
  unitInterval w ->
  let shuffled := fst (shuffleInPlace arr w) in
  let w' := snd (shuffleInPlace arr w) in
  Permutation shuffled arr
  /\ List.length shuffled = List.length arr
  /\ rnd_pos w' = rnd_pos w + (List.length arr - 1)
  /\ math_pos w' = math_pos w.
Proof.
  intros _. cbv zeta. unfold shuffleInPlace.
  pose proof (GeneratorFacts.shuffleFrom_Permutation
                (List.length arr - 1) arr w) as HP.
  destruct (shuffleFrom_cursors (List.length arr - 1) arr w)
    as (H1 & H2 & _).
  repeat split; try assumption.
  apply Permutation_length, HP.
Qed.

Lemma unitInterval_constant (x : Q) : unitInterval (constantWorld x).
Proof. intros k. split; [discriminate | reflexivity]. Qed.

Lemma pickRandom_picks_an_element_witness :
  unitInterval (constantWorld (1 # 2))
  /\ exists x, fst (pickRandom [5; 6; 7] (constantWorld (1 # 2))) = Some x
               /\ In x [5; 6; 7].
Proof.
  split; [apply unitInterval_constant|].
  apply (pickRandom_picks_an_element [5; 6; 7]
           (unitInterval_constant (1 # 2))).
  discriminate.
Defined.

Lemma shuffleInPlace_permutes_witness :
  unitInterval (constantWorld (1 # 2))
  /\ Permutation (fst (shuffleInPlace [1; 2; 3] (constantWorld (1 # 2))))
       [1; 2; 3].
Proof.
  split; [apply unitInterval_constant|].
  apply (shuffleInPlace_permutes [1; 2; 3] (unitInterval_constant (1 # 2))).
Defined.

Lemma uniqueStates_lookup (senators : list Senator)
  (m : list (jsstring * list Senator)) (st : jsstring) :
  groupByState senators = Some m ->
  In st (uniqueStates senators) ->
  exists v, lookup st m = Some v
            /\ v = filter (fun s => streq (state s) st) senators
            /\ v <> [].
Proof.
  intros Em Hst. apply GeneratorFacts.uniqueStates_In in Hst as (s & Hs & E).
  destruct (Grouping.groupByState_Some _ Em) as (_ & Hl & _). rewrite Hl.
  destruct (filter _ senators) as [|s0 l] eqn:Ef.
  - exfalso.
    assert (Hin : In s (filter (fun s => streq (state s) st) senators))
      by (apply filter_In; split; [exact Hs | apply streq_spec, E]).
    rewrite Ef in Hin. exact Hin.
  - eexists. split; [reflexivity|]. split; [reflexivity | discriminate].
Qed.

Lemma objectKeys_states (senators : list Senator)
  (m : list (jsstring * list Senator)) (st : jsstring) :
  groupByState senators = Some m ->
  In st (objectKeys m) <-> In st (uniqueStates senators).
Proof.
  intros Em. destruct (Grouping.groupByState_Some _ Em) as (Hk & _).
  rewrite Grouping.objectKeys_In, Hk. tauto.
Qed.

(** Every key of [groupByState] passes the test of [stateAny]. *)
Lemma stateAny_states (senators : list Senator)
  (m : list (jsstring * list Senator)) :
  groupByState senators = Some m ->
  filter (fun st => match lookup st m with
                    | Some v => 1 <=? List.length v
                    | None => false
                    end) (objectKeys m)
  = objectKeys m.
Proof.
  intros Em. apply GameStateFacts.filter_all.
  apply forallb_forall. intros st Hst.
  apply (@objectKeys_states _ _ _ Em) in Hst.
  destruct (@uniqueStates_lookup _ _ _ Em Hst) as (v & -> & _ & Hne).
  destruct v; [congruence | reflexivity].
Qed.

Section HostGeneratorMore.

Context {H : Host}.

(** X15.  With a [rnd] of the unit interval.  On a roster none of whose
    states names a property that objects inherit, [stateAny] fails exactly
    on the empty roster; on any other it returns a question filled with a
    state of the roster whose correct answers are the official names of
    all the senators of that state, in roster order, at least one.  On a
    roster with such a state it throws, without reading a random
    number. *)
Theorem stateAny_names_all_senators_of_a_state (senators : list Senator)
  (w : World) :
  unitInterval w ->
  (plainStates senators = true ->
   (senators = [] ->
    fst (stateAny senators w)
    = errorObject unsolvable_template "No senators found for selected state."
        (Some [("state"%string, None)]))
   /\ (senators <> [] ->
       exists q st,
         fst (stateAny senators w) = AQuestion q
         /\ In st (uniqueStates senators)
         /\ filled_variables q = [("state"%string, Some st)]
         /\ correct_answers q
            = map officialName
                (filter (fun s => streq (state s) st) senators)
         /\ correct_answers q <> []))
  /\ (plainStates senators = false ->
      stateAny senators w = (ATypeError, w)).
Proof.
  intros Hu. split; [|apply GeneratorFacts.stateAny_throws].
  intros Hp. split.
  - intros ->. reflexivity.
  - intros Hne. destruct (Grouping.groupByState_plain _ Hp) as [m Em].
    unfold stateAny. rewrite Em. cbv zeta. rewrite (@stateAny_states _ _ Em).
    unfold bind, ret.
    destruct (pickRandom (objectKeys m) w) as [o w1] eqn:E.
    destruct (pick_cases _ Hu E) as (_ & [[F _]|(st & -> & Hst)]).
    { exfalso. destruct (uniqueStates senators) as [|k l] eqn:Eu.
      - exact (GeneratorFacts.uniqueStates_not_empty Hne Eu).
      - assert (Hin : In k (objectKeys m)).
        { apply (@objectKeys_states _ _ _ Em). rewrite Eu. left. reflexivity. }
        rewrite F in Hin. exact Hin. }
    apply (@objectKeys_states _ _ _ Em) in Hst.
    destruct (@uniqueStates_lookup _ _ _ Em Hst) as (v & -> & Hv & Hvne).
    destruct v as [|s0 v]; [congruence|].
    cbn [List.length Nat.ltb Nat.leb].
    destruct (makeId w1) as [i w2]. cbn [fst].
    eexists _, st. split; [reflexivity|].
    split; [exact Hst|]. split; [reflexivity|].
    split; [cbn [correct_answers]; rewrite Hv; reflexivity | discriminate].
Qed.

Lemma getBy_state_party (senators : list Senator) (st pa : jsstring) :
  truthy st = true -> truthy pa = true ->
  getByStatePartySeniority senators (Some st) (Some pa) None
  = filter (fun s => streq (state s) st && streq (party s) pa) senators.
Proof.
  intros Hst Hpa. apply filter_ext. intros s.
  unfold rejects. rewrite Hst, Hpa.
  destruct (streq (state s) st), (streq (party s) pa); reflexivity.
Qed.

Lemma getBy_state_party_seniority (senators : list Senator)
  (st pa se : jsstring) :
  truthy st = true -> truthy pa = true -> truthy se = true ->
  getByStatePartySeniority senators (Some st) (Some pa) (Some se)
  = filter (fun s => streq (state s) st && streq (party s) pa
                     && streq (seniority s) se) senators.
Proof.
  intros Hst Hpa Hse. apply filter_ext. intros s.
  unfold rejects. rewrite Hst, Hpa, Hse.
  destruct (streq (state s) st), (streq (party s) pa),
    (streq (seniority s) se); reflexivity.
Qed.

Lemma parties_not_empty : parties <> [].
Proof. discriminate. Qed.

Lemma seniorities_not_empty : seniorities <> [].
Proof. discriminate. Qed.

Lemma parties_truthy (pa : jsstring) : In pa parties -> truthy pa = true.
Proof. intros [<-|[<-|[<-|[]]]]; reflexivity. Qed.

Lemma state_truthy (senators : list Senator) (st : jsstring) :
  wellFormed senators = true -> In st (uniqueStates senators) ->
  truthy st = true.
Proof.
  intros Hwf Hst. apply GeneratorFacts.uniqueStates_In in Hst as (s & Hs & <-).
  unfold wellFormed in Hwf. rewrite forallb_forall in Hwf. auto.
Qed.

(** The draw of a state, in a roster that is not empty. *)
Lemma pick_state (senators : list Senator) (w w' : World)
  (o : option jsstring) :
  unitInterval w -> wellFormed senators = true -> senators <> [] ->
  pickRandom (uniqueStates senators) w = (o, w') ->
  unitInterval w'
  /\ exists st, o = Some st /\ In st (uniqueStates senators)
                /\ truthy st = true.
Proof.
  intros Hu Hwf Hne E.
  destruct (pick_cases _ Hu E) as (Hu' & [[F _]|(st & -> & Hst)]).
  - exfalso. exact (GeneratorFacts.uniqueStates_not_empty Hne F).
  - split; [exact Hu'|]. exists st. split; [reflexivity|].
    split; [exact Hst | exact (@state_truthy senators st Hwf Hst)].
Qed.

Lemma pick_of (arr : list jsstring) (w w' : World) (o : option jsstring) :
  unitInterval w -> arr <> [] ->
  pickRandom arr w = (o, w') ->
  unitInterval w' /\ exists x, o = Some x /\ In x arr.
Proof.
  intros Hu Hne E.
  destruct (pick_cases _ Hu E) as (Hu' & [[F _]|Hx]); [congruence | auto].
Qed.

Lemma getBy_empty (st pa se : option jsstring) :
  getByStatePartySeniority [] st pa se = [].
Proof. reflexivity. Qed.

Lemma statePartyAnyFrom_question (n : nat) (senators : list Senator)
  (w : World) (q : Question) :
  unitInterval w -> wellFormed senators = true ->
  fst (statePartyAnyFrom n senators w) = AQuestion q ->
  exists st pa,
    In st (uniqueStates senators) /\ In pa parties
    /\ filled_variables q
       = [("party"%string, Some pa); ("state"%string, Some st)]
    /\ correct_answers q
       = map officialName
           (filter (fun s => streq (state s) st && streq (party s) pa)
              senators)
    /\ correct_answers q <> []
    /\ difficulty q = Easy.
Proof.
  revert w; induction n as [|n IH]; intros w Hu Hwf Hq; [discriminate|].
  cbn [statePartyAnyFrom] in Hq. unfold bind, ret in Hq.
  destruct (pickRandom (uniqueStates senators) w) as [o1 w1] eqn:E1.
  destruct (pickRandom parties w1) as [o2 w2] eqn:E2.
  destruct senators as [|s0 l] eqn:Es.
  { rewrite getBy_empty in Hq. cbn [List.length Nat.leb] in Hq.
    destruct (pick_cases _ Hu E1) as (Hu1 & _).
    destruct (pick_cases _ Hu1 E2) as (Hu2 & _).
    exact (IH w2 Hu2 Hwf Hq). }
  rewrite <- Es in *.
  assert (Hne : senators <> []) by (rewrite Es; discriminate).
  destruct (pick_state Hu Hwf Hne E1) as (Hu1 & st & -> & Hst & Tst).
  destruct (pick_of Hu1 parties_not_empty E2) as (Hu2 & pa & -> & Hpa).
  rewrite (@getBy_state_party senators st pa Tst (@parties_truthy pa Hpa)) in Hq.
  destruct (1 <=? _) eqn:El; [|exact (IH w2 Hu2 Hwf Hq)].
  destruct (makeId w2) as [i w3]. cbn [fst] in Hq. inversion Hq; subst q.
  exists st, pa. cbn [filled_variables correct_answers difficulty].
  repeat split; try assumption; try reflexivity.
  destruct (filter _ senators); [discriminate | discriminate].
Qed.

Lemma statePartySeniorityFrom_question (n : nat) (senators : list Senator)
  (w : World) (q : Question) :
  unitInterval w -> wellFormed senators = true ->
  fst (statePartySeniorityFrom n senators w) = AQuestion q ->
  exists st pa se m,
    filled_variables q
    = [("party"%string, Some pa); ("seniority"%string, Some se);
       ("state"%string, Some st)]
    /\ filter (fun s => streq (state s) st && streq (party s) pa
                        && streq (seniority s) se) senators = [m]
    /\ correct_answers q = [officialName m]
    /\ difficulty q = Hard.
Proof.
  revert w; induction n as [|n IH]; intros w Hu Hwf Hq; [discriminate|].
  cbn [statePartySeniorityFrom] in Hq. unfold bind, ret in Hq.
  destruct (pickRandom (uniqueStates senators) w) as [o1 w1] eqn:E1.
  destruct (pickRandom parties w1) as [o2 w2] eqn:E2.
  destruct (pickRandom seniorities w2) as [o3 w3] eqn:E3.
  destruct senators as [|s0 l] eqn:Es.
  { rewrite getBy_empty in Hq.
    destruct (pick_cases _ Hu E1) as (Hu1 & _).
    destruct (pick_cases _ Hu1 E2) as (Hu2 & _).
    destruct (pick_cases _ Hu2 E3) as (Hu3 & _).
    exact (IH w3 Hu3 Hwf Hq). }
  rewrite <- Es in *.
  assert (Hne : senators <> []) by (rewrite Es; discriminate).
  destruct (pick_state Hu Hwf Hne E1) as (Hu1 & st & -> & Hst & Tst).
  destruct (pick_of Hu1 parties_not_empty E2) as (Hu2 & pa & -> & Hpa).
  destruct (pick_of Hu2 seniorities_not_empty E3) as (Hu3 & se & -> & Hse).
  rewrite (@getBy_state_party_seniority senators st pa se Tst
             (@parties_truthy pa Hpa)
             (@GeneratorFacts.seniorities_truthy se Hse)) in Hq.
  destruct (filter _ senators) as [|m [|m' r]] eqn:Ef;
    try exact (IH w3 Hu3 Hwf Hq).
  destruct (makeId w3) as [i w4]. cbn [fst] in Hq. inversion Hq; subst q.
  exists st, pa, se, m. cbn [filled_variables correct_answers difficulty].
  repeat split; try reflexivity. exact Ef.
Qed.

Lemma statePartyAnyFrom_error (n : nat) (senators : list Senator)
  (w : World) (e : GenerationError) :
  fst (statePartyAnyFrom n senators w) = AnError e ->
  error_type e = unsolvable_template.
Proof.
  revert w; induction n as [|n IH]; intros w He.
  - inversion He. reflexivity.
  - cbn [statePartyAnyFrom] in He. unfold bind, ret in He.
    destruct (pickRandom (uniqueStates senators) w) as [o1 w1].
    destruct (pickRandom parties w1) as [o2 w2].
    destruct (1 <=? _); [|exact (IH _ He)].
    destruct (makeId w2). discriminate.
Qed.

Lemma stateSeniorityFrom_error (n : nat) (d : Difficulty)
  (senators : list Senator) (w : World) (e : GenerationError) :
  fst (stateSeniorityFrom n d senators w) = AnError e ->
  error_type e = ambiguous_answer.
Proof.
  revert w; induction n as [|n IH]; intros w He.
  - inversion He. reflexivity.
  - cbn [stateSeniorityFrom] in He. unfold bind, ret in He.
    destruct (pickRandom (uniqueStates senators) w) as [o1 w1].
    destruct (pickRandom seniorities w1) as [o2 w2].
    destruct (getByStatePartySeniority _ _ _ _) as [|m [|m' r]];
      try exact (IH _ He).
    destruct (makeId w2). discriminate.
Qed.

Lemma statePartySeniorityFrom_error (n : nat) (senators : list Senator)
  (w : World) (e : GenerationError) :
  fst (statePartySeniorityFrom n senators w) = AnError e ->
  error_type e = ambiguous_answer.
Proof.
  revert w; induction n as [|n IH]; intros w He.
  - inversion He. reflexivity.
  - cbn [statePartySeniorityFrom] in He. unfold bind, ret in He.
    destruct (pickRandom (uniqueStates senators) w) as [o1 w1].
    destruct (pickRandom parties w1) as [o2 w2].
    destruct (pickRandom seniorities w2) as [o3 w3].
    destruct (getByStatePartySeniority _ _ _ _) as [|m [|m' r]];
      try exact (IH _ He).
    destruct (makeId w3). discriminate.
Qed.

(** X16.  With a [rnd] of the unit interval and a roster in which every
    senator has a state: a question returned by [statePartyAny] is filled
    with a party of the list and a state of the roster, and its correct
    answers are the official names of all the senators of that state and
    party, at least one; when it returns no question it returns the
    failure [unsolvable_template]. *)
Theorem statePartyAny_names_the_matches (senators : list Senator)
  (w : World) :
  unitInterval w ->
  wellFormed senators = true ->
  (forall q, fst (statePartyAny senators w) = AQuestion q ->
     exists st pa,
       In st (uniqueStates senators) /\ In pa parties
       /\ filled_variables q
          = [("party"%string, Some pa); ("state"%string, Some st)]
       /\ correct_answers q
          = map officialName
              (filter (fun s => streq (state s) st && streq (party s) pa)
                 senators)
       /\ correct_answers q <> [])
  /\ (forall e, fst (statePartyAny senators w) = AnError e ->
        error_type e = unsolvable_template).
Proof.
  intros Hu Hwf. unfold statePartyAny. split.
  - intros q Hq.
    destruct (statePartyAnyFrom_question _ _ Hu Hwf Hq)
      as (st & pa & H1 & H2 & H3 & H4 & H5 & _).
    exists st, pa. auto.
  - intros e. apply statePartyAnyFrom_error.
Qed.

(** X17.  With a [rnd] of the unit interval and a roster in which every
    senator has a state: a question returned by [statePartySeniority] is
    filled with a state, a party and a seniority that exactly one senator
    of the roster has, and its correct answers are that senator's official
    name alone; when it returns no question it returns the failure
    [ambiguous_answer]. *)
Theorem statePartySeniority_question_has_one_match
  (senators : list Senator) (w : World) :
  unitInterval w ->
  wellFormed senators = true ->
  (forall q, fst (statePartySeniority senators w) = AQuestion q ->
     exists st pa se m,
       filled_variables q
       = [("party"%string, Some pa); ("seniority"%string, Some se);
          ("state"%string, Some st)]
       /\ filter (fun s => streq (state s) st && streq (party s) pa
                           && streq (seniority s) se) senators = [m]
       /\ correct_answers q = [officialName m])
  /\ (forall e, fst (statePartySeniority senators w) = AnError e ->
        error_type e = ambiguous_answer).
Proof.
  intros Hu Hwf. unfold statePartySeniority. split.
  - intros q Hq.
    destruct (statePartySeniorityFrom_question _ _ Hu Hwf Hq)
      as (st & pa & se & m & H1 & H2 & H3 & _).
    exists st, pa, se, m. auto.
  - intros e. apply statePartySeniorityFrom_error.
Qed.

(** *** The fillers that pick one senator *)

(** The question [partyOfPortrait] asks about [s]. *)
Lemma single_pick_question (senators : list Senator) (w : World) :
  unitInterval w -> senators <> [] ->
  exists s w1, pickRandom senators w = (Some s, w1) /\ In s senators.
Proof.
  intros Hu Hne.
  destruct (pickRandom senators w) as [o w1] eqn:E.
  destruct (pick_cases _ Hu E) as (_ & [[F _]|(s & -> & Hs)]);
    [congruence | eauto].
Qed.

(** X18.  With a [rnd] of the unit interval and a roster that is not
    empty, [partyOfPortrait], [stateOfPortrait], [partyOfRandom] and
    [stateOfRandom] always return a question, about a senator of the
    roster, whose only correct answer is that senator's party or state and
    whose portrait is that senator's, whether the senator has a portrait
    or not; [portraitOnly] returns a question only for a senator with a
    portrait, and the failure [data_missing] otherwise.  On the empty
    roster all five return [data_missing]. *)
Theorem single_senator_fillers (d : Difficulty) (senators : list Senator)
  (w : World) :
  unitInterval w ->
  (senators = [] ->
   forall f, In f [partyOfPortrait; stateOfPortrait; partyOfRandom d;
                   stateOfRandom d; portraitOnly d] ->
             exists e, fst (f senators w) = AnError e
                       /\ error_type e = data_missing)
  /\ (senators <> [] ->
      exists s,
        In s senators
        /\ (forall f, In f [partyOfPortrait; partyOfRandom d] ->
              exists q, fst (f senators w) = AQuestion q
                        /\ correct_answers q = [party s]
                        /\ portrait_image q = Some (portraitUrl s))
        /\ (forall f, In f [stateOfPortrait; stateOfRandom d] ->
              exists q, fst (f senators w) = AQuestion q
                        /\ correct_answers q = [state s]
                        /\ portrait_image q = Some (portraitUrl s))
        /\ (portrait s <> [] ->
            exists q, fst (portraitOnly d senators w) = AQuestion q
                      /\ correct_answers q = [officialName s]
                      /\ filled_variables q
                         = [("portrait_image"%string, Some (portraitUrl s))])
        /\ (portrait s = [] ->
            exists e, fst (portraitOnly d senators w) = AnError e
                      /\ error_type e = data_missing)).
Proof.
  intros Hu. split.
  - intros -> f Hf. simpl in Hf.
    destruct Hf as [<-|[<-|[<-|[<-|[<-|[]]]]]];
      eexists; split; reflexivity.
  - intros Hne.
    destruct (single_pick_question Hu Hne) as (s & w1 & E & Hs).
    exists s. split; [exact Hs|].
    unfold partyOfPortrait, stateOfPortrait, partyOfRandom, stateOfRandom,
      portraitOnly, flipCoin, bind, ret.
    split; [|split; [|split]].
    + intros f [<-|[<-|[]]]; rewrite E;
        repeat match goal with
               | |- context [mathRandom ?x] => destruct (mathRandom x)
               | |- context [makeId ?x] => destruct (makeId x)
               end;
        eexists; repeat split; reflexivity.
    + intros f [<-|[<-|[]]]; rewrite E;
        repeat match goal with
               | |- context [mathRandom ?x] => destruct (mathRandom x)
               | |- context [makeId ?x] => destruct (makeId x)
               end;
        eexists; repeat split; reflexivity.
    + intros Hp. rewrite E.
      assert (T : truthy (portrait s) = true)
        by (destruct (portrait s); [congruence | reflexivity]).
      rewrite T. destruct (makeId w1).
      eexists; repeat split; reflexivity.
    + intros Hp. rewrite E, Hp. cbn [truthy].
      eexists; split; reflexivity.
Qed.

(** *** The switch of [tryTemplate] and the table of templates *)

Lemma single_error (f : list Senator -> M Generated)
  (d : Difficulty) (senators : list Senator) (w : World)
  (e : GenerationError) :
  In f [partyOfPortrait; stateOfPortrait; partyOfRandom d; stateOfRandom d;
        portraitOnly d] ->
  fst (f senators w) = AnError e -> error_type e = data_missing.
Proof.
  intros Hf. simpl in Hf.
  destruct Hf as [<-|[<-|[<-|[<-|[<-|[]]]]]];
    unfold partyOfPortrait, stateOfPortrait, partyOfRandom, stateOfRandom,
      portraitOnly, flipCoin, bind, ret;
    destruct (pickRandom senators w) as [[s|] w1];
    try (intros E; inversion E; reflexivity);
    try destruct (truthy (portrait s));
    repeat match goal with
           | |- context [mathRandom ?x] => destruct (mathRandom x)
           | |- context [makeId ?x] => destruct (makeId x)
           end;
    intros E; inversion E; reflexivity.
Qed.

Lemma stateAny_error (senators : list Senator) (w : World)
  (e : GenerationError) :
  fst (stateAny senators w) = AnError e ->
  error_type e = unsolvable_template.
Proof.
  unfold stateAny.
  destruct (groupByState senators) as [byState|]; [|discriminate].
  cbv zeta. unfold bind, ret.
  destruct (pickRandom _ w) as [o w1].
  destruct (_ <? 1).
  - intros E. inversion E. reflexivity.
  - destruct (makeId w1). discriminate.
Qed.

Lemma statePartyAny_error (senators : list Senator) (w : World)
  (e : GenerationError) :
  fst (statePartyAny senators w) = AnError e ->
  error_type e = unsolvable_template.
Proof. unfold statePartyAny. apply statePartyAnyFrom_error. Qed.

Lemma stateSeniority_error (d : Difficulty) (senators : list Senator)
  (w : World) (e : GenerationError) :
  fst (stateSeniority d senators w) = AnError e ->
  error_type e = ambiguous_answer.
Proof. unfold stateSeniority. apply stateSeniorityFrom_error. Qed.

Lemma statePartySeniority_error (senators : list Senator) (w : World)
  (e : GenerationError) :
  fst (statePartySeniority senators w) = AnError e ->
  error_type e = ambiguous_answer.
Proof. unfold statePartySeniority. apply statePartySeniorityFrom_error. Qed.

Lemma tryTemplate_dispatch (d : Difficulty) (senators : list Senator) :
  tryTemplate "portrait_only" d senators = portraitOnly d senators
  /\ tryTemplate "state_any" d senators = stateAny senators
  /\ tryTemplate "state_party_any" d senators = statePartyAny senators
  /\ tryTemplate "state_seniority" d senators = stateSeniority d senators
  /\ tryTemplate "state_party_seniority" d senators
     = statePartySeniority senators
  /\ tryTemplate "party_of_portrait" d senators = partyOfPortrait senators
  /\ tryTemplate "state_of_portrait" d senators = stateOfPortrait senators
  /\ tryTemplate "party_of_random" d senators = partyOfRandom d senators
  /\ tryTemplate "state_of_random" d senators = stateOfRandom d senators.
Proof.
  unfold tryTemplate. simpl (String.eqb _ _). repeat split; reflexivity.
Qed.

(** X19.  Every key of the table of templates is a case of the switch of
    [tryTemplate]: the failure [unknown_template] is returned for the keys
    that are not in the table, without reading any random number, and for
    no key of the table. *)
Theorem tryTemplate_knows_the_table (k : string) (d : Difficulty)
  (senators : list Senator) (w : World) :
  (In k templateKeys ->
   forall e, fst (tryTemplate k d senators w) = AnError e ->
             error_type e <> unknown_template)
  /\ (~ In k templateKeys ->
      tryTemplate k d senators w
      = (errorObject unknown_template "Unknown template key."
           (Some [("key"%string, Some (str k))]), w)).
Proof.
  destruct (tryTemplate_dispatch d senators)
    as (D1 & D2 & D3 & D4 & D5 & D6 & D7 & D8 & D9).
  split.
  - intros Hk e He.
    assert (Hkind : error_type e = data_missing
                    \/ error_type e = unsolvable_template
                    \/ error_type e = ambiguous_answer);
      [|destruct Hkind as [E|[E|E]]; rewrite E; discriminate].
    unfold templateKeys in Hk. simpl in Hk.
    destruct Hk as [<-|[<-|[<-|[<-|[<-|[<-|[<-|[<-|[<-|[<-|[]]]]]]]]]]].
    + rewrite D2 in He. right; left. exact (stateAny_error _ _ He).
    + rewrite D3 in He. right; left.
      exact (statePartyAny_error _ _ He).
    + rewrite D4 in He. right; right.
      exact (stateSeniority_error _ _ _ He).
    + rewrite D6 in He. left.
      apply (@single_error partyOfPortrait d senators w e); [simpl; tauto|].
      exact He.
    + rewrite D7 in He. left.
      apply (@single_error stateOfPortrait d senators w e); [simpl; tauto|].
      exact He.
    + rewrite D1 in He. left.
      apply (@single_error (portraitOnly d) d senators w e); [simpl; tauto|].
      exact He.
    + rewrite D4 in He. right; right.
      exact (stateSeniority_error _ _ _ He).
    + rewrite D5 in He. right; right.
      exact (statePartySeniority_error _ _ He).
    + rewrite D8 in He. left.
      apply (@single_error (partyOfRandom d) d senators w e); [simpl; tauto|].
      exact He.
    + rewrite D9 in He. left.
      apply (@single_error (stateOfRandom d) d senators w e); [simpl; tauto|].
      exact He.
  - intros Hk. unfold tryTemplate.
    repeat match goal with
           | |- context [if String.eqb k ?s then _ else _] =>
               destruct (String.eqb_spec k s) as [->|_];
               [exfalso; apply Hk; unfold templateKeys; simpl; tauto|]
           end.
    reflexivity.
Qed.

(** *** What every generated question has *)

Lemma makeId_prefix (w : World) : firstn 2 (fst (makeId w)) = str "q_".
Proof. reflexivity. Qed.

Ltac well_made :=
  unfold wellMade;
  cbn [difficulty correct_answers allowed_answer_modes id modesFor];
  repeat split; try reflexivity; try discriminate;
  try (simpl; tauto); try (simpl; intuition discriminate).

Lemma stateSeniorityFrom_wellMade (n : nat) (d : Difficulty)
  (senators : list Senator) (w : World) (q : Question) :
  fst (stateSeniorityFrom n d senators w) = AQuestion q -> wellMade d q.
Proof.
  revert w; induction n as [|n IH]; intros w Hq; [discriminate|].
  cbn [stateSeniorityFrom] in Hq. unfold bind, ret in Hq.
  destruct (pickRandom (uniqueStates senators) w) as [o1 w1].
  destruct (pickRandom seniorities w1) as [o2 w2].
  destruct (getByStatePartySeniority _ _ _ _) as [|m [|m' r]];
    try exact (IH _ Hq).
  pose proof (makeId_prefix w2) as Hid.
  destruct (makeId w2) as [i w3]. cbn [fst] in Hq, Hid.
  inversion Hq; subst q. unfold stateSeniorityQuestion.
  destruct d; well_made; exact Hid.
Qed.

Lemma statePartyAnyFrom_wellMade (n : nat) (senators : list Senator)
  (w : World) (q : Question) :
  fst (statePartyAnyFrom n senators w) = AQuestion q -> wellMade Easy q.
Proof.
  revert w; induction n as [|n IH]; intros w Hq; [discriminate|].
  cbn [statePartyAnyFrom] in Hq. unfold bind, ret in Hq.
  destruct (pickRandom (uniqueStates senators) w) as [o1 w1].
  destruct (pickRandom parties w1) as [o2 w2].
  destruct (1 <=? _) eqn:El; [|exact (IH _ Hq)].
  pose proof (makeId_prefix w2) as Hid.
  destruct (makeId w2) as [i w3]. cbn [fst] in Hq, Hid.
  inversion Hq; subst q.
  destruct (getByStatePartySeniority _ _ _ _); [discriminate|].
  well_made; exact Hid.
Qed.

Lemma statePartySeniorityFrom_wellMade (n : nat) (senators : list Senator)
  (w : World) (q : Question) :
  fst (statePartySeniorityFrom n senators w) = AQuestion q -> wellMade Hard q.
Proof.
  revert w; induction n as [|n IH]; intros w Hq; [discriminate|].
  cbn [statePartySeniorityFrom] in Hq. unfold bind, ret in Hq.
  destruct (pickRandom (uniqueStates senators) w) as [o1 w1].
  destruct (pickRandom parties w1) as [o2 w2].
  destruct (pickRandom seniorities w2) as [o3 w3].
  destruct (getByStatePartySeniority _ _ _ _) as [|m [|m' r]];
    try exact (IH _ Hq).
  pose proof (makeId_prefix w3) as Hid.
  destruct (makeId w3) as [i w4]. cbn [fst] in Hq, Hid.
  inversion Hq; subst q. well_made; exact Hid.
Qed.

Lemma stateAny_wellMade (senators : list Senator) (w : World) (q : Question) :
  fst (stateAny senators w) = AQuestion q -> wellMade Easy q.
Proof.
  unfold stateAny.
  destruct (groupByState senators) as [byState|]; [|discriminate].
  cbv zeta. unfold bind, ret.
  destruct (pickRandom _ w) as [o w1].
  match goal with |- context [List.length ?m <? 1] => destruct m eqn:Em end;
    [discriminate|].
  cbn [List.length Nat.ltb Nat.leb].
  pose proof (makeId_prefix w1) as Hid.
  destruct (makeId w1) as [i w2]. cbn [fst] in *.
  intros Hq. inversion Hq; subst q. well_made; exact Hid.
Qed.

Lemma statePartyAny_wellMade (senators : list Senator) (w : World)
  (q : Question) :
  fst (statePartyAny senators w) = AQuestion q -> wellMade Easy q.
Proof. unfold statePartyAny. apply statePartyAnyFrom_wellMade. Qed.

Lemma stateSeniority_wellMade (d : Difficulty) (senators : list Senator)
  (w : World) (q : Question) :
  fst (stateSeniority d senators w) = AQuestion q -> wellMade d q.
Proof. unfold stateSeniority. apply stateSeniorityFrom_wellMade. Qed.

Lemma statePartySeniority_wellMade (senators : list Senator) (w : World)
  (q : Question) :
  fst (statePartySeniority senators w) = AQuestion q -> wellMade Hard q.
Proof. unfold statePartySeniority. apply statePartySeniorityFrom_wellMade. Qed.

Lemma single_wellMade (d : Difficulty) (senators : list Senator)
  (w : World) (q : Question) :
  (fst (partyOfPortrait senators w) = AQuestion q -> wellMade Easy q)
  /\ (fst (stateOfPortrait senators w) = AQuestion q -> wellMade Easy q)
  /\ (fst (partyOfRandom d senators w) = AQuestion q -> wellMade Hard q)
  /\ (fst (stateOfRandom d senators w) = AQuestion q -> wellMade Hard q)
  /\ (fst (portraitOnly d senators w) = AQuestion q -> wellMade d q).
Proof.
  unfold partyOfPortrait, stateOfPortrait, partyOfRandom, stateOfRandom,
    portraitOnly, flipCoin, bind, ret.
  destruct (pickRandom senators w) as [[s|] w1];
    [|repeat split; discriminate].
  split; [|split; [|split; [|split]]];
    try (destruct (truthy (portrait s)); [|discriminate]);
    repeat match goal with
           | |- context [mathRandom ?x] => destruct (mathRandom x)
           end;
    match goal with
    | |- context [makeId ?x] =>
        pose proof (makeId_prefix x) as Hid; destruct (makeId x)
    end;
    cbn [fst] in *; intros Hq; inversion Hq; subst q;
    try destruct d; well_made; exact Hid.
Qed.

Lemma tryTemplate_wellMade (t : Template) (d : Difficulty)
  (senators : list Senator) (w : World) (q : Question) :
  In t (Templates d) ->
  fst (tryTemplate (key t) d senators w) = AQuestion q -> wellMade d q.
Proof.
  destruct (tryTemplate_dispatch d senators)
    as (D1 & D2 & D3 & D4 & D5 & D6 & D7 & D8 & D9).
  destruct (single_wellMade d senators w q) as (S1 & S2 & S3 & S4 & S5).
  intros Ht Hq. destruct d; simpl in Ht.
  - destruct Ht as [<-|[<-|[<-|[<-|[<-|[]]]]]]; cbn [key] in Hq.
    + rewrite D2 in Hq. exact (stateAny_wellMade _ _ Hq).
    + rewrite D3 in Hq. exact (statePartyAny_wellMade _ _ Hq).
    + rewrite D4 in Hq. exact (stateSeniority_wellMade _ _ _ Hq).
    + rewrite D6 in Hq. exact (S1 Hq).
    + rewrite D7 in Hq. exact (S2 Hq).
  - destruct Ht as [<-|[<-|[<-|[<-|[<-|[]]]]]]; cbn [key] in Hq.
    + rewrite D1 in Hq. exact (S5 Hq).
    + rewrite D4 in Hq. exact (stateSeniority_wellMade _ _ _ Hq).
    + rewrite D5 in Hq. exact (statePartySeniority_wellMade _ _ Hq).
    + rewrite D8 in Hq. exact (S3 Hq).
    + rewrite D9 in Hq. exact (S4 Hq).
Qed.

Lemma generateQuestion_wellMade (d : Difficulty) (senators : list Senator)
  (w : World) (q : Question) :
  fst (generateQuestion d senators w) = AQuestion q -> wellMade d q.
Proof.
  intros Hq.
  assert (E : generateQuestion d senators w
              = tryEach (fst (shuffleInPlace (Templates d) w)) d senators
                  (snd (shuffleInPlace (Templates d) w))).
  { unfold generateQuestion, bind.
    destruct (shuffleInPlace (Templates d) w); reflexivity. }
  rewrite E in Hq.
  destruct (GeneratorFacts.tryEach_question _ _ _ _ Hq)
    as (before & t & rest & Ha & _ & Ht).
  eapply (@tryTemplate_wellMade t d senators); [|exact Ht].
  apply (Permutation_in t
           (GeneratorFacts.shuffleFrom_Permutation
              (List.length (Templates d) - 1) (Templates d) w)).
  unfold shuffleInPlace in Ha. rewrite Ha. apply in_elt.
Qed.

(** X20.  With a [rnd] of the unit interval: a question returned by
    [generateQuestion] has the difficulty
    asked for, at least one correct answer and an identifier that starts
    with "q_"; it always allows the mode [full_name], never lists
    [misspelling_correction], and under Hard allows [full_name] only. *)
Theorem generated_questions_are_well_made (d : Difficulty)
  (senators : list Senator) (w : World) (q : Question) :
  unitInterval w ->
  fst (generateQuestion d senators w) = AQuestion q ->
  difficulty q = d
  /\ correct_answers q <> []
  /\ In full_name (allowed_answer_modes q)
  /\ ~ In misspelling_correction (allowed_answer_modes q)
  /\ (d = Hard -> allowed_answer_modes q = [full_name])
  /\ firstn 2 (id q) = str "q_".
Proof. intros _. apply generateQuestion_wellMade. Qed.

(** X23.  With a [rnd] of the unit interval: a question returned by
    [generateQuestion] can be answered:
    it has a correct answer, and [validateAnswer] accepts each of its
    correct answers, typed as it is listed, as a full name. *)
Theorem generated_questions_accept_their_answers (d : Difficulty)
  (senators : list Senator) (w : World) (q : Question) :
  unitInterval w ->
  fst (generateQuestion d senators w) = AQuestion q ->
  (exists a, In a (correct_answers q))
  /\ (forall a, In a (correct_answers q) ->
        is_correct (Validator.validateAnswer q a) = true
        /\ accepted_as (Validator.validateAnswer q a) = full_name).
Proof.
  intros _ Hq.
  destruct (generateQuestion_wellMade _ _ _ Hq) as (_ & Hne & _).
  split.
  - destruct (correct_answers q) as [|a l]; [congruence|].
    exists a. left. reflexivity.
  - intros a Ha. apply ValidatorFacts.exact_match_accepted.
    apply in_map, Ha.
Qed.

End HostGeneratorMore.

Lemma stateAny_names_all_senators_of_a_state_witness :
  unitInterval (constantWorld (1 # 2))
  /\ plainStates sampleRoster = true
  /\ exists q st,
       fst (@stateAny AsciiHost sampleRoster (constantWorld (1 # 2)))
       = AQuestion q
       /\ In st (uniqueStates sampleRoster)
       /\ filled_variables q = [("state"%string, Some st)]
       /\ correct_answers q
          = map officialName
              (filter (fun s => streq (state s) st) sampleRoster)
       /\ correct_answers q <> [].
Proof.
  split; [apply unitInterval_constant|]. split; [reflexivity|].
  apply (proj1 (@stateAny_names_all_senators_of_a_state AsciiHost
                  sampleRoster (constantWorld (1 # 2))
                  (unitInterval_constant (1 # 2))) eq_refl).
  discriminate.
Defined.

Lemma statePartyAny_names_the_matches_witness :
  unitInterval (constantWorld (1 # 2))
  /\ wellFormed sampleRoster = true
  /\ exists q st pa,
       fst (@statePartyAny AsciiHost sampleRoster (constantWorld (1 # 2)))
       = AQuestion q
       /\ In st (uniqueStates sampleRoster)
       /\ In pa parties
       /\ correct_answers q
          = map officialName
              (filter (fun s => streq (state s) st && streq (party s) pa)
                 sampleRoster)
       /\ correct_answers q <> [].
Proof.
  split; [apply unitInterval_constant|]. split; [reflexivity|].
  assert (E : exists q,
            fst (@statePartyAny AsciiHost sampleRoster
                   (constantWorld (1 # 2))) = AQuestion q)
    by (vm_compute; eexists; reflexivity).
  destruct E as [q E].
  destruct (proj1 (@statePartyAny_names_the_matches AsciiHost sampleRoster
                     (constantWorld (1 # 2)) (unitInterval_constant (1 # 2))
                     eq_refl) q E)
    as (st & pa & H1 & H2 & _ & H4 & H5).
  exists q, st, pa. auto.
Defined.

Lemma statePartySeniority_question_has_one_match_witness :
  unitInterval (constantWorld (1 # 2))
  /\ wellFormed sampleRoster = true
  /\ forall e,
       fst (@statePartySeniority AsciiHost sampleRoster
              (constantWorld (1 # 2))) = AnError e ->
       error_type e = ambiguous_answer.
Proof.
  split; [apply unitInterval_constant|]. split; [reflexivity|].
  apply (@statePartySeniority_question_has_one_match AsciiHost sampleRoster
           (constantWorld (1 # 2)) (unitInterval_constant (1 # 2)) eq_refl).
Defined.

Lemma single_senator_fillers_witness :
  unitInterval (constantWorld (1 # 2))
  /\ exists s,
       In s sampleRoster
       /\ exists q,
            fst (@partyOfPortrait AsciiHost sampleRoster
                   (constantWorld (1 # 2))) = AQuestion q
            /\ correct_answers q = [party s].
Proof.
  split; [apply unitInterval_constant|].
  destruct (@single_senator_fillers AsciiHost Easy sampleRoster
              (constantWorld (1 # 2)) (unitInterval_constant (1 # 2)))
    as [_ Hq].
  destruct (Hq ltac:(discriminate)) as (s & Hs & Hp & _).
  exists s. split; [exact Hs|].
  destruct (Hp partyOfPortrait (or_introl eq_refl)) as (q & E & Hc & _).
  exists q. split; [exact E | exact Hc].
Defined.

Lemma generated_questions_are_well_made_witness :
  unitInterval (constantWorld (1 # 2))
  /\ exists q,
       fst (@generateQuestion AsciiHost Hard sampleRoster
              (constantWorld (1 # 2))) = AQuestion q
       /\ difficulty q = Hard
       /\ allowed_answer_modes q = [full_name].
Proof.
  split; [apply unitInterval_constant|].
  assert (E : exists q,
            fst (@generateQuestion AsciiHost Hard sampleRoster
                   (constantWorld (1 # 2))) = AQuestion q)
    by (vm_compute; eexists; reflexivity).
  destruct E as [q E]. exists q. split; [exact E|].
  destruct (@generated_questions_are_well_made AsciiHost Hard sampleRoster
              (constantWorld (1 # 2)) q (unitInterval_constant (1 # 2)) E)
    as (Hd & _ & _ & _ & Hm & _).
  split; [exact Hd | exact (Hm eq_refl)].
Defined.

Lemma generated_questions_accept_their_answers_witness :
  unitInterval (constantWorld (1 # 2))
  /\ exists q a,
       fst (@generateQuestion AsciiHost Easy sampleRoster
              (constantWorld (1 # 2))) = AQuestion q
       /\ In a (correct_answers q)
       /\ is_correct (@Validator.validateAnswer AsciiHost q a) = true.
Proof.
  split; [apply unitInterval_constant|].
  assert (E : exists q,
            fst (@generateQuestion AsciiHost Easy sampleRoster
                   (constantWorld (1 # 2))) = AQuestion q)
    by (vm_compute; eexists; reflexivity).
  destruct E as [q E].
  destruct (@generated_questions_accept_their_answers AsciiHost Easy
              sampleRoster (constantWorld (1 # 2)) q
              (unitInterval_constant (1 # 2)) E) as ((a & Ha) & Hall).
  exists q, a. split; [exact E|]. split; [exact Ha|].
  exact (proj1 (Hall a Ha)).
Defined.

End GeneratorMore.

(** ** More on the game state *)

Module GameStateMore.
Import GameState.

(** What holds of every state of a session. *)
Lemma reachable_invariant d qs t0 (st : State) :
  reachable d qs t0 st ->
  questions st = qs
  /\ start_time st = t0
  /\ current_index st = List.length (answers st)
  /\ (completed st = true -> List.length qs <= current_index st)
  /\ (completed st = false ->
      end_time st = None
      /\ (current_index st = 0 \/ current_index st < List.length qs)).
Proof.
  induction 1 as [|st ua now Hr (Hq & Ht & Hi & Hc & Hn)].
  - simpl. repeat split; auto; discriminate.
  - unfold recordAnswer. rewrite Hq.
    destruct (Nat.leb_spec (List.length qs) (current_index st + 1)) as [L|L];
      cbn [questions start_time current_index answers completed end_time];
      rewrite length_app; cbn [List.length].
    + repeat split; auto; try lia; discriminate.
    + repeat split; auto; try lia.
      * intros C. specialize (Hc C). lia.
      * apply Hn. assumption.
Qed.

(** X24.  In every state of a session [currentQuestion] is the question
    whose index is the number of answers recorded so far; there is none
    once the session is completed, and, the list of questions not being
    empty, only then. *)
Theorem currentQuestion_is_the_first_unanswered d qs t0 (st : State) :
  reachable d qs t0 st ->
  currentQuestion st = nth_error qs (List.length (answers st))
  /\ (completed st = true -> currentQuestion st = None)
  /\ (qs <> [] -> currentQuestion st = None -> completed st = true).
Proof.
  intros Hr.
  destruct (reachable_invariant Hr) as (Hq & _ & Hi & Hc & Hn).
  unfold currentQuestion. rewrite Hq, Hi in *.
  split; [reflexivity|]. split.
  - intros C. apply nth_error_None, Hc, C.
  - intros Hne E. apply nth_error_None in E.
    destruct (completed st); [reflexivity|].
    destruct (Hn eq_refl) as (_ & [Z|L]); [|lia].
    destruct qs; [congruence | simpl in E; lia].
Qed.

Lemma currentQuestion_is_the_first_unanswered_witness :
  reachable Easy sampleQuestions 0 (create Easy sampleQuestions 0)
  /\ currentQuestion (create Easy sampleQuestions 0)
     = Some (sampleQuestion Easy [str "John Smith"]).
Proof.
  split; [apply reach_create|].
  rewrite (proj1 (@currentQuestion_is_the_first_unanswered
                    Easy sampleQuestions 0 _ (reach_create _ _ _))).
  reflexivity.
Defined.

(** X25.  [recordAnswer] does not refuse an answer that comes after the
    session is completed: the answer is appended and counted, the session
    stays completed with no current question, and [end_time] moves to the
    clock of that call, so that the time reported by [toResults] is
    measured up to it. *)
Theorem answer_after_completion_moves_the_end_time d qs t0 (st : State)
  (ua : UserAnswer) (now : Z) :
  reachable d qs t0 st ->
  completed st = true ->
  let st' := recordAnswer st ua now in
  completed st' = true
  /\ end_time st' = Some now
  /\ answers st' = answers st ++ [ua]
  /\ score st' = (if is_correct ua then score st + 1 else score st)
  /\ currentQuestion st' = None
  /\ forall t, time_taken (toResults st' t) = formatDuration (now - t0).
Proof.
  intros Hr C.
  destruct (reachable_invariant Hr) as (Hq & Ht & Hi & Hc & _).
  specialize (Hc C). cbv zeta. unfold recordAnswer. rewrite Hq.
  destruct (Nat.leb_spec (List.length qs) (current_index st + 1)) as [L|L];
    [|lia].
  unfold currentQuestion, toResults.
  cbn [questions start_time current_index answers completed end_time score
       time_taken].
  repeat split; try reflexivity.
  - apply nth_error_None. exact L.
  - intros t. rewrite Ht. reflexivity.
Qed.

Lemma answer_after_completion_moves_the_end_time_witness :
  reachable Easy sampleQuestions 0
    (recordAll (create Easy sampleQuestions 0) sampleCalls)
  /\ completed (recordAll (create Easy sampleQuestions 0) sampleCalls) = true
  /\ end_time (recordAnswer
                 (recordAll (create Easy sampleQuestions 0) sampleCalls)
                 (sampleAnswer false) 9000) = Some 9000%Z.
Proof.
  assert (Hr : reachable Easy sampleQuestions 0
                 (recordAll (create Easy sampleQuestions 0) sampleCalls))
    by (apply reach_record, reach_record, reach_create).
  split; [exact Hr|]. split; [reflexivity|].
  apply (@answer_after_completion_moves_the_end_time Easy sampleQuestions 0
           _ (sampleAnswer false) 9000 Hr eq_refl).
Defined.

(** X26.  In every state of a session [toResults] reports the number of
    questions of the session as the total, the recorded answers as the
    detail, and as incorrect every question that has no correct answer
    recorded, the unanswered ones included; with at least one question and
    no more answers than questions, the score is a whole number from 0 to
    100; and the results of a completed session do not depend on the clock
    at which they are computed. *)
Theorem toResults_accounts_for_every_question d qs t0 (st : State)
  (now : Z) :
  reachable d qs t0 st ->
  let r := toResults st now in
  total_questions r = List.length qs
  /\ answers_detail r = answers st
  /\ (Z.of_nat (correct_answers r) + incorrect_answers r
      = Z.of_nat (List.length qs))%Z
  /\ (List.length (answers st) <= List.length qs ->
      incorrect_answers r
      = Z.of_nat (List.length (filter (fun a => negb (is_correct a))
                                 (answers st))
                  + (List.length qs - List.length (answers st))))
  /\ (qs <> [] -> List.length (answers st) <= List.length qs ->
      exists n, results_score r = Num (inject_Z n) /\ (0 <= n <= 100)%Z)
  /\ (completed st = true -> forall now', toResults st now' = r).
Proof.
  intros Hr.
  destruct (reachable_invariant Hr) as (Hq & Ht & Hi & Hc & Hn).
  assert (Hsplit : forall l : list UserAnswer,
            List.length (filter is_correct l)
            + List.length (filter (fun a => negb (is_correct a)) l)
            = List.length l).
  { induction l as [|a l IH]; [reflexivity|]. simpl.
    destruct (is_correct a); simpl; lia. }
  cbv zeta. unfold toResults.
  cbn [total_questions answers_detail correct_answers incorrect_answers
       results_score].
  rewrite Hq. split; [reflexivity|]. split; [reflexivity|].
  split; [lia|]. split; [|split].
  - intros Hle. pose proof (Hsplit (answers st)). lia.
  - intros Hne Hle.
    assert (Hpos : 0 < List.length qs)
      by (destruct qs; [congruence | simpl; lia]).
    pose proof (Hsplit (answers st)) as Hcount.
    set (c := List.length (filter is_correct (answers st))) in *.
    destruct c as [|c].
    + rewrite Binary64.divide_zero by exact Hpos.
      exists 0%Z. split; [reflexivity | lia].
    + apply Binary64.mathRound_le, Binary64.times100_le, Binary64.divide_le.
      lia.
  - intros C now'.
    destruct (end_time st) as [t|] eqn:E; [reflexivity|].
    exfalso. destruct (completed st) eqn:C'; [|discriminate].
    clear Hn. revert E C'. clear -Hr.
    induction Hr as [|st ua now0 Hr IH]; [discriminate|].
    unfold recordAnswer.
    destruct (_ <=? _); cbn [end_time completed]; [discriminate | exact IH].
Qed.

Lemma toResults_accounts_for_every_question_witness :
  reachable Easy sampleQuestions 0
    (recordAnswer (create Easy sampleQuestions 0) (sampleAnswer true) 1000)
  /\ incorrect_answers
       (toResults
          (recordAnswer (create Easy sampleQuestions 0) (sampleAnswer true)
             1000) 5000) = 1%Z.
Proof.
  assert (Hr : reachable Easy sampleQuestions 0
                 (recordAnswer (create Easy sampleQuestions 0)
                    (sampleAnswer true) 1000))
    by (apply reach_record, reach_create).
  split; [exact Hr|].
  destruct (@toResults_accounts_for_every_question Easy sampleQuestions 0
              _ 5000 Hr) as (_ & _ & _ & Hi & _).
  rewrite Hi; [reflexivity | simpl; lia].
Defined.

End GameStateMore.

(** ** Durations *)

Module DurationFacts.

Lemma formatDuration_seconds (ms : Z) :
  formatDuration ms = formatDuration (Z.max 0 (ms / 1000) * 1000).
Proof.
  unfold formatDuration. rewrite Z.div_mul by lia.
  rewrite (Z.max_r 0 (Z.max 0 (ms / 1000))) by lia. reflexivity.
Qed.

Lemma formatDuration_table :
  forallb (fun n =>
             let secs := Z.of_nat n in
             streq (formatDuration (secs * 1000))
               [Z.to_N (48 + secs / 600); Z.to_N (48 + secs / 60 mod 10); 58%N;
                Z.to_N (48 + secs mod 60 / 10); Z.to_N (48 + secs mod 10)])
    (seq 0 (60 * 100)) = true.
Proof. vm_compute. reflexivity. Qed.

(** X27.  [formatDuration] shows a duration of less than 100 minutes as
    two digits of minutes, a colon and two digits of seconds, the part of
    the duration under a second being dropped; a duration under a second,
    or a negative one, is shown as "00:00". *)
Theorem formatDuration_shows_minutes_and_seconds (ms : Z) :
  (ms < 6000000)%Z ->
  ((0 <= ms)%Z ->
   let secs := (ms / 1000)%Z in
   formatDuration ms
   = [Z.to_N (48 + secs / 600); Z.to_N (48 + secs / 60 mod 10); 58%N;
      Z.to_N (48 + secs mod 60 / 10); Z.to_N (48 + secs mod 10)])
  /\ ((ms < 1000)%Z -> formatDuration ms = str "00:00").
Proof.
  intros Hlt. split.
  - intros Hge. cbv zeta.
    assert (Hs : (0 <= ms / 1000 < 6000)%Z).
    { split; [apply Z.div_pos; lia | apply Z.div_lt_upper_bound; lia]. }
    rewrite formatDuration_seconds, Z.max_r by lia.
    pose proof formatDuration_table as T. rewrite forallb_forall in T.
    specialize (T (Z.to_nat (ms / 1000))). cbv zeta in T.
    rewrite Z2Nat.id in T by lia.
    apply streq_spec, T, in_seq.
    revert Hs. generalize (ms / 1000)%Z. intros q Hq. lia.
  - intros Hsmall. rewrite formatDuration_seconds.
    assert (E : Z.max 0 (ms / 1000) = 0%Z).
    { destruct (Z.lt_ge_cases ms 0) as [N|N].
      - apply Z.max_l. assert (ms / 1000 < 0)%Z; [|lia].
        apply Z.div_lt_upper_bound; lia.
      - rewrite Z.div_small by lia. reflexivity. }
    rewrite E. reflexivity.
Qed.

Lemma formatDuration_shows_minutes_and_seconds_witness :
  (754321 < 6000000)%Z /\ formatDuration 754321 = str "12:34".
Proof.
  split; [lia|].
  rewrite (proj1 (formatDuration_shows_minutes_and_seconds
                    (ms := 754321) eq_refl)) by lia.
  reflexivity.
Defined.

End DurationFacts.

(** ** The roster that is loaded *)

Module LoaderFacts.

Lemma present_spec (v : option jsstring) :
  present v = true -> exists s, v = Some s /\ s <> [].
Proof.
  destruct v as [[|c s]|]; simpl; try discriminate.
  intros _. eexists. split; [reflexivity | discriminate].
Qed.

Lemma cleanedEntry_clean (entry : option RawSenator) (s : Senator) :
  In s (cleanedEntry entry) ->
  name s <> [] /\ state s <> []
  /\ In (party s) Generator.parties
  /\ In (seniority s) Generator.seniorities.
Proof.
  destruct entry as [r|]; [|intros []]. unfold cleanedEntry.
  destruct (present (raw_name r)) eqn:En; [|intros []].
  destruct (present (raw_state r)) eqn:Es; [|intros []].
  destruct (present (raw_party r)) eqn:Ep; [|intros []].
  destruct (present (raw_seniority r)) eqn:Eo; [|intros []].
  cbn [andb]. intros [<-|[]]. cbn [name state party seniority].
  apply present_spec in En as (n & -> & Hn).
  apply present_spec in Es as (t & -> & Hs).
  cbn [orEmpty]. split; [exact Hn|]. split; [exact Hs|]. split.
  - unfold oneOf. destruct (includes _ _) eqn:E.
    + apply includes_spec in E. exact E.
    + right; right; left. reflexivity.
  - unfold oneOf. destruct (includes _ _) eqn:E.
    + apply includes_spec in E. exact E.
    + right; left. reflexivity.
Qed.

(** X28.  Whatever senators.json holds, the roster [loadSenators] returns
    is one the generator can work on: every senator has a name and a state
    that are not empty, a party among the three the generator asks about
    and a seniority that is Senior or Junior.  The roster has no more
    senators than the file has entries, and it is empty when the file
    cannot be loaded. *)
Theorem loadSenators_gives_a_clean_roster
  (response : option (list (option RawSenator))) :
  let roster := loadSenators response in
  wellFormed roster = true
  /\ (forall s, In s roster ->
        name s <> [] /\ state s <> []
        /\ In (party s) Generator.parties
        /\ In (seniority s) Generator.seniorities)
  /\ (forall data, response = Some data ->
        List.length roster <= List.length data)
  /\ (response = None -> roster = []).
Proof.
  cbv zeta.
  assert (Hall : forall s, In s (loadSenators response) ->
            name s <> [] /\ state s <> []
            /\ In (party s) Generator.parties
            /\ In (seniority s) Generator.seniorities).
  { intros s Hs. destruct response as [data|]; [|destruct Hs].
    apply in_flat_map in Hs as (e & _ & He).
    exact (cleanedEntry_clean _ _ He). }
  split; [|split; [exact Hall|split]].
  - apply forallb_forall. intros s Hs.
    destruct (Hall s Hs) as (_ & Hst & _).
    destruct (state s); [congruence | reflexivity].
  - intros data ->. clear Hall. simpl.
    induction data as [|e data IH]; [reflexivity|].
    simpl. rewrite length_app.
    assert (List.length (cleanedEntry e) <= 1); [|lia].
    destruct e as [r|]; simpl; [|lia].
    destruct (_ && _); simpl; lia.
  - intros ->. reflexivity.
Qed.

End LoaderFacts.

(** ** Escaping *)

Module EscapeFacts.

Lemma replaceAll_app (c : N) (r a b : jsstring) :
  replaceAll c r (a ++ b) = replaceAll c r a ++ replaceAll c r b.
Proof. unfold replaceAll. apply flat_map_app. Qed.

(** The three replacements, one after the other, amount to one pass. *)
Lemma escapeHtml_chars (s : jsstring) :
  escapeHtml s = flat_map escapeChar s.
Proof.
  unfold escapeHtml. induction s as [|c s IH]; [reflexivity|].
  change (replaceAll ampersand (str "&amp;") (c :: s))
    with ((if N.eqb c ampersand then str "&amp;" else [c])
          ++ replaceAll ampersand (str "&amp;") s).
  rewrite !replaceAll_app, IH. cbn [flat_map]. f_equal.
  unfold escapeChar.
  destruct (N.eqb_spec c ampersand) as [->|Ha]; [reflexivity|].
  unfold replaceAll. cbn [flat_map]. rewrite app_nil_r.
  destruct (N.eqb_spec c lessThan) as [->|Hl]; [reflexivity|].
  cbn [flat_map]. rewrite app_nil_r. reflexivity.
Qed.

Lemma escapeChar_cases (c : N) :
  (c = ampersand /\ escapeChar c = str "&amp;")
  \/ (c = lessThan /\ escapeChar c = str "&lt;")
  \/ (c = greaterThan /\ escapeChar c = str "&gt;")
  \/ (c <> ampersand /\ c <> lessThan /\ c <> greaterThan
      /\ escapeChar c = [c]).
Proof.
  unfold escapeChar.
  destruct (N.eqb_spec c ampersand) as [->|Ha]; [left; auto|].
  destruct (N.eqb_spec c lessThan) as [->|Hl]; [right; left; auto|].
  destruct (N.eqb_spec c greaterThan) as [->|Hg]; [right; right; left; auto|].
  right; right; right. auto.
Qed.

Lemma escapeHtml_cons (c : N) (s : jsstring) :
  escapeHtml (c :: s) = escapeChar c ++ escapeHtml s.
Proof. rewrite !escapeHtml_chars. reflexivity. Qed.

Lemma escapeHtml_injective (s t : jsstring) :
  escapeHtml s = escapeHtml t -> s = t.
Proof.
  revert t; induction s as [|c s IH]; intros [|d t] E.
  - reflexivity.
  - exfalso. rewrite escapeHtml_cons in E.
    destruct (escapeChar_cases d) as [[_ Ed]|[[_ Ed]|[[_ Ed]|(_ & _ & _ & Ed)]]];
      rewrite Ed in E; discriminate.
  - exfalso. rewrite escapeHtml_cons in E.
    destruct (escapeChar_cases c) as [[_ Ec]|[[_ Ec]|[[_ Ec]|(_ & _ & _ & Ec)]]];
      rewrite Ec in E; discriminate.
  - rewrite !escapeHtml_cons in E.
    destruct (escapeChar_cases c)
      as [[Hc Ec]|[[Hc Ec]|[[Hc Ec]|(Ha & Hl & Hg & Ec)]]];
      destruct (escapeChar_cases d)
        as [[Hd Ed]|[[Hd Ed]|[[Hd Ed]|(Ha' & Hl' & Hg' & Ed)]]];
      rewrite Ec, Ed in E; subst;
      try discriminate;
      try (inversion E; subst; f_equal; apply IH; assumption);
      try (inversion E; subst; congruence);
      exfalso; simpl in E; injection E as E1 _;
      unfold ampersand, lessThan, greaterThan in *; congruence.
Qed.

(** X29.  [escapeHtml] leaves no [<] and no [>] in its result; it changes
    nothing in a string without [&], [<] and [>]; it escapes a string piece
    by piece, so that no character is lost; and two different strings have
    different escaped forms. *)
Theorem escapeHtml_leaves_no_angle_bracket (s t : jsstring) :
  ~ In lessThan (escapeHtml s)
  /\ ~ In greaterThan (escapeHtml s)
  /\ (~ In ampersand s -> ~ In lessThan s -> ~ In greaterThan s ->
      escapeHtml s = s)
  /\ escapeHtml (s ++ t) = escapeHtml s ++ escapeHtml t
  /\ List.length s <= List.length (escapeHtml s)
  /\ (escapeHtml s = escapeHtml t -> s = t).
Proof.
  assert (Hno : forall x, x = lessThan \/ x = greaterThan ->
                          ~ In x (escapeHtml s)).
  { intros x Hx. induction s as [|c s IH]; [intros []|].
    rewrite escapeHtml_cons, in_app_iff. intros [F|F]; [|exact (IH F)].
    destruct (escapeChar_cases c)
      as [[Hc Ec]|[[Hc Ec]|[[Hc Ec]|(Ha & Hl & Hg & Ec)]]];
      rewrite Ec in F; simpl in F;
      destruct Hx as [-> | ->]; unfold lessThan, greaterThan in *;
      intuition congruence. }
  split; [apply Hno; auto|]. split; [apply Hno; auto|].
  split; [|split; [|split]].
  - clear Hno. induction s as [|c s IH]; [reflexivity|].
    intros Na Nl Ng. rewrite escapeHtml_cons.
    destruct (escapeChar_cases c)
      as [[Hc Ec]|[[Hc Ec]|[[Hc Ec]|(Ha & Hl & Hg & Ec)]]];
      try (exfalso; subst c; simpl in *; tauto).
    rewrite Ec. simpl. f_equal.
    apply IH; intros F; [apply Na | apply Nl | apply Ng]; right; exact F.
  - rewrite !escapeHtml_chars. apply flat_map_app.
  - clear Hno. induction s as [|c s IH]; [simpl; lia|].
    rewrite escapeHtml_cons, length_app.
    destruct (escapeChar_cases c)
      as [[Hc Ec]|[[Hc Ec]|[[Hc Ec]|(Ha & Hl & Hg & Ec)]]];
      rewrite Ec; simpl in *; lia.
  - apply escapeHtml_injective.
Qed.

End EscapeFacts.
